(** * BikeTags: a shallow embedding of the hierarchical tag engine

    The definitions below follow the TypeScript of the BikeTags extension
    (the [biketags.bkext] application context): the trailing tag tokenizer,
    the normalizer and ancestor expander, the stable color hash, the
    change-gated row updater, the filter command, the global tag index and
    the hierarchy builder; then the commands that run over the outline, the
    ids and names of the sidebar items, the selection observer and the
    once-guard of the sidebar setup.

    Strings are JavaScript strings: finite sequences of UTF-16 code units,
    here [list N].  Row attributes are a finite map from attribute names to
    string values; text attributes (the chip markers) are a list of named
    ranges.  The two host built-ins [JSON.parse] and [JSON.stringify],
    [String.prototype.localeCompare] and the sidebar's [addItem] are
    parameters of the development. *)

From Stdlib Require Import ZArith NArith List Ascii String Sorted Lia.
From stdpp Require Import gmap strings list pretty sorting.
From Equations Require Import Equations.
From Equations.Prop Require Import Logic.


(** ** JavaScript strings and the string built-ins the extension calls *)

Abbreviation jsstring := (list N).

(** A string literal of the source, as its code units. *)
Definition js (s : string) : jsstring :=
  map N_of_ascii (list_ascii_of_string s).

Definition HASH : N := 35.   (* '#' *)
Definition SLASH : N := 47.  (* '/' *)
Definition SPACE : N := 32.  (* ' ' *)
Definition DASH : N := 45.   (* '-' *)

(** The regular expression class [\s], which is also the set of characters
    removed by [String.prototype.trim] (WhiteSpace and LineTerminator). *)
Definition isWhiteSpace (c : N) : bool :=
  ((9 <=? c) && (c <=? 13) || (c =? 32) || (c =? 160) || (c =? 5760)
   || (8192 <=? c) && (c <=? 8202) || (c =? 8232) || (c =? 8233)
   || (c =? 8239) || (c =? 8287) || (c =? 12288) || (c =? 65279))%N.

(** The class [\w] without the unicode or ignore-case flags: [A-Za-z0-9_]. *)
Definition isWordChar (c : N) : bool :=
  ((65 <=? c) && (c <=? 90) || (97 <=? c) && (c <=? 122)
   || (48 <=? c) && (c <=? 57) || (c =? 95))%N.

(** The class [[\w-]] of the tag pattern. *)
Definition isTagChar (c : N) : bool := isWordChar c || (c =? DASH)%N.

Fixpoint jsEqb (a b : jsstring) : bool :=
  match a, b with
  | [], [] => true
  | x :: a', y :: b' => (x =? y)%N && jsEqb a' b'
  | _, _ => false
  end.

(** [t.startsWith(p)] *)
Fixpoint startsWith (t p : jsstring) {struct p} : bool :=
  match p, t with
  | [], _ => true
  | _ :: _, [] => false
  | y :: p', x :: t' => (x =? y)%N && startsWith t' p'
  end.

(** [s.trim()]: the leading part and the trailing part are removed. *)
Fixpoint trimStart (s : jsstring) : jsstring :=
  match s with
  | c :: r => if isWhiteSpace c then trimStart r else s
  | [] => []
  end.

(** [while (endIndex > 0 && /\s/.test(s[endIndex - 1])) endIndex--] *)
Fixpoint trimEndIndex (s : jsstring) (endIndex : nat) : nat :=
  match endIndex with
  | O => O
  | S k =>
      match s !! k with
      | Some c => if isWhiteSpace c then trimEndIndex s k else endIndex
      | None => endIndex
      end
  end.

Definition trimEnd (s : jsstring) : jsstring :=
  take (trimEndIndex s (length s)) s.

Definition trim (s : jsstring) : jsstring := trimEnd (trimStart s).

(** [s.indexOf(c)] and [s.lastIndexOf(c)] for a one-character needle; -1
    when the character does not occur. *)
Fixpoint indexOfFrom (c : N) (s : jsstring) (i : Z) : Z :=
  match s with
  | [] => (-1)%Z
  | x :: r => if (x =? c)%N then i else indexOfFrom c r (i + 1)%Z
  end.

Definition indexOf (c : N) (s : jsstring) : Z := indexOfFrom c s 0%Z.

Fixpoint lastIndexOfFrom (c : N) (s : jsstring) (i : Z) (found : Z) : Z :=
  match s with
  | [] => found
  | x :: r => lastIndexOfFrom c r (i + 1)%Z (if (x =? c)%N then i else found)
  end.

Definition lastIndexOf (c : N) (s : jsstring) : Z :=
  lastIndexOfFrom c s 0%Z (-1)%Z.

(** [s.substring(0, n)] for [0 <= n]. *)
Definition substring0 (s : jsstring) (n : Z) : jsstring := take (Z.to_nat n) s.

(** [s.split(sep)] for a one-character separator: the empty string splits
    into one empty part. *)
Fixpoint split (sep : N) (s : jsstring) : list jsstring :=
  match s with
  | [] => [[]]
  | c :: r =>
      if (c =? sep)%N then [] :: split sep r
      else match split sep r with
           | p :: ps => (c :: p) :: ps
           | [] => [[c]]
           end
  end.

(** [parts.join(sep)] *)
Fixpoint join (sep : N) (parts : list jsstring) : jsstring :=
  match parts with
  | [] => []
  | p :: ps =>
      match ps with
      | [] => p
      | _ :: _ => p ++ sep :: join sep ps
      end
  end.

(** [Array.prototype.sort(compareFn)]: a stable sort; [x] is placed before
    the first element it does not compare greater than. *)
Section Sort.
Context {A : Type} (compareFn : A -> A -> Z).

Fixpoint sortInsert (x : A) (l : list A) : list A :=
  match l with
  | [] => [x]
  | y :: l' => if (compareFn x y <=? 0)%Z then x :: l else y :: sortInsert x l'
  end.

Definition sortBy (l : list A) : list A := foldr sortInsert [] l.
End Sort.

(** The order of [<] on strings: lexicographic on code units. *)
Fixpoint jsLtb (a b : jsstring) : bool :=
  match a, b with
  | _, [] => false
  | [], _ :: _ => true
  | x :: a', y :: b' =>
      if (x <? y)%N then true else if (y <? x)%N then false else jsLtb a' b'
  end.

(** The comparison [sort()] uses when no compare function is given. *)
Definition defaultCompare (a b : jsstring) : Z :=
  if jsLtb a b then (-1)%Z else if jsLtb b a then 1%Z else 0%Z.

Definition sort (l : list jsstring) : list jsstring := sortBy defaultCompare l.

(** [ToInt32]: the signed 32-bit wrap-around applied by [<<] and [|]. *)
Definition ToInt32 (x : Z) : Z := ((x + 2 ^ 31) mod 2 ^ 32 - 2 ^ 31)%Z.

(** [x << n] on numbers that hold integers. *)
Definition shl (x : Z) (n : Z) : Z :=
  ToInt32 (Z.shiftl (ToInt32 x) (Z.land n 31)).

(** [x | y] on numbers that hold integers. *)
Definition bitOr (x y : Z) : Z := ToInt32 (Z.lor (ToInt32 x) (ToInt32 y)).

(** ** The tag tokenizer *)

Record TagToken := { tag : jsstring; start : Z; end_ : Z }.

(** [[\w-]+(?:\/[\w-]+)*$] on the rest of the string; [inSegment] tells
    whether the segment being read already holds a character. *)
Fixpoint matchSegments (inSegment : bool) (s : jsstring) : bool :=
  match s with
  | [] => inSegment
  | c :: r =>
      if isTagChar c then matchSegments true r
      else if (c =? SLASH)%N then inSegment && matchSegments false r
      else false
  end.

(** The capture group [TAG = #[\w-]+(?:\/[\w-]+)*], up to the end of the
    string. *)
Definition matchTagText (s : jsstring) : bool :=
  match s with
  | c :: r => (c =? HASH)%N && matchSegments false r
  | [] => false
  end.

(** One attempt of the pattern [(?:^|\s)(TAG)$] at a position whose
    remaining input is [rest]; the alternative [^] is tried before [\s].
    The result is the capture group. *)
Definition matchHere (atStart : bool) (rest : jsstring) : option jsstring :=
  if atStart && matchTagText rest then Some rest
  else match rest with
       | c :: r => if isWhiteSpace c && matchTagText r then Some r else None
       | [] => None
       end.

(** [re.exec(tail)]: positions are tried from left to right; the result is
    [(m.index, m[1])]. *)
Fixpoint execFrom (i : nat) (rest : jsstring) : option (nat * jsstring) :=
  match matchHere (Nat.eqb i 0) rest with
  | Some g => Some (i, g)
  | None =>
      match rest with
      | [] => None
      | _ :: r => execFrom (S i) r
      end
  end.

Definition reExec (tail : jsstring) : option (nat * jsstring) := execFrom 0 tail.

(** The token recorded for one match. *)
Definition tokenOfMatch (tail : jsstring) (index : nat) (tagText : jsstring)
  : TagToken :=
  let hasLeadingSpace :=
    (0 <? index)%nat &&
    match tail !! index with Some c => (c =? SPACE)%N | None => false end in
  let startInTail := (Z.of_nat index + (if hasLeadingSpace then 1 else 0))%Z in
  let start := startInTail in
  let end_ := (start + Z.of_nat (length tagText))%Z in
  {| tag := tagText; start := start; end_ := end_ |}.

(** The [while (true)] loop of [findTrailingTags]: [tail] shrinks at every
    match, [tokens.unshift] puts the new token in front. *)
Equations? scanTail (tail_ : jsstring) (tokens : list TagToken)
  : list TagToken by wf (length tail_) lt :=
  scanTail tail_ tokens with inspect (reExec tail_) => {
    | exist _ None _ => tokens
    | exist _ (Some (index, tagText)) Hm =>
        scanTail (trimEnd (take index tail_))
                 (tokenOfMatch tail_ index tagText :: tokens) }.
Proof.
  (* a match starts inside [tail_], and trimming does not lengthen *)
  assert (Hidx : forall rest i idx g,
             execFrom i rest = Some (idx, g) -> (idx < i + length rest)%nat).
  { induction rest as [|c r IH]; intros i idx g; simpl.
    - unfold matchHere. simpl. rewrite andb_false_r. discriminate.
    - destruct (matchHere (Nat.eqb i 0) (c :: r)) as [g'|].
      + intros [= <- _]. lia.
      + intros H. apply IH in H. lia. }
  apply Hidx in Hm. unfold trimEnd. rewrite !length_take. lia.
Qed.

(** [findTrailingTags(row)], as a function of [row.text.string]. *)
Definition findTrailingTags (s : jsstring) : list TagToken :=
  let endIndex := trimEndIndex s (length s) in
  let tail := take endIndex s in
  scanTail tail [].

(** ** The normalizer and the ancestor expander *)

Fixpoint dropSlashes (s : jsstring) : jsstring :=
  match s with
  | c :: r => if (c =? SLASH)%N then dropSlashes r else s
  | [] => []
  end.

(** [t.replace(/\/+/, '/')]: the pattern has no [g] flag, so the leftmost
    run of slashes, and only that one, is replaced. *)
Fixpoint replaceSlashRun (s : jsstring) : jsstring :=
  match s with
  | [] => []
  | c :: r =>
      if (c =? SLASH)%N then SLASH :: dropSlashes r else c :: replaceSlashRun r
  end.

Definition normalizeTag (tag : jsstring) : jsstring :=
  let t := trim tag in
  let t := if startsWith t [HASH] then t else HASH :: t in
  let t := replaceSlashRun t in
  t.

Definition addAncestors (full : jsstring) : list jsstring :=
  let parts := split SLASH (drop 1 full) in
  map (fun i => HASH :: join SLASH (take i parts)) (seq 1 (length parts)).

(** ** The stable color index *)

Definition COLOR_COUNT : Z := 8.

Definition stableIndexForTag (tag : jsstring) (modulo : Z) : Z :=
  let hash :=
    fold_left
      (fun hash c =>
         let hash := (shl hash 5 + hash + Z.of_N c)%Z in
         bitOr hash 0)
      tag 5381%Z in
  Z.rem (Z.abs hash) modulo.

(** ** Rows, their attributes and the mutations the extension performs *)

Definition TAGS_ATTR_NEW : string := "bt-tags".
Definition TAGS_ATTR_OLD : string := "data-bt-tags".
Definition FILTER_ATTR_NEW : string := "bt-filter".
Definition FILTER_ATTR_OLD : string := "data-bt-filter".

(** A row of the outline: [row.text.string], the row attributes read and
    written with [getAttribute], [setAttribute] and [removeAttribute], and
    the attributes attached to ranges of the text, each [(name, start, end)]. *)
Record Row := {
  text : jsstring;
  attributes : gmap string jsstring;
  textAttributes : list (string * Z * Z)
}.

(** One call that changes a row. *)
Inductive Mutation :=
| SetAttribute (name : string) (value : jsstring)
| RemoveAttribute (name : string)
| TextAddAttribute (name : string) (start end_ : Z)
| TextRemoveAttribute (name : string).

(** Code that runs against one row: it returns a value, leaves the row in
    a new state and has made the listed mutating calls, in order. *)
Definition RowM (A : Type) : Type := Row -> A * Row * list Mutation.

#[global] Instance RowM_ret : MRet RowM := fun A x row => (x, row, []).

#[global] Instance RowM_bind : MBind RowM := fun A B f m row =>
  let '(x, row1, log1) := m row in
  let '(y, row2, log2) := f x row1 in
  (y, row2, log1 ++ log2).

Definition getText : RowM jsstring := fun row => (text row, row, []).

Definition getAttribute (name : string) : RowM (option jsstring) :=
  fun row => (attributes row !! name, row, []).

Definition setAttribute (name : string) (value : jsstring) : RowM unit :=
  fun row =>
    (tt,
     {| text := text row;
        attributes := <[name := value]> (attributes row);
        textAttributes := textAttributes row |},
     [SetAttribute name value]).

Definition removeAttribute (name : string) : RowM unit :=
  fun row =>
    (tt,
     {| text := text row;
        attributes := delete name (attributes row);
        textAttributes := textAttributes row |},
     [RemoveAttribute name]).

Definition textAddAttribute (name : string) (start end_ : Z) : RowM unit :=
  fun row =>
    (tt,
     {| text := text row;
        attributes := attributes row;
        textAttributes := textAttributes row ++ [(name, start, end_)] |},
     [TextAddAttribute name start end_]).

Definition textRemoveAttribute (name : string) : RowM unit :=
  fun row =>
    (tt,
     {| text := text row;
        attributes := attributes row;
        textAttributes :=
          filter (fun a => a.1.1 <> name) (textAttributes row) |},
     [TextRemoveAttribute name]).

(** [for (const x of l) body(x)] *)
Fixpoint forEach {A : Type} (body : A -> RowM unit) (l : list A) : RowM unit :=
  match l with
  | [] => mret tt
  | x :: r => body x;; forEach body r
  end.

(** The row after the run and the calls the run made. *)
Definition rowAfter {A : Type} (m : RowM A) (row : Row) : Row := (m row).1.2.
Definition mutationsOf {A : Type} (m : RowM A) (row : Row) : list Mutation :=
  (m row).2.

(** Truthiness of a [string | undefined]: defined and not empty. *)
Definition truthy (v : option jsstring) : bool :=
  match v with
  | Some (_ :: _) => true
  | _ => false
  end.

Definition getRowTagsAttribute : RowM (option jsstring) :=
  v ← getAttribute TAGS_ATTR_NEW;
  match v with
  | Some x => mret (Some x)
  | None => getAttribute TAGS_ATTR_OLD
  end.

Definition setRowTagsAttribute (value : jsstring) : RowM unit :=
  setAttribute TAGS_ATTR_NEW value;;
  setAttribute TAGS_ATTR_OLD value.

Definition removeRowTagsAttribute : RowM unit :=
  removeAttribute TAGS_ATTR_NEW;;
  removeAttribute TAGS_ATTR_OLD.

Definition setRowFilterAttribute (value : jsstring) : RowM unit :=
  setAttribute FILTER_ATTR_NEW value;;
  setAttribute FILTER_ATTR_OLD value.

Definition removeRowFilterAttribute : RowM unit :=
  removeAttribute FILTER_ATTR_NEW;;
  removeAttribute FILTER_ATTR_OLD.

(** ** Values produced by [JSON.parse] *)

(** An element of a parsed array is a string or some other value; the
    extension only ever looks inside the strings. *)
Inductive jsvalue (other : Type) :=
| VString (s : jsstring)
| VOther (o : other).
Arguments VString {other} s.
Arguments VOther {other} o.

(** What [JSON.parse] returned: an array, or a value that is not an array
    (on which [slice().sort], [some] and [forEach] all throw a TypeError). *)
Inductive json (other : Type) :=
| JArray (elems : list (jsvalue other))
| JNotArray.
Arguments JArray {other} elems.
Arguments JNotArray {other}.

#[global] Instance jsvalue_eq_dec {other} `{EqDecision other} :
  EqDecision (jsvalue other).
Proof. solve_decision. Defined.

(** [new Set()] with [add], in insertion order. *)
Definition setAdd {A : Type} `{EqDecision A} (s : list A) (x : A) : list A :=
  if decide (x ∈ s) then s else s ++ [x].

(** ** The change-gated updater, the filter and the tag index *)

Section Host.
(** Parsed values that are not strings, the string [ToString] gives for
    one of them (used by [sort()]), and the two JSON built-ins.
    [JSON_parse] is [None] when [JSON.parse] throws a SyntaxError. *)
Context {other : Type} `{EqDecision other}.
Variable otherToString : other -> jsstring.
Variable JSON_parse : jsstring -> option (json other).
Variable JSON_stringify : list jsstring -> jsstring.

Definition valueToString (v : jsvalue other) : jsstring :=
  match v with
  | VString s => s
  | VOther o => otherToString o
  end.

(** [a[i] !== b[i]] between a parsed value and a string. *)
Definition strictNotEqual (a : jsvalue other) (b : jsstring) : bool :=
  match a with
  | VString s => negb (jsEqb s b)
  | VOther _ => true
  end.

Fixpoint arraysEqualLoop (a : list (jsvalue other)) (b : list jsstring)
  : bool :=
  match a, b with
  | x :: a', y :: b' => if strictNotEqual x y then false else arraysEqualLoop a' b'
  | _, _ => true
  end.

Definition arraysEqual (a : list (jsvalue other)) (b : list jsstring) : bool :=
  if negb (Nat.eqb (length a) (length b)) then false
  else arraysEqualLoop a b.

(** [(JSON.parse(existingRaw) as string[]).slice().sort()] followed by
    [arraysEqual(existing, newSet)], inside [try { } catch {}]: any
    exception leaves the answer at "not equal". *)
Definition existingEquals (existingRaw : jsstring) (newSet : list jsstring)
  : bool :=
  match JSON_parse existingRaw with
  | Some (JArray elems) =>
      let existing :=
        sortBy (fun x y => defaultCompare (valueToString x) (valueToString y))
               elems in
      arraysEqual existing newSet
  | Some JNotArray => false
  | None => false
  end.

(** The set of tag paths of the tokens, ancestors included. *)
Definition tagPathsOf (tokens : list TagToken) : list jsstring :=
  fold_left
    (fun tagPaths token =>
       let normalized := normalizeTag (tag token) in
       fold_left setAdd (addAncestors normalized) tagPaths)
    tokens [].

Definition applyTagsToRow : RowM unit :=
  s ← getText;
  let tokens := findTrailingTags s in
  if Nat.eqb (length tokens) 0 then
    raw ← getRowTagsAttribute;
    if truthy raw then removeRowTagsAttribute else mret tt
  else
    let tagPaths := tagPathsOf tokens in
    let newSet := sort tagPaths in
    existingRaw ← getRowTagsAttribute;
    if truthy existingRaw && existingEquals (default [] existingRaw) newSet
    then mret tt
    else
      textRemoveAttribute "biketag";;
      forEach (fun i => textRemoveAttribute ("bt-color-" +:+ pretty i))
              (seqZ 0 COLOR_COUNT);;
      forEach
        (fun token =>
           let normalized := normalizeTag (tag token) in
           textAddAttribute "biketag" (start token) (end_ token);;
           let colorIndex := stableIndexForTag normalized COLOR_COUNT in
           textAddAttribute ("bt-color-" +:+ pretty colorIndex)
                            (start token) (end_ token))
        tokens;;
      setRowTagsAttribute (JSON_stringify newSet).

(** *** Selections, editors and commands *)

Inductive Selection :=
| CaretSelection (row : Row) (char : Z)
| TextSelection (row : Row) (headChar : Z)
| BlockSelection (row : Row).

Definition selectionRow (selection : Selection) : Row :=
  match selection with
  | CaretSelection row _ | TextSelection row _ | BlockSelection row => row
  end.

Definition caretCharIndex (selection : Selection) : option Z :=
  match selection with
  | CaretSelection _ char => Some char
  | TextSelection _ headChar => Some headChar
  | BlockSelection _ => None
  end.

Fixpoint tagUnderIndex (index : Z) (tokens : list TagToken)
  : option jsstring :=
  match tokens with
  | [] => None
  | t :: rest =>
      if ((start t <=? index) && (index <? end_ t) || (index =? end_ t))%Z
      then Some (normalizeTag (tag t))
      else if ((0 <? index) && (start t <=? index - 1)
               && (index - 1 <? end_ t))%Z
      then Some (normalizeTag (tag t))
      else tagUnderIndex index rest
  end.

Definition tagFromSelection (selection : Selection) : option jsstring :=
  let index := caretCharIndex selection in
  let row := selectionRow selection in
  let tokens := findTrailingTags (text row) in
  if Nat.eqb (length tokens) 0 then None
  else match index with
       | None => None
       | Some index => tagUnderIndex index tokens
       end.

Definition lastTrailingTag (row : Row) : option jsstring :=
  let tokens := findTrailingTags (text row) in
  if Nat.eqb (length tokens) 0 then None
  else option_map (fun t => normalizeTag (tag t)) (last tokens).

(** [outline.root.descendants] in traversal order, [editor.selection] and
    [editor.filter]. *)
Record Editor := {
  outline : list Row;
  selection : option Selection;
  editorFilter : jsstring
}.

Record CommandContext := {
  editor : option Editor;
  contextTag : option jsstring
}.

(** A change made to the editor: a mutating call on the row at a position
    of the traversal, or an assignment to [editor.filter]. *)
Inductive EditorMutation :=
| OnRow (position : nat) (m : Mutation)
| SetFilter (value : jsstring).

(** [for (const row of outline.root.descendants) body(row)] *)
Fixpoint forRowsFrom (position : nat) (body : RowM unit) (rows : list Row)
  : list Row * list EditorMutation :=
  match rows with
  | [] => ([], [])
  | row :: rest =>
      let '(_, row', log) := body row in
      let '(rest', log') := forRowsFrom (S position) body rest in
      (row' :: rest', map (OnRow position) log ++ log')
  end.

Definition forRows := forRowsFrom 0.

(** [list.some(t => t === target || t.startsWith(target + '/'))];
    [None] when the callback throws: a value that is not a string has no
    [startsWith]. *)
Fixpoint someMatches (target : jsstring) (list : list (jsvalue other))
  : option bool :=
  match list with
  | [] => Some false
  | VString t :: rest =>
      if jsEqb t target || startsWith t (target ++ [SLASH]) then Some true
      else someMatches target rest
  | VOther _ :: _ => None
  end.

(** The body of the row loop of [filterByTagCommand]. *)
Definition filterRowCommand (target : jsstring) : RowM unit :=
  raw ← getRowTagsAttribute;
  let match_ :=
    if truthy raw then
      match JSON_parse (default [] raw) with
      | Some (JArray list) =>
          match someMatches target list with
          | Some b => b
          | None => false
          end
      | _ => false
      end
    else false in
  if match_ then setRowFilterAttribute (js "1")
  else removeRowFilterAttribute.

Definition orElse (a b : option jsstring) : option jsstring :=
  if truthy a then a else b.

Definition filterByTagCommand (context : CommandContext)
  : bool * CommandContext * list EditorMutation :=
  match editor context with
  | None => (false, context, [])
  | Some ed =>
      let resolved : option (option jsstring) :=
        if truthy (contextTag context) then Some (contextTag context)
        else match selection ed with
             | None => None
             | Some sel =>
                 Some (orElse (tagFromSelection sel)
                              (lastTrailingTag (selectionRow sel)))
             end in
      match resolved with
      | None => (false, context, [])
      | Some target =>
          if negb (truthy target) then (false, context, [])
          else
            let '(rows, log) :=
              forRows (filterRowCommand (default [] target)) (outline ed) in
            (true,
             {| editor := Some {| outline := rows;
                                  selection := selection ed;
                                  editorFilter := js "//@bt-filter" |};
                contextTag := contextTag context |},
             log ++ [SetFilter (js "//@bt-filter")])
      end
  end.

(** The body of the row loop of the click action that
    [addTagHierarchyToSidebar] binds to a node. *)
Definition filterRowSidebar (target : jsstring) : RowM unit :=
  raw ← getRowTagsAttribute;
  let match_ :=
    if truthy raw then
      match JSON_parse (default [] raw) with
      | Some (JArray list) =>
          match someMatches target list with
          | Some b => b
          | None => false
          end
      | _ => false
      end
    else false in
  if match_ then setRowFilterAttribute (js "1")
  else removeRowFilterAttribute.

(** The click action of the sidebar node for [nodeTag], run with
    [window.currentOutlineEditor]. *)
Definition sidebarAction (nodeTag : jsstring)
           (currentOutlineEditor : option Editor)
  : option Editor * list EditorMutation :=
  match currentOutlineEditor with
  | None => (None, [])
  | Some ed =>
      let target := nodeTag in
      let '(rows, log) := forRows (filterRowSidebar target) (outline ed) in
      (Some {| outline := rows;
               selection := selection ed;
               editorFilter := js "//@bt-filter" |},
       log ++ [SetFilter (js "//@bt-filter")])
  end.

(** *** The global tag index *)

Definition indexAllTags (rows : list Row) : list (jsvalue other) :=
  fold_left
    (fun tags row =>
       let raw := attributes row !! "data-bt-tags" in
       if truthy raw then
         match JSON_parse (default [] raw) with
         | Some (JArray list) => fold_left setAdd list tags
         | _ => tags
         end
       else tags)
    rows [].
End Host.

(** ** The hierarchy builder *)

#[warnings="-register-all"]
Inductive TagHierarchyNode :=
| Node (nodeTag : jsstring) (children : list TagHierarchyNode).

Definition nodeTag (n : TagHierarchyNode) : jsstring :=
  match n with Node t _ => t end.

Definition children (n : TagHierarchyNode) : list TagHierarchyNode :=
  match n with Node _ c => c end.

(** The node objects are shared: [nodeMap] holds one object per tag, and
    the [children] arrays and [rootNodes] hold references to these objects.
    A reference is modelled by the tag of the node it points to, and the
    store maps each tag that has a node to the [children] array of that
    node. *)
Record HierarchyState := {
  nodeMap : gmap jsstring (list jsstring);
  rootNodes : list jsstring
}.

(** [ensureNode(t)]: the node of [t], created with no children when
    [nodeMap] has none. *)
Definition ensureNode (t : jsstring) (m : gmap jsstring (list jsstring))
  : gmap jsstring (list jsstring) :=
  match m !! t with
  | Some _ => m
  | None => <[t := []]> m
  end.

(** [array.includes(node)] on an array of references. *)
Definition includes (l : list jsstring) (node : jsstring) : bool :=
  bool_decide (node ∈ l).

(** One iteration of [for (const tag of sortedByDepth)]. *)
Definition hierarchyStep (st : HierarchyState) (tag : jsstring)
  : HierarchyState :=
  let m := ensureNode tag (nodeMap st) in
  let node := tag in
  let lastSlash := lastIndexOf SLASH tag in
  if (0 <? lastSlash)%Z then
    let parentTag := substring0 tag lastSlash in
    let m := ensureNode parentTag m in
    let parent := parentTag in
    let parentChildren := default [] (m !! parent) in
    let m :=
      if negb (includes parentChildren node)
      then <[parent := parentChildren ++ [node]]> m else m in
    let roots :=
      if (indexOf SLASH parentTag =? -1)%Z && negb (includes (rootNodes st) parent)
      then rootNodes st ++ [parent] else rootNodes st in
    {| nodeMap := m; rootNodes := roots |}
  else
    let roots :=
      if negb (includes (rootNodes st) node)
      then rootNodes st ++ [node] else rootNodes st in
    {| nodeMap := m; rootNodes := roots |}.

Section Hierarchy.
(** [a.localeCompare(b)] of the host. *)
Variable localeCompare : jsstring -> jsstring -> Z.

Definition depthCompare (a b : jsstring) : Z :=
  let da := Z.of_nat (length (split SLASH a)) in
  let db := Z.of_nat (length (split SLASH b)) in
  if negb (da =? db)%Z then (da - db)%Z
  else localeCompare a b.

(** The store and the root references when [buildTagHierarchy] returns;
    [tags] is the content of the set in insertion order. *)
Definition buildState (tags : list jsstring) : HierarchyState :=
  let sortedByDepth := sortBy depthCompare tags in
  fold_left hierarchyStep sortedByDepth
            {| nodeMap := ∅; rootNodes := [] |}.

(** The object a reference points to, read out of the store as a tree;
    [fuel] bounds the depth that is followed. *)
Fixpoint readNode (fuel : nat) (m : gmap jsstring (list jsstring))
         (t : jsstring) : TagHierarchyNode :=
  match fuel with
  | O => Node t []
  | S k => Node t (map (readNode k m) (default [] (m !! t)))
  end.

(** The returned [rootNodes].  A child's tag is longer than its parent's,
    so no path is longer than the number of nodes. *)
Definition buildTagHierarchy (tags : list jsstring) : list TagHierarchyNode :=
  let st := buildState tags in
  map (readNode (size (nodeMap st)) (nodeMap st)) (rootNodes st).
End Hierarchy.

(** A node of the store is reachable when a chain of [children] links
    leads to it from one of the roots; [path] lists the tags on the chain,
    root first. *)
Inductive pathTo (m : gmap jsstring (list jsstring)) (roots : list jsstring)
  : list jsstring -> jsstring -> Prop :=
| path_root r : r ∈ roots -> pathTo m roots [r] r
| path_child path p c cs :
    pathTo m roots path p -> m !! p = Some cs -> c ∈ cs ->
    pathTo m roots (path ++ [c]) c.

Definition reachable (st : HierarchyState) (t : jsstring) : Prop :=
  exists path, pathTo (nodeMap st) (rootNodes st) path t.

(** ** A concrete JSON codec for arrays of strings

    [JSON.stringify] on an array of strings writes the elements between
    double quotes, separated by commas, inside brackets; a double quote or a
    backslash inside an element is written after a backslash.  [parse]
    reads this form back.  It stands in for the host built-ins wherever a
    statement below is run on a concrete row. *)
Module MiniJSON.
Definition QUOTE : N := 34.
Definition BACKSLASH : N := 92.
Definition COMMA : N := 44.
Definition LBRACKET : N := 91.
Definition RBRACKET : N := 93.

Fixpoint quoteBody (s : jsstring) : jsstring :=
  match s with
  | [] => []
  | c :: r =>
      if (c =? QUOTE)%N || (c =? BACKSLASH)%N
      then BACKSLASH :: c :: quoteBody r
      else c :: quoteBody r
  end.

Definition quote (s : jsstring) : jsstring := QUOTE :: quoteBody s ++ [QUOTE].

Fixpoint stringifyElems (l : list jsstring) : jsstring :=
  match l with
  | [] => []
  | s :: r =>
      match r with
      | [] => quote s
      | _ :: _ => quote s ++ COMMA :: stringifyElems r
      end
  end.

Definition stringify (l : list jsstring) : jsstring :=
  LBRACKET :: stringifyElems l ++ [RBRACKET].

(** The characters up to the closing quote, and the input after it. *)
Fixpoint parseBody (s : jsstring) : option (jsstring * jsstring) :=
  match s with
  | [] => None
  | c :: r =>
      if (c =? QUOTE)%N then Some ([], r)
      else if (c =? BACKSLASH)%N then
        match r with
        | d :: r' =>
            match parseBody r' with
            | Some (body, rest) => Some (d :: body, rest)
            | None => None
            end
        | [] => None
        end
      else
        match parseBody r with
        | Some (body, rest) => Some (c :: body, rest)
        | None => None
        end
  end.

(** The elements after an opening bracket or a comma. *)
Fixpoint parseElems (fuel : nat) (s : jsstring) : option (list jsstring) :=
  match fuel with
  | O => None
  | S k =>
      match s with
      | c :: r =>
          if (c =? QUOTE)%N then
            match parseBody r with
            | Some (body, d :: rest) =>
                if (d =? RBRACKET)%N then
                  match rest with [] => Some [body] | _ :: _ => None end
                else if (d =? COMMA)%N then
                  match parseElems k rest with
                  | Some l => Some (body :: l)
                  | None => None
                  end
                else None
            | _ => None
            end
          else None
      | [] => None
      end
  end.

Definition parse (s : jsstring) : option (json Empty_set) :=
  match s with
  | c :: r =>
      if (c =? LBRACKET)%N then
        match r with
        | [d] => if (d =? RBRACKET)%N then Some (JArray []) else None
        | _ =>
            match parseElems (length r) r with
            | Some l => Some (JArray (map VString l))
            | None => None
            end
        end
      else None
  | [] => None
  end.

Definition otherToString (o : Empty_set) : jsstring := match o with end.
End MiniJSON.

(** ** Reference definitions and the notions the statements use *)

(** Truncation to a signed 32-bit accumulator: the representative of [x]
    modulo [2^32] that lies in [[-2^31, 2^31)]. *)
Definition truncateSigned32 (x : Z) : Z :=
  let r := (x mod 2 ^ 32)%Z in
  if (r <? 2 ^ 31)%Z then r else (r - 2 ^ 32)%Z.

(** The multiplicative string hash: seed 5381, [hash * 33 + charCode] per
    character, truncated to 32 bits at every step. *)
Definition djb2 (tagText : jsstring) : Z :=
  fold_left (fun hash c => truncateSigned32 (hash * 33 + Z.of_N c)%Z)
            tagText 5381%Z.

(** [colorSlot]: the hash folded to non-negative and reduced modulo the
    palette size. *)
Definition colorSlot (tagText : jsstring) (paletteSize : Z) : Z :=
  (Z.abs (djb2 tagText) mod paletteSize)%Z.

(** The prefixes of [s] that end just before one of its slashes, shortest
    first: the proper prefix paths of a tag path. *)
Fixpoint prefixesBeforeSlash (s : jsstring) : list jsstring :=
  match s with
  | [] => []
  | c :: r =>
      if (c =? SLASH)%N then [] :: map (cons c) (prefixesBeforeSlash r)
      else map (cons c) (prefixesBeforeSlash r)
  end.

(** [s] contains two slashes in a row. *)
Fixpoint hasDoubleSlash (s : jsstring) : bool :=
  match s with
  | c :: r =>
      match r with
      | d :: _ => ((c =? SLASH)%N && (d =? SLASH)%N) || hasDoubleSlash r
      | [] => false
      end
  | [] => false
  end.

(** The part of [s] after its leftmost run of slashes; empty when [s]
    holds no slash. *)
Fixpoint afterSlashRun (s : jsstring) : jsstring :=
  match s with
  | c :: r => if (c =? SLASH)%N then dropSlashes r else afterSlashRun r
  | [] => []
  end.

(** Every element is placed before its right neighbour by [compareFn]. *)
Fixpoint inOrder {A : Type} (compareFn : A -> A -> Z) (l : list A) : bool :=
  match l with
  | x :: l' =>
      match l' with
      | y :: _ => (compareFn x y <=? 0)%Z && inOrder compareFn l'
      | [] => true
      end
  | [] => true
  end.

(** The value [getRowTagsAttribute] returns for a row. *)
Definition persistedTags (row : Row) : option jsstring :=
  match attributes row !! TAGS_ATTR_NEW with
  | Some x => Some x
  | None => attributes row !! TAGS_ATTR_OLD
  end.

(** The candidate set of a row text: sorted, without duplicates. *)
Definition candidateSet (s : jsstring) : list jsstring :=
  sort (tagPathsOf (findTrailingTags s)).

(** Code that touches the text attributes only. *)
Definition marksOnly {A : Type} (m : RowM A) : Prop :=
  forall row, text (m row).1.2 = text row /\
              attributes (m row).1.2 = attributes row.

(** The part of [applyTagsToRow] that rewrites the chip markers. *)
Definition rewriteMarkers (tokens : list TagToken) : RowM unit :=
  textRemoveAttribute "biketag";;
  forEach (fun i => textRemoveAttribute ("bt-color-" +:+ pretty i))
          (seqZ 0 COLOR_COUNT);;
  forEach
    (fun token =>
       let normalized := normalizeTag (tag token) in
       textAddAttribute "biketag" (start token) (end_ token);;
       let colorIndex := stableIndexForTag normalized COLOR_COUNT in
       textAddAttribute ("bt-color-" +:+ pretty colorIndex)
                        (start token) (end_ token))
    tokens.

(** The two facts about the host's JSON the updater relies on: an array of
    strings that was written by [JSON.stringify] is read back by
    [JSON.parse], and the empty text is not JSON. *)
Definition JSON_roundtrip {other : Type}
           (JSON_parse : jsstring -> option (json other))
           (JSON_stringify : list jsstring -> jsstring) : Prop :=
  forall l, JSON_parse (JSON_stringify l) = Some (JArray (map VString l)).

Definition JSON_rejects_empty {other : Type}
           (JSON_parse : jsstring -> option (json other)) : Prop :=
  JSON_parse [] = None.

(** The parent path of a tag: the part before its last slash, when that
    slash is not the first character. *)
Definition parentOf (t : jsstring) : option jsstring :=
  let lastSlash := lastIndexOf SLASH t in
  if (0 <? lastSlash)%Z then Some (substring0 t lastSlash) else None.

(** Every parent path of a member is a member. *)
Definition parentClosed (tags : list jsstring) : Prop :=
  forall t p, t ∈ tags -> parentOf t = Some p -> p ∈ tags.

(** The [children] array of the node of [k]; empty when there is no node. *)
Definition childrenOf (m : gmap jsstring (list jsstring)) (k : jsstring)
  : list jsstring :=
  default [] (m !! k).

(** What the store and the roots hold once the tags of [processed] have
    gone through the loop. *)
Record hierarchyInv (processed : list jsstring) (st : HierarchyState) : Prop := {
  inv_nodes : forall k,
    is_Some (nodeMap st !! k)
    <-> k ∈ processed \/ exists c, c ∈ processed /\ parentOf c = Some k;
  inv_children : forall k c,
    c ∈ childrenOf (nodeMap st) k <-> c ∈ processed /\ parentOf c = Some k;
  inv_roots : forall r,
    r ∈ rootNodes st
    <-> (r ∈ processed /\ parentOf r = None)
        \/ (exists c, c ∈ processed /\ parentOf c = Some r
                      /\ indexOf SLASH r = (-1)%Z);
  inv_children_once : forall k, NoDup (childrenOf (nodeMap st) k);
  inv_roots_once : NoDup (rootNodes st)
}.

(** [matches(derivedTagSet, target)] in the words of the specification:
    the target is a member of the set, or some member starts with the
    target followed by a slash. *)
Definition matches (derivedTagSet : list jsstring) (target : jsstring) : Prop :=
  target ∈ derivedTagSet \/
  exists t, t ∈ derivedTagSet /\ exists rest, t = target ++ SLASH :: rest.

(** No target tag can be resolved for the command: there is no editor, or
    no selection, or neither a tag under the caret nor a trailing tag on
    the selected row. *)
Definition noTargetResolvable (context : CommandContext) : Prop :=
  match editor context with
  | None => True
  | Some ed =>
      match selection ed with
      | None => True
      | Some sel =>
          tagFromSelection sel = None /\
          lastTrailingTag (selectionRow sel) = None
      end
  end.

(** A text attribute name that marks a tag chip. *)
Definition isTagMarker (name : string) : bool :=
  String.eqb name "biketag"
  || existsb (fun i => String.eqb name ("bt-color-" +:+ pretty i))
             (seqZ 0 COLOR_COUNT).

(** The outcome "the tag set and the visual tag markers are cleared". *)
Definition tagsAndMarkersCleared (after : Row) : Prop :=
  attributes after !! TAGS_ATTR_NEW = None /\
  attributes after !! TAGS_ATTR_OLD = None /\
  forall a, a ∈ textAttributes after -> isTagMarker a.1.1 = false.

(** [applyTagsToRow] run with the concrete codec. *)
Definition applyTagsMini : RowM unit :=
  applyTagsToRow MiniJSON.otherToString MiniJSON.parse MiniJSON.stringify.

(** A row with the trailing tag [#draft], not yet tagged. *)
Definition draftRow : Row :=
  {| text := js "see #draft";
     attributes := ∅;
     textAttributes := [] |}.

(** A row that was tagged [#draft] while the tag was trailing and whose
    text has since been extended after the tag. *)
Definition staleRow : Row :=
  {| text := js "see #draft for details";
     attributes :=
       <[TAGS_ATTR_OLD := MiniJSON.stringify [js "#draft"]]>
         (<[TAGS_ATTR_NEW := MiniJSON.stringify [js "#draft"]]> ∅);
     textAttributes := [("biketag", 4, 10); ("bt-color-1", 4, 10)]%Z |}.

Definition taggedRow : Row :=
  {| text := js "Do something important #this #that/nested";
     attributes := ∅;
     textAttributes := [] |}.

Definition plainRow : Row :=
  {| text := js "Review the #draft document";
     attributes := ∅;
     textAttributes := [] |}.

(** A row written by a producer that knows the current key only. *)
Definition currentKeyRow : Row :=
  {| text := js "call Ana #work";
     attributes := <[TAGS_ATTR_NEW := MiniJSON.stringify [js "#work"]]> ∅;
     textAttributes := [] |}.

Definition legacyRow : Row :=
  {| text := js "water plants #home";
     attributes :=
       <[TAGS_ATTR_OLD := MiniJSON.stringify [js "#home"]]>
         (<[TAGS_ATTR_NEW := MiniJSON.stringify [js "#home"]]> ∅);
     textAttributes := [] |}.


(** * The commands, the sidebar and the observers

    The functions of the extension around the tag engine, and the
    reference definitions the further properties are stated with. *)

(** [lo <= start_1 <= end_1 <= start_2 <= ... <= end_n <= hi] *)
Fixpoint spansOrdered (lo hi : Z) (tokens : list TagToken) : Prop :=
  match tokens with
  | [] => (lo <= hi)%Z
  | t :: rest =>
      (lo <= start t)%Z /\ (start t <= end_ t)%Z /\ spansOrdered (end_ t) hi rest
  end.

(** [s.slice(pos, pos + g.length) === g] *)
Definition readsAt (s : jsstring) (pos : nat) (g : jsstring) : Prop :=
  take (length g) (drop pos s) = g.

(** Where the tag text of a token lies in the row text: at [start], or one
    character further when the whitespace character the match consumed was
    not skipped: it stands at index 0 or is not U+0020. *)
Definition tokenPlaced (s : jsstring) (t : TagToken) : Prop :=
  (0 <= start t)%Z /\
  (readsAt s (Z.to_nat (start t)) (tag t)
   \/ (readsAt s (S (Z.to_nat (start t))) (tag t) /\
       exists c, s !! Z.to_nat (start t) = Some c /\ isWhiteSpace c = true /\
                 (start t = 0%Z \/ c <> SPACE))).

(** The only whitespace of the text is U+0020, and the text does not begin
    with it. *)
Definition plainSpacing (s : jsstring) : Prop :=
  (forall c, c ∈ s -> isWhiteSpace c = true -> c = SPACE) /\
  (forall c, s !! 0%nat = Some c -> isWhiteSpace c = false).


(** ** The commands that run over the whole outline *)

Section OutlineCommands.
Context {other : Type} `{EqDecision other}.
Variable otherToString : other -> jsstring.
Variable JSON_parse : jsstring -> option (json other).
Variable JSON_stringify : list jsstring -> jsstring.

Definition applyTagsCommand (context : CommandContext)
  : bool * CommandContext * list EditorMutation :=
  match editor context with
  | None => (false, context, [])
  | Some ed =>
      let '(rows, log) :=
        forRows (applyTagsToRow otherToString JSON_parse JSON_stringify)
                (outline ed) in
      (true,
       {| editor := Some {| outline := rows;
                            selection := selection ed;
                            editorFilter := editorFilter ed |};
          contextTag := contextTag context |},
       log)
  end.
End OutlineCommands.

Definition clearFilterCommand (context : CommandContext)
  : bool * CommandContext * list EditorMutation :=
  match editor context with
  | None => (false, context, [])
  | Some ed =>
      let '(rows, log) := forRows removeRowFilterAttribute (outline ed) in
      (true,
       {| editor := Some {| outline := rows;
                            selection := selection ed;
                            editorFilter := [] |};
          contextTag := contextTag context |},
       log ++ [SetFilter []])
  end.

(** The two text attributes [applyTagsToRow] attaches to the span of each
    token. *)
Definition chipsOf (tokens : list TagToken) : list (string * Z * Z) :=
  flat_map
    (fun token =>
       [ ("biketag", start token, end_ token);
         ("bt-color-"
            +:+ pretty (stableIndexForTag (normalizeTag (tag token)) COLOR_COUNT),
          start token, end_ token) ])
    tokens.

(** The value of the variable [match] in the row loops of the filter. *)
Definition rowMatches {other : Type}
           (JSON_parse : jsstring -> option (json other))
           (target : jsstring) (row : Row) : bool :=
  if truthy (persistedTags row) then
    match JSON_parse (default [] (persistedTags row)) with
    | Some (JArray list) =>
        match someMatches target list with
        | Some b => b
        | None => false
        end
    | _ => false
    end
  else false.

(** The row with other attributes. *)
Definition withAttributes (row : Row) (attrs : gmap string jsstring) : Row :=
  {| text := text row; attributes := attrs; textAttributes := textAttributes row |}.

(** The row as the filter leaves it: marked with [1] under both filter
    keys, or with both keys removed. *)
Definition filteredRow (marked : bool) (row : Row) : Row :=
  withAttributes row
    (if marked
     then <[FILTER_ATTR_OLD := js "1"]> (<[FILTER_ATTR_NEW := js "1"]> (attributes row))
     else delete FILTER_ATTR_OLD (delete FILTER_ATTR_NEW (attributes row))).

(** The row carries neither filter attribute. *)
Definition unfiltered (row : Row) : Prop :=
  attributes row !! FILTER_ATTR_NEW = None /\
  attributes row !! FILTER_ATTR_OLD = None.

(** The span of the token contains the index, both ends included. *)
Definition covers (index : Z) (t : TagToken) : bool :=
  ((start t <=? index) && (index <=? end_ t))%Z.

(** The array [indexAllTags] adds to its set for a row: the parsed value
    of [data-bt-tags] when it is a non-empty text that JSON reads as an
    array. *)
Definition legacyList {other : Type}
           (JSON_parse : jsstring -> option (json other)) (row : Row)
  : option (list (jsvalue other)) :=
  let raw := attributes row !! "data-bt-tags" in
  if truthy raw then
    match JSON_parse (default [] raw) with
    | Some (JArray list) => Some list
    | _ => None
    end
  else None.

(** The value the updater reads for the row is the value of the key the
    index reads. *)
Definition keysAgree (row : Row) : Prop :=
  persistedTags row = attributes row !! TAGS_ATTR_OLD.

(** The nodes of the store whose tag is not shorter than [t]. *)
Definition nodesNotShorter (m : gmap jsstring (list jsstring)) (t : jsstring)
  : gset jsstring :=
  filter (fun k => (length t <= length k)%nat) (dom m).

(** ** The sidebar items *)

(** The class [[a-zA-Z0-9:_-]] that [sanitizeId] keeps. *)
Definition isIdChar (c : N) : bool :=
  isWordChar c || (c =? 58)%N || (c =? DASH)%N.

(** [.replace(/\//g, '--')] *)
Definition slashesToDashes (s : jsstring) : jsstring :=
  flat_map (fun c => if (c =? SLASH)%N then [DASH; DASH] else [c]) s.

(** [.replace(/[^a-zA-Z0-9:_-]/g, '-')]: the pattern has no [u] flag, so
    each code unit outside the class becomes one dash. *)
Definition stripUnsafe (s : jsstring) : jsstring :=
  map (fun c => if isIdChar c then c else DASH) s.

Definition sanitizeId (tag : jsstring) : jsstring :=
  let core :=
    match tag with
    | c :: rest => if (c =? HASH)%N then rest else tag
    | [] => tag
    end in
  js "biketags:tag:" ++ stripUnsafe (slashesToDashes core).

Definition getTagDisplayName (tag : jsstring) (level : nat) : jsstring :=
  let parts := split SLASH tag in
  let shortName := default [] (last parts) in
  if Nat.eqb level 0 then tag
  else
    let indent := concat (replicate level [SPACE; SPACE]) in
    indent ++ shortName.

(** ** The selection observer of [activate] *)









(** ** The once-guard of the sidebar setup *)

Section SetupGuard.
(** Windows, compared by identity. *)
Context {Window : Type} `{EqDecision Window}.

(** The two ways [setupTagsSidebar] is reached: through
    [setupTagsSidebarOnce], and by the command [biketags:rebuild-sidebar]
    with [bike.frontmostWindow]. *)
Inductive SetupRequest :=
| Once (window : Window)
| RebuildSidebar (frontmostWindow : option Window).

(** [setupTagsSidebarOnce(window)]: the new content of
    [_initializedWindows] and the windows [setupTagsSidebar] is called
    with.  The window is added before the call, so an exception in the
    call leaves it in the set. *)
Definition setupTagsSidebarOnce (window : Window) (initialized : list Window)
  : list Window * list Window :=
  if decide (window ∈ initialized) then (initialized, [])
  else (setAdd initialized window, [window]).

Definition handleSetupRequest (initialized : list Window)
           (request : SetupRequest) : list Window * list Window :=
  match request with
  | Once window => setupTagsSidebarOnce window initialized
  | RebuildSidebar None => (initialized, [])
  | RebuildSidebar (Some win) => (initialized, [win])
  end.

Fixpoint handleSetupRequests (initialized : list Window)
         (requests : list SetupRequest) : list Window * list Window :=
  match requests with
  | [] => (initialized, [])
  | request :: rest =>
      let '(initialized', calls) := handleSetupRequest initialized request in
      let '(initialized'', calls') := handleSetupRequests initialized' rest in
      (initialized'', calls ++ calls')
  end.

(** The windows the requests name, by the way they reach the setup. *)
Definition requestsOnce (requests : list SetupRequest) : list Window :=
  omap (fun request =>
          match request with
          | Once window => Some window
          | RebuildSidebar _ => None
          end) requests.

Definition requestsRebuild (requests : list SetupRequest) : list Window :=
  omap (fun request =>
          match request with
          | Once _ => None
          | RebuildSidebar frontmostWindow => frontmostWindow
          end) requests.

(** How many times [w] occurs in [l]. *)
Definition occurrences (w : Window) (l : list Window) : nat :=
  length (filter (fun x => x = w) l).
End SetupGuard.
Arguments SetupRequest : clear implicits.

(** ** The sidebar items of the hierarchy *)

(** The argument of [window.sidebar.addItem]: [itemAfterId] is
    [ordering.afterId], [None] in the call without [ordering];
    [itemTarget] is the tag the item's action filters by. *)
Record SidebarItem := {
  itemId : jsstring;
  itemText : jsstring;
  itemAfterId : option jsstring;
  itemTarget : jsstring
}.

Section SidebarHost.
(** The sidebar of the host: [addItem] gives the sidebar after the call
    and the handle, or no handle when the call throws. *)
Context {Sidebar Handle : Type}.
Variable addItem : Sidebar -> SidebarItem -> Sidebar * option Handle.

(** The [try] block of the loop body with its fallback: the handles
    pushed, the sidebar, and the calls of [addItem] in order. *)
Definition addOneItem (tagId displayName prevId target : jsstring)
           (sidebar : Sidebar) : list Handle * Sidebar * list SidebarItem :=
  let ordered := {| itemId := tagId; itemText := displayName;
                    itemAfterId := Some prevId; itemTarget := target |} in
  let plain := {| itemId := tagId; itemText := displayName;
                  itemAfterId := None; itemTarget := target |} in
  match addItem sidebar ordered with
  | (sidebar1, Some itemHandle) => ([itemHandle], sidebar1, [ordered])
  | (sidebar1, None) =>
      match addItem sidebar1 plain with
      | (sidebar2, Some itemHandle) => ([itemHandle], sidebar2, [ordered; plain])
      | (sidebar2, None) => ([], sidebar2, [ordered; plain])
      end
  end.

(** The [for] loop over [nodes]: [body] is one iteration, [previous] is
    [nodes[i-1].tag]; handles and calls are collected in order. *)
Fixpoint forNodes
         (body : option jsstring -> TagHierarchyNode -> Sidebar ->
                 list Handle * Sidebar * list SidebarItem)
         (previous : option jsstring) (nodes : list TagHierarchyNode)
         (sidebar : Sidebar) : list Handle * Sidebar * list SidebarItem :=
  match nodes with
  | [] => ([], sidebar, [])
  | n :: rest =>
      let '(h1, s1, c1) := body previous n sidebar in
      let '(h2, s2, c2) := forNodes body (Some (nodeTag n)) rest s1 in
      (h1 ++ h2, s2, c1 ++ c2)
  end.

(** One iteration of the loop of [addTagHierarchyToSidebar], with the
    recursive call on [node.children]. *)
Fixpoint addTagNode (afterId : option jsstring) (level : nat)
         (previous : option jsstring) (node : TagHierarchyNode)
         (sidebar : Sidebar) {struct node}
  : list Handle * Sidebar * list SidebarItem :=
  match node with
  | Node tag_ children_ =>
      let tagId := sanitizeId tag_ in
      let displayName := getTagDisplayName tag_ level in
      let prevId :=
        if truthy afterId then default [] afterId
        else match previous with
             | None => js "biketags:tags"
             | Some p => sanitizeId p
             end in
      let '(handles, sidebar1, calls) :=
        addOneItem tagId displayName prevId tag_ sidebar in
      let '(childHandles, sidebar2, childCalls) :=
        forNodes (addTagNode (Some tagId) (S level)) None children_ sidebar1 in
      (handles ++ childHandles, sidebar2, calls ++ childCalls)
  end.

Definition addTagHierarchyToSidebar (nodes : list TagHierarchyNode)
           (afterId : option jsstring) (level : nat) (sidebar : Sidebar)
  : list Handle * Sidebar * list SidebarItem :=
  forNodes (addTagNode afterId level) None nodes sidebar.
End SidebarHost.

(** The tags of a tree with the names shown for them, each node before its
    children, the children in order; [level] is the depth of the node. *)
Fixpoint preorderNames (level : nat) (node : TagHierarchyNode)
  : list (jsstring * jsstring) :=
  match node with
  | Node t cs =>
      (t, getTagDisplayName t level) :: flat_map (preorderNames (S level)) cs
  end.

(** A sidebar that takes every item; the handle is the item. *)
Definition acceptAll (sidebar : unit) (item : SidebarItem)
  : unit * option SidebarItem :=
  (sidebar, Some item).

(** The calls of [addItem] that pass an [ordering]. *)
Definition orderedCalls (calls : list SidebarItem) : list SidebarItem :=
  filter (fun item => is_Some (itemAfterId item)) calls.

(** The row with other text attributes. *)
Definition withTextAttributes (row : Row) (marks : list (string * Z * Z)) : Row :=
  {| text := text row; attributes := attributes row; textAttributes := marks |}.

(** The stored set of the row is a reordering of the derived set. *)
Definition storedSetCurrent {other : Type}
           (JSON_parse : jsstring -> option (json other)) (row : Row) : Prop :=
  exists raw existing,
    persistedTags row = Some raw /\ raw <> [] /\
    JSON_parse raw = Some (JArray (map VString existing)) /\
    Permutation existing (candidateSet (text row)).

(** The run against the host compared with the run against the sidebar
    that takes every item. *)
Definition sameRequests {Sidebar Handle : Type}
           (result : list Handle * Sidebar * list SidebarItem)
           (ideal : list SidebarItem * unit * list SidebarItem) : Prop :=
  orderedCalls result.2 = ideal.1.1 /\
  (length result.1.1 <= length ideal.1.1)%nat.

(** What the run against the accepting sidebar returns. *)
Definition idealItems (level : nat) (names : list (jsstring * jsstring))
           (result : list SidebarItem * unit * list SidebarItem) : Prop :=
  result.2 = result.1.1 /\
  map (fun item => (itemTarget item, itemText item)) result.1.1 = names /\
  Forall (fun item => itemId item = sanitizeId (itemTarget item)
                      /\ is_Some (itemAfterId item)) result.1.1.


(** A row whose stored set is the derived one, and an editor with the
    caret inside the second tag of its first row. *)
Definition storedRow : Row :=
  {| text := js "plan #work/home";
     attributes :=
       <[TAGS_ATTR_OLD := MiniJSON.stringify [js "#work"; js "#work/home"]]>
         (<[TAGS_ATTR_NEW := MiniJSON.stringify [js "#work"; js "#work/home"]]> ∅);
     textAttributes := [] |}.

Definition exampleEditor : Editor :=
  {| outline := [taggedRow; storedRow; plainRow];
     selection := Some (CaretSelection taggedRow 30);
     editorFilter := [] |}.

(** * Properties *)

(** ** Sample runs of the tokenizer, the normalizer and the hash *)

Example ex_tokens :
  findTrailingTags (js "Do something important #this #that/nested")
  = [ {| tag := js "#this"; start := 23; end_ := 28 |};
      {| tag := js "#that/nested"; start := 29; end_ := 41 |} ].
Proof. vm_compute. reflexivity. Qed.

Example ex_tokens_mid :
  findTrailingTags (js "Review the #draft document") = [].
Proof. vm_compute. reflexivity. Qed.

Example ex_tokens_adjacent : findTrailingTags (js "x #a#b") = [].
Proof. vm_compute. reflexivity. Qed.

Example ex_norm : normalizeTag (js " a//b//c ") = js "#a/b//c".
Proof. vm_compute. reflexivity. Qed.

Example ex_anc : addAncestors (js "#a/b/c") = [js "#a"; js "#a/b"; js "#a/b/c"].
Proof. vm_compute. reflexivity. Qed.

Example ex_hash : stableIndexForTag (js "#that/nested") COLOR_COUNT = 3%Z.
Proof. vm_compute. reflexivity. Qed.

(** ** The normalizer *)


(** ** The tokenizer *)

(** C4.  On the row text [ #tag] (one leading space) the tokenizer returns
    the token [#tag] with span [[0, 4)]: the separator consumed by the
    match is inside the span, and the character at [start] is the space.
    The same happens after a tab: on [a<TAB>#tag] the span starts on the
    tab. *)
Theorem findTrailingTags_span_includes_separator :
  findTrailingTags (js " #tag")
  = [ {| tag := js "#tag"; start := 0; end_ := 4 |} ] /\
  js " #tag" !! 0%nat = Some SPACE /\
  findTrailingTags (js "a" ++ [9%N] ++ js "#tag")
  = [ {| tag := js "#tag"; start := 1; end_ := 5 |} ] /\
  (js "a" ++ [9%N] ++ js "#tag") !! 1%nat = Some 9%N.
Proof. repeat split; vm_compute; reflexivity. Qed.

(** ** What holds of every token: the form of its tag, the length of its span *)

Section TokenTags.

Lemma tagChar_not_space c : isTagChar c = true -> isWhiteSpace c = false.
Proof.
  unfold isTagChar, isWordChar, isWhiteSpace, DASH. intros H.
  apply not_true_is_false. intros Hw.
  repeat rewrite ?orb_true_iff, ?andb_true_iff, ?N.leb_le, ?N.eqb_eq in H.
  repeat rewrite ?orb_true_iff, ?andb_true_iff, ?N.leb_le, ?N.eqb_eq in Hw.
  lia.
Qed.

Lemma tagChar_not_slash c : isTagChar c = true -> (c =? SLASH)%N = false.
Proof.
  unfold isTagChar, isWordChar, DASH, SLASH. intros H.
  apply N.eqb_neq. intros ->. vm_compute in H. discriminate.
Qed.

Lemma matchSegments_first r :
  matchSegments false r = true ->
  exists c r', r = c :: r' /\ isTagChar c = true.
Proof.
  destruct r as [|c r']; simpl; [discriminate|].
  destruct (isTagChar c) eqn:E; [eauto|].
  destruct (c =? SLASH)%N; discriminate.
Qed.

Lemma matchSegments_last b r :
  matchSegments b r = true ->
  match last r with
  | Some c => isTagChar c = true
  | None => b = true
  end.
Proof.
  revert b. induction r as [|c r IH]; intros b; simpl; [auto|].
  intros H.
  assert (Hr : exists b', matchSegments b' r = true /\ (b' = true -> isTagChar c = true)).
  { destruct (isTagChar c) eqn:E; [eauto|].
    destruct (c =? SLASH)%N; [|discriminate].
    apply andb_true_iff in H as [_ H]. exists false. split; [exact H | discriminate]. }
  destruct Hr as (b' & Hb' & Hc). specialize (IH b' Hb').
  destruct r as [|d r']; [simpl in *; auto|].
  rewrite last_cons_cons.
  destruct (last (d :: r')) eqn:El; [exact IH|].
  apply last_None in El. discriminate.
Qed.

Lemma matchSegments_replaceSlashRun b r :
  matchSegments b r = true -> replaceSlashRun r = r.
Proof.
  revert b. induction r as [|c r IH]; intros b; simpl; [reflexivity|].
  destruct (isTagChar c) eqn:E.
  - rewrite (tagChar_not_slash c E). intros H. rewrite (IH true H). reflexivity.
  - destruct (c =? SLASH)%N eqn:Es; [|discriminate].
    intros [_ H]%andb_true_iff. apply N.eqb_eq in Es. subst c.
    apply matchSegments_first in H as (d & r' & -> & Hd).
    simpl. rewrite (tagChar_not_slash d Hd). reflexivity.
Qed.

Lemma matchSegments_noDoubleSlash b r :
  matchSegments b r = true -> hasDoubleSlash r = false.
Proof.
  revert b. induction r as [|c r IH]; intros b; [reflexivity|].
  cbn [matchSegments]. intros H.
  assert (Hr : exists b', matchSegments b' r = true /\
                          ((c =? SLASH)%N = true -> b' = false)).
  { destruct (isTagChar c) eqn:E.
    - exists true. split; [exact H|]. rewrite (tagChar_not_slash c E). discriminate.
    - destruct (c =? SLASH)%N; [|discriminate].
      apply andb_true_iff in H as [_ H]. eauto. }
  destruct Hr as (b' & Hb' & Hc). specialize (IH b' Hb').
  destruct r as [|d r']; [reflexivity|].
  cbn [hasDoubleSlash]. cbn [hasDoubleSlash] in IH. 
  change (hasDoubleSlash (c :: d :: r'))
    with (((c =? SLASH)%N && (d =? SLASH)%N) || hasDoubleSlash (d :: r')).
  rewrite IH, orb_false_r.
  destruct (c =? SLASH)%N eqn:Es; [|reflexivity].
  rewrite (Hc eq_refl) in Hb'.
  apply matchSegments_first in Hb' as (d' & r'' & [= -> ->] & Hd).
  rewrite (tagChar_not_slash d' Hd). reflexivity.
Qed.

Lemma trimEndIndex_last s :
  match last s with
  | Some c => isWhiteSpace c = false
  | None => True
  end ->
  trimEndIndex s (length s) = length s.
Proof.
  destruct (length s) as [|k] eqn:El; [reflexivity|].
  intros H. simpl.
  assert (Hk : s !! k = last s).
  { rewrite last_lookup, El. reflexivity. }
  rewrite Hk. destruct (last s) as [c|]; [|reflexivity].
  rewrite H. reflexivity.
Qed.

(** On a string of the tag pattern [normalizeTag] changes nothing. *)
Lemma normalizeTag_tagText u :
  matchTagText u = true -> normalizeTag u = u /\ hasDoubleSlash u = false.
Proof.
  destruct u as [|c r]; simpl; [discriminate|].
  intros [Hc Hr]%andb_true_iff. apply N.eqb_eq in Hc. subst c.
  assert (Htrim : trim (HASH :: r) = HASH :: r).
  { unfold trim. change (trimStart (HASH :: r)) with (HASH :: r).
    unfold trimEnd. rewrite trimEndIndex_last; [apply firstn_all|].
    pose proof (matchSegments_last false r Hr) as Hl.
    apply matchSegments_first in Hr as (d & r' & -> & Hd).
    rewrite last_cons_cons. destruct (last (d :: r')) as [e|] eqn:E.
    - apply tagChar_not_space, Hl.
    - discriminate. }
  split.
  - unfold normalizeTag. rewrite Htrim.
    change (startsWith (HASH :: r) [HASH]) with true. cbv iota.
    change (replaceSlashRun (HASH :: r)) with (HASH :: replaceSlashRun r).
    rewrite (matchSegments_replaceSlashRun false r Hr). reflexivity.
  - pose proof (matchSegments_noDoubleSlash false r Hr) as Hd.
    apply matchSegments_first in Hr as (d & r' & -> & _).
    change (hasDoubleSlash (HASH :: d :: r'))
      with (((HASH =? SLASH)%N && (d =? SLASH)%N) || hasDoubleSlash (d :: r')).
    rewrite Hd. reflexivity.
Qed.

Lemma execFrom_tagText i rest idx g :
  execFrom i rest = Some (idx, g) -> matchTagText g = true.
Proof.
  revert i. induction rest as [|c r IH]; intros i; simpl.
  - unfold matchHere. simpl. rewrite andb_false_r. discriminate.
  - destruct (matchHere (Nat.eqb i 0) (c :: r)) as [g'|] eqn:E.
    + intros [= _ <-]. unfold matchHere in E.
      destruct (Nat.eqb i 0 && matchTagText (c :: r)) eqn:E1.
      * injection E as <-. apply andb_true_iff in E1. tauto.
      * destruct (isWhiteSpace c && matchTagText r) eqn:E2; [|discriminate].
        injection E as <-. apply andb_true_iff in E2. tauto.
    + apply IH.
Qed.

Lemma scanTail_tagText tail_ tokens :
  Forall (fun t => matchTagText (tag t) = true) tokens ->
  Forall (fun t => matchTagText (tag t) = true) (scanTail tail_ tokens).
Proof.
  funelim (scanTail tail_ tokens); intros Htok; [|exact Htok].
  match goal with IH : Forall _ _ -> Forall _ _ |- _ => apply IH end.
  constructor; [|exact Htok].
  simpl. eapply execFrom_tagText. exact Hm.
Qed.

(** Every tag the tokenizer returns has the form of the tag pattern, so
    [normalizeTag] returns it unchanged and it holds no two slashes in a
    row. *)
Lemma findTrailingTags_normal s t :
  t ∈ findTrailingTags s ->
  normalizeTag (tag t) = tag t /\ hasDoubleSlash (tag t) = false.
Proof.
  intros Hin. apply normalizeTag_tagText.
  pose proof (scanTail_tagText (take (trimEndIndex s (length s)) s) []
                (Forall_nil_2 _)) as H.
  rewrite Forall_forall in H. apply H, Hin.
Qed.

Lemma scanTail_span_length tail_ tokens :
  Forall (fun t => (end_ t - start t)%Z = Z.of_nat (length (tag t))) tokens ->
  Forall (fun t => (end_ t - start t)%Z = Z.of_nat (length (tag t)))
         (scanTail tail_ tokens).
Proof.
  funelim (scanTail tail_ tokens); intros Htok; [|exact Htok].
  match goal with IH : Forall _ _ -> Forall _ _ |- _ => apply IH end.
  constructor; [|exact Htok].
  unfold tokenOfMatch. simpl. lia.
Qed.

(** The span of every token is as long as its tag text. *)
Lemma findTrailingTags_span_length s t :
  t ∈ findTrailingTags s ->
  (end_ t - start t)%Z = Z.of_nat (length (tag t)).
Proof.
  intros Hin.
  pose proof (scanTail_span_length (take (trimEndIndex s (length s)) s) []
                (Forall_nil_2 _)) as H.
  rewrite Forall_forall in H. apply H, Hin.
Qed.

End TokenTags.

(** ** The color index *)

Section ColorIndex.
Local Open Scope Z_scope.

(** [ToInt32] is the truncation to a signed 32-bit number. *)
Lemma ToInt32_truncate x : ToInt32 x = truncateSigned32 x.
Proof.
  unfold ToInt32, truncateSigned32.
  pose proof (Z.mod_pos_bound x (2 ^ 32) eq_refl) as Hx.
  pose proof (Z.mod_pos_bound (x + 2 ^ 31) (2 ^ 32) eq_refl) as Hy.
  pose proof (Z.div_mod x (2 ^ 32) ltac:(discriminate)) as Dx.
  pose proof (Z.div_mod (x + 2 ^ 31) (2 ^ 32) ltac:(discriminate)) as Dy.
  destruct (Z.ltb_spec (x mod 2 ^ 32) (2 ^ 31)); lia.
Qed.

Lemma truncateSigned32_congr a b k :
  a = b + k * 2 ^ 32 -> truncateSigned32 a = truncateSigned32 b.
Proof.
  intros ->. unfold truncateSigned32. rewrite Z.mod_add by discriminate.
  reflexivity.
Qed.

Lemma truncateSigned32_wraps x : exists k, truncateSigned32 x = x + k * 2 ^ 32.
Proof.
  unfold truncateSigned32.
  pose proof (Z.div_mod x (2 ^ 32) ltac:(discriminate)).
  destruct (x mod 2 ^ 32 <? 2 ^ 31).
  - exists (- (x / 2 ^ 32)). lia.
  - exists (- (x / 2 ^ 32) - 1). lia.
Qed.

Lemma ToInt32_0 : ToInt32 0 = 0.
Proof. vm_compute. reflexivity. Qed.

Lemma land_5_31 : Z.land 5 31 = 5.
Proof. vm_compute. reflexivity. Qed.

(** One round of the loop of [stableIndexForTag] is one round of the
    reference hash. *)
Lemma hash_step hash c :
  bitOr (shl hash 5 + hash + c) 0 = truncateSigned32 (hash * 33 + c).
Proof.
  unfold bitOr, shl.
  rewrite ToInt32_0, Z.lor_0_r, land_5_31, Z.shiftl_mul_pow2 by lia.
  rewrite !ToInt32_truncate.
  destruct (truncateSigned32_wraps hash) as [k1 ->].
  destruct (truncateSigned32_wraps ((hash + k1 * 2 ^ 32) * 2 ^ 5)) as [k2 ->].
  destruct (truncateSigned32_wraps
              ((hash + k1 * 2 ^ 32) * 2 ^ 5 + k2 * 2 ^ 32 + hash + c))
    as [k3 ->].
  apply (truncateSigned32_congr _ _ (k1 * 2 ^ 5 + k2 + k3)).
  lia.
Qed.

Lemma fold_left_ext {A B : Type} (f g : A -> B -> A) (l : list B) (a : A) :
  (forall a b, f a b = g a b) -> fold_left f l a = fold_left g l a.
Proof.
  intros Hfg. revert a. induction l as [|b l IH]; intros a; simpl.
  - reflexivity.
  - rewrite Hfg. apply IH.
Qed.

Lemma hash_loop tagText hash :
  fold_left
    (fun hash c =>
       let hash := shl hash 5 + hash + Z.of_N c in bitOr hash 0)
    tagText hash
  = fold_left (fun hash c => truncateSigned32 (hash * 33 + Z.of_N c))
              tagText hash.
Proof. apply fold_left_ext. intros a b. apply hash_step. Qed.

(** C7.  [stableIndexForTag] with the palette size 8 is a function of the
    tag text alone, its value lies in [[0, 8)], and it is the reference
    hash: seed 5381, [hash * 33 + charCode] per character truncated to a
    signed 32-bit accumulator, folded to non-negative and reduced modulo
    the palette size. *)
Theorem stableIndexForTag_is_colorSlot (tagText : jsstring) :
  0 <= stableIndexForTag tagText COLOR_COUNT < COLOR_COUNT /\
  COLOR_COUNT = 8 /\
  stableIndexForTag tagText COLOR_COUNT = colorSlot tagText COLOR_COUNT.
Proof.
  assert (E : stableIndexForTag tagText COLOR_COUNT
              = colorSlot tagText COLOR_COUNT).
  { unfold stableIndexForTag, colorSlot, djb2.
    rewrite hash_loop. apply Z.rem_mod_nonneg.
    - apply Z.abs_nonneg.
    - reflexivity. }
  split; [|split; [reflexivity | exact E]].
  rewrite E. unfold colorSlot. apply Z.mod_pos_bound. reflexivity.
Qed.
End ColorIndex.

(** ** The ancestor expander *)

Section Ancestors.
Lemma split_not_nil sep s : split sep s <> [].
Proof.
  destruct s as [|c r]; simpl; [discriminate|].
  destruct (c =? sep)%N; [discriminate|].
  destruct (split sep r); discriminate.
Qed.

(** The loop of [addAncestors] over the parts of [s], without the leading
    [#]: every prefix that ends before a slash, then [s] itself. *)
Lemma joined_prefixes s :
  map (fun i => join SLASH (take i (split SLASH s)))
      (seq 1 (length (split SLASH s)))
  = prefixesBeforeSlash s ++ [s].
Proof.
  induction s as [|c r IH]; simpl; [reflexivity|].
  pose proof (split_not_nil SLASH r) as Hne.
  destruct (N.eqb_spec c SLASH) as [->|Hc]; simpl.
  - f_equal. change [SLASH :: r] with (map (cons SLASH) [r]).
    rewrite <- map_app, <- IH, map_map, <- seq_shift, map_map.
    apply map_ext_in. intros i Hi. apply in_seq in Hi.
    destruct i as [|j]; [lia|]. simpl.
    destruct (split SLASH r) as [|p ps]; [congruence|]. reflexivity.
  - destruct (split SLASH r) as [|p ps] eqn:E; [congruence|].
    simpl length. simpl in IH.
    change [c :: r] with (map (cons c) [r]).
    rewrite <- map_app, <- IH. simpl. f_equal.
    rewrite !map_map. apply map_ext_in. intros i Hi. apply in_seq in Hi.
    destruct i as [|j]; [lia|]. simpl.
    destruct (take j ps); reflexivity.
Qed.

Lemma addAncestors_hash rest :
  addAncestors (HASH :: rest)
  = prefixesBeforeSlash (HASH :: rest) ++ [HASH :: rest].
Proof.
  unfold addAncestors. simpl drop.
  change (prefixesBeforeSlash (HASH :: rest))
    with (map (cons HASH) (prefixesBeforeSlash rest)).
  change [HASH :: rest] with (map (cons HASH) [rest]).
  rewrite <- map_app, <- joined_prefixes, map_map. reflexivity.
Qed.

Lemma startsWith_hash t :
  startsWith t [HASH] = true -> exists rest, t = HASH :: rest.
Proof.
  destruct t as [|x t']; simpl; [discriminate|].
  rewrite andb_true_r. intros E%N.eqb_eq. subst. eauto.
Qed.

Lemma normalizeTag_hash t : exists rest, normalizeTag t = HASH :: rest.
Proof.
  unfold normalizeTag.
  destruct (startsWith (trim t) [HASH]) eqn:E.
  - apply startsWith_hash in E as [rest ->]. simpl. eauto.
  - simpl. eauto.
Qed.

Lemma prefixesBeforeSlash_spec s p :
  p ∈ prefixesBeforeSlash s <-> exists r, s = p ++ SLASH :: r.
Proof.
  revert p. induction s as [|c r IH]; intros p; simpl.
  - split; [intros H%elem_of_nil; contradiction|].
    intros [r' E]. destruct p; discriminate.
  - assert (Hmap : p ∈ map (cons c) (prefixesBeforeSlash r)
                   <-> exists r', c :: r = p ++ SLASH :: r' /\ p <> []).
    { rewrite list_elem_of_In, in_map_iff. split.
      - intros (q & <- & Hq). apply list_elem_of_In, IH in Hq as [r' ->].
        exists r'. split; [reflexivity | discriminate].
      - intros (r' & E & Hp). destruct p as [|x q]; [congruence|].
        injection E as -> E. exists q. split; [reflexivity|].
        apply list_elem_of_In, IH. eauto. }
    destruct (N.eqb_spec c SLASH) as [->|Hc].
    + rewrite elem_of_cons, Hmap. split.
      * intros [->|(r' & E & _)]; eauto.
      * intros [r' E]. destruct p as [|x q]; [left; reflexivity|].
        right. exists r'. split; [exact E | discriminate].
    + rewrite Hmap. split.
      * intros (r' & E & _). eauto.
      * intros [r' E]. exists r'. split; [exact E|].
        intros ->. simpl in E. congruence.
Qed.

Lemma prefixes_then_self_sorted s :
  StronglySorted (fun a b => (length a < length b)%nat)
                 (prefixesBeforeSlash s ++ [s]).
Proof.
  induction s as [|c r IH]; simpl.
  - repeat constructor.
  - assert (Hmap : StronglySorted (fun a b => (length a < length b)%nat)
                     (map (cons c) (prefixesBeforeSlash r ++ [r]))).
    { revert IH. generalize (prefixesBeforeSlash r ++ [r]).
      induction 1 as [|x l Hl IHl Hx]; simpl; constructor; [exact IHl|].
      rewrite Forall_map. eapply Forall_impl; [exact Hx|].
      simpl. intros; lia. }
    rewrite map_app in Hmap. simpl in Hmap.
    destruct (c =? SLASH)%N; [|exact Hmap].
    simpl. constructor; [exact Hmap|].
    rewrite Forall_app, Forall_map. split.
    + apply Forall_forall. intros; simpl; lia.
    + apply Forall_cons; split; [simpl; lia | apply Forall_nil; exact I].
Qed.

Lemma indexOfFrom_bounds c s i :
  indexOfFrom c s i = (-1)%Z \/ (i <= indexOfFrom c s i)%Z.
Proof.
  revert i. induction s as [|x r IH]; intros i; simpl; [auto|].
  destruct (x =? c)%N; [right; lia|].
  destruct (IH (i + 1)%Z); [auto | right; lia].
Qed.

Lemma no_slash_no_prefixes s i :
  (0 <= i)%Z -> indexOfFrom SLASH s i = (-1)%Z -> prefixesBeforeSlash s = [].
Proof.
  revert i. induction s as [|c r IH]; intros i Hi; simpl; [reflexivity|].
  destruct (c =? SLASH)%N; [lia|].
  intros E. rewrite (IH (i + 1)%Z); [reflexivity | lia | exact E].
Qed.

(** C8.  For every raw tag [t], [addAncestors (normalizeTag t)] lists the
    proper prefix paths of [normalizeTag t] (the prefixes that end just
    before a slash), each exactly once and from the shortest to the
    longest, and then [normalizeTag t] itself as its last element; a tag
    without a slash expands to itself only. *)
Theorem addAncestors_normalizeTag (t : jsstring) :
  let full := normalizeTag t in
  addAncestors full = prefixesBeforeSlash full ++ [full] /\
  last (addAncestors full) = Some full /\
  (forall p, p ∈ prefixesBeforeSlash full
             <-> exists r, full = p ++ SLASH :: r) /\
  StronglySorted (fun a b => (length a < length b)%nat)
                 (addAncestors full) /\
  (indexOf SLASH full = (-1)%Z -> addAncestors full = [full]).
Proof.
  intros full. destruct (normalizeTag_hash t) as [rest E].
  fold full in E.
  assert (HA : addAncestors full = prefixesBeforeSlash full ++ [full]).
  { rewrite E. apply addAncestors_hash. }
  split; [exact HA|]. rewrite HA.
  split; [apply last_snoc|].
  split; [intros p; apply prefixesBeforeSlash_spec|].
  split; [apply prefixes_then_self_sorted|].
  intros Hi. unfold indexOf in Hi.
  rewrite (no_slash_no_prefixes full 0); [reflexivity | lia | exact Hi].
Qed.
End Ancestors.

Lemma addAncestors_normalizeTag_witness :
  addAncestors (normalizeTag (js "inbox")) = [normalizeTag (js "inbox")].
Proof.
  apply (addAncestors_normalizeTag (js "inbox")).
  vm_compute. reflexivity.
Defined.

(** ** Sorting *)

Section Sorting.
Context {A : Type} (compareFn : A -> A -> Z).

Lemma sortBy_inOrder_id l : inOrder compareFn l = true -> sortBy compareFn l = l.
Proof.
  induction l as [|x l IH]; [reflexivity|].
  intros Hl.
  change (sortBy compareFn (x :: l))
    with (sortInsert compareFn x (sortBy compareFn l)).
  destruct l as [|y l']; [reflexivity|].
  apply andb_true_iff in Hl as [Hxy Hl].
  rewrite (IH Hl). simpl. rewrite Hxy. reflexivity.
Qed.

Hypothesis compare_flip :
  forall x y, (0 < compareFn x y)%Z -> (compareFn y x <= 0)%Z.

Lemma sortInsert_inOrder x l :
  inOrder compareFn l = true -> inOrder compareFn (sortInsert compareFn x l) = true.
Proof.
  induction l as [|y l IH]; simpl; [reflexivity|].
  intros Hl.
  destruct (Z.leb_spec (compareFn x y) 0) as [Hxy|Hxy].
  - change (((compareFn x y <=? 0)%Z && inOrder compareFn (y :: l)) = true).
    apply andb_true_iff. split; [apply Z.leb_le; exact Hxy | exact Hl].
  - assert (Hl' : inOrder compareFn l = true).
    { destruct l; [reflexivity|]. apply andb_true_iff in Hl. tauto. }
    specialize (IH Hl').
    destruct l as [|z l']; simpl.
    + rewrite andb_true_r. apply Z.leb_le, compare_flip, Hxy.
    + simpl in IH. apply andb_true_iff in Hl as [Hyz _].
      destruct (compareFn x z <=? 0)%Z.
      * apply andb_true_iff. split; [|exact IH].
        apply Z.leb_le, compare_flip, Hxy.
      * apply andb_true_iff. split; [exact Hyz | exact IH].
Qed.

Lemma sortBy_inOrder l : inOrder compareFn (sortBy compareFn l) = true.
Proof.
  induction l as [|x l IH]; simpl; [reflexivity|].
  apply sortInsert_inOrder, IH.
Qed.

Lemma sortBy_idempotent l :
  sortBy compareFn (sortBy compareFn l) = sortBy compareFn l.
Proof. apply sortBy_inOrder_id, sortBy_inOrder. Qed.
End Sorting.

Lemma defaultCompare_flip x y :
  (0 < defaultCompare x y)%Z -> (defaultCompare y x <= 0)%Z.
Proof.
  unfold defaultCompare.
  destruct (jsLtb x y); [lia|].
  destruct (jsLtb y x); lia.
Qed.

Lemma sort_idempotent l : sort (sort l) = sort l.
Proof. apply sortBy_idempotent, defaultCompare_flip. Qed.

Lemma jsEqb_eq a b : jsEqb a b = true <-> a = b.
Proof.
  revert b. induction a as [|x a IH]; intros [|y b]; simpl;
    try (split; [discriminate | congruence]); [tauto|].
  rewrite andb_true_iff, N.eqb_eq, IH. split; [intros [-> ->] | intros [= -> ->]]; auto.
Qed.

Lemma jsEqb_refl a : jsEqb a a = true.
Proof. apply jsEqb_eq. reflexivity. Qed.

(** ** The change-gated updater *)

Section Updater.
Context {other : Type} `{EqDecision other}.
Variable otherToString : other -> jsstring.
Variable JSON_parse : jsstring -> option (json other).
Variable JSON_stringify : list jsstring -> jsstring.

Local Abbreviation applyTags :=
  (applyTagsToRow otherToString JSON_parse JSON_stringify).
Local Abbreviation existingEq := (existingEquals otherToString JSON_parse).

Lemma getRowTagsAttribute_run row :
  getRowTagsAttribute row = (persistedTags row, row, []).
Proof.
  unfold getRowTagsAttribute, persistedTags, mbind, RowM_bind, getAttribute.
  destruct (attributes row !! TAGS_ATTR_NEW); reflexivity.
Qed.

Lemma marksOnly_bind {A B : Type} (m : RowM A) (f : A -> RowM B) :
  marksOnly m -> (forall x, marksOnly (f x)) -> marksOnly (m ≫= f).
Proof.
  intros Hm Hf row. unfold mbind, RowM_bind.
  specialize (Hm row). destruct (m row) as [[x row1] log1].
  specialize (Hf x row1). destruct (f x row1) as [[y row2] log2].
  simpl in *. destruct Hm, Hf. split; congruence.
Qed.

Lemma marksOnly_forEach {A : Type} (body : A -> RowM unit) l :
  (forall x, marksOnly (body x)) -> marksOnly (forEach body l).
Proof.
  intros Hb. induction l as [|x l IH]; simpl.
  - intros row. split; reflexivity.
  - apply marksOnly_bind; [apply Hb | intros _; exact IH].
Qed.

Lemma marksOnly_add name s e : marksOnly (textAddAttribute name s e).
Proof. intros row. split; reflexivity. Qed.

Lemma marksOnly_remove name : marksOnly (textRemoveAttribute name).
Proof. intros row. split; reflexivity. Qed.

Lemma marksOnly_rewriteMarkers tokens : marksOnly (rewriteMarkers tokens).
Proof.
  unfold rewriteMarkers.
  apply marksOnly_bind; [apply marksOnly_remove | intros _].
  apply marksOnly_bind; [|intros _].
  - apply marksOnly_forEach. intros i. apply marksOnly_remove.
  - apply marksOnly_forEach. intros t.
    apply marksOnly_bind; [apply marksOnly_add | intros _].
    apply marksOnly_add.
Qed.

(** [applyTagsToRow], one case at a time. *)
Lemma applyTags_no_tokens row :
  findTrailingTags (text row) = [] ->
  applyTags row
  = if truthy (persistedTags row) then removeRowTagsAttribute row
    else (tt, row, []).
Proof.
  intros E. unfold applyTagsToRow, mbind at 1, RowM_bind at 1, getText.
  rewrite E. simpl. unfold mbind, RowM_bind.
  rewrite getRowTagsAttribute_run.
  destruct (truthy (persistedTags row)); [|reflexivity].
  reflexivity.
Qed.

Lemma applyTags_tokens row :
  findTrailingTags (text row) <> [] ->
  applyTags row
  = if truthy (persistedTags row)
       && existingEq (default [] (persistedTags row))
                     (candidateSet (text row))
    then (tt, row, [])
    else (rewriteMarkers (findTrailingTags (text row));;
          setRowTagsAttribute (JSON_stringify (candidateSet (text row)))) row.
Proof.
  intros E. unfold applyTagsToRow, mbind at 1, RowM_bind at 1, getText.
  destruct (findTrailingTags (text row)) as [|t ts] eqn:Et; [congruence|].
  cbn [length Nat.eqb].
  unfold mbind at 1, RowM_bind at 1. rewrite getRowTagsAttribute_run.
  unfold candidateSet. rewrite Et.
  destruct (truthy (persistedTags row)
            && existingEq (default [] (persistedTags row))
                          (sort (tagPathsOf (t :: ts)))).
  - reflexivity.
  - unfold rewriteMarkers, mbind, RowM_bind.
    destruct (textRemoveAttribute "biketag" row) as [[u1 r1] l1].
    destruct (forEach _ _ r1) as [[u2 r2] l2].
    destruct (forEach _ _ r2) as [[u3 r3] l3].
    destruct (setRowTagsAttribute _ r3) as [[u4 r4] l4].
    simpl. rewrite <- !app_assoc. reflexivity.
Qed.

Lemma sortInsert_VString x l :
  sortInsert (fun a b => defaultCompare (valueToString otherToString a)
                                        (valueToString otherToString b))
             (VString x) (map VString l)
  = map VString (sortInsert defaultCompare x l).
Proof.
  induction l as [|y l IH]; simpl; [reflexivity|].
  destruct (defaultCompare x y <=? 0)%Z; simpl; [reflexivity|].
  rewrite IH. reflexivity.
Qed.

Lemma sortBy_VString l :
  sortBy (fun a b => defaultCompare (valueToString otherToString a)
                                    (valueToString otherToString b))
         (map VString l)
  = map VString (sort l).
Proof.
  induction l as [|x l IH]; [reflexivity|].
  unfold sort, sortBy in *. cbn [map foldr]. rewrite IH.
  apply sortInsert_VString.
Qed.

Lemma arraysEqual_VString (l : list jsstring) :
  arraysEqual (map (@VString other) l) l = true.
Proof.
  unfold arraysEqual. rewrite length_map, Nat.eqb_refl. simpl.
  induction l as [|x l IH]; simpl; [reflexivity|].
  rewrite jsEqb_refl. simpl. exact IH.
Qed.

(** A stored array of strings compares equal as soon as it sorts to
    the candidate set. *)
Lemma existingEquals_strings raw existing newSet :
  JSON_parse raw = Some (JArray (map VString existing)) ->
  sort existing = newSet ->
  existingEq raw newSet = true.
Proof.
  intros Hp Hs. unfold existingEquals. rewrite Hp, sortBy_VString, Hs.
  apply arraysEqual_VString.
Qed.

(** What the branch for a row without trailing tag does: when the value
    read for the persisted tag set is a non-empty string, the two calls of
    [removeRowTagsAttribute] and nothing else; otherwise nothing. *)
Lemma applyTagsToRow_no_trailing_tags (row : Row) :
  findTrailingTags (text row) = [] ->
  (truthy (persistedTags row) = true ->
     mutationsOf applyTags row
     = [RemoveAttribute TAGS_ATTR_NEW; RemoveAttribute TAGS_ATTR_OLD] /\
     rowAfter applyTags row
     = {| text := text row;
          attributes :=
            delete TAGS_ATTR_OLD (delete TAGS_ATTR_NEW (attributes row));
          textAttributes := textAttributes row |}) /\
  (truthy (persistedTags row) = false ->
     mutationsOf applyTags row = [] /\ rowAfter applyTags row = row).
Proof.
  intros E. unfold mutationsOf, rowAfter.
  rewrite (applyTags_no_tokens row E).
  split; intros ->; split; reflexivity.
Qed.

Lemma stringify_truthy l :
  JSON_roundtrip JSON_parse JSON_stringify ->
  JSON_rejects_empty JSON_parse ->
  truthy (Some (JSON_stringify l)) = true.
Proof.
  intros Hrt Hne. specialize (Hrt l).
  destruct (JSON_stringify l); [congruence | reflexivity].
Qed.

(** C6.  With a JSON that reads back the arrays it writes, a second run
    of the updater on the row the first run left makes no mutating call
    and leaves that row as it is, whatever the text and the attributes of
    the row were; and on a row with trailing tags whose persisted array
    of strings sorts to the candidate set, the updater makes no mutating
    call. *)
Theorem applyTagsToRow_idempotent (row : Row) :
  JSON_roundtrip JSON_parse JSON_stringify ->
  JSON_rejects_empty JSON_parse ->
  let row1 := rowAfter applyTags row in
  (mutationsOf applyTags row1 = [] /\ rowAfter applyTags row1 = row1) /\
  (forall raw existing,
      findTrailingTags (text row) <> [] ->
      persistedTags row = Some raw -> truthy (Some raw) = true ->
      JSON_parse raw = Some (JArray (map VString existing)) ->
      sort existing = candidateSet (text row) ->
      mutationsOf applyTags row = [] /\ rowAfter applyTags row = row).
Proof.
  intros Hrt Hne row1. split.
  - subst row1. unfold mutationsOf, rowAfter.
    destruct (findTrailingTags (text row)) as [|t ts] eqn:Et.
    + (* no trailing tag *)
      rewrite (applyTags_no_tokens row Et).
      destruct (truthy (persistedTags row)) eqn:Ep.
      * simpl.
        rewrite applyTags_no_tokens by exact Et.
        unfold persistedTags. simpl.
        rewrite lookup_delete_ne by discriminate.
        rewrite lookup_delete_eq, lookup_delete_eq. simpl.
        split; reflexivity.
      * simpl. rewrite (applyTags_no_tokens row Et), Ep.
        split; reflexivity.
    + (* trailing tags *)
      assert (Hts : findTrailingTags (text row) <> []) by (rewrite Et; discriminate).
      rewrite (applyTags_tokens row Hts).
      destruct (truthy (persistedTags row) && _) eqn:Eg.
      * simpl. rewrite (applyTags_tokens row Hts), Eg. split; reflexivity.
      * unfold mbind, RowM_bind.
        pose proof (marksOnly_rewriteMarkers (findTrailingTags (text row)) row)
          as [Htext Hattrs].
        destruct (rewriteMarkers (findTrailingTags (text row)) row)
          as [[u r1] l1]. simpl in Htext, Hattrs.
        set (v := JSON_stringify (candidateSet (text row))).
        simpl.
        match goal with |- context [applyTags ?r] => set (row2 := r) end.
        assert (Ht2 : text row2 = text row) by exact Htext.
        assert (Hts2 : findTrailingTags (text row2) <> []) by (rewrite Ht2; exact Hts).
        assert (Hp2 : persistedTags row2 = Some v).
        { unfold persistedTags, row2. simpl.
          rewrite lookup_insert_ne by discriminate.
          rewrite lookup_insert_eq. reflexivity. }
        rewrite (applyTags_tokens row2 Hts2), Hp2, Ht2.
        assert (Hv : truthy (Some v) = true)
          by apply (stringify_truthy _ Hrt Hne).
        rewrite Hv. simpl.
        rewrite (existingEquals_strings v (candidateSet (text row))
                   (candidateSet (text row))).
        -- split; reflexivity.
        -- apply Hrt.
        -- apply sort_idempotent.
  - intros raw existing Hts Hp Ht Hparse Hsort.
    unfold mutationsOf, rowAfter.
    rewrite (applyTags_tokens row Hts), Hp, Ht. simpl.
    rewrite (existingEquals_strings raw existing _ Hparse Hsort).
    split; reflexivity.
Qed.
End Updater.

(** ** The concrete JSON codec reads back what it writes *)

Module MiniJSONFacts.
Import MiniJSON.

Lemma parseBody_quoteBody s rest :
  parseBody (quoteBody s ++ QUOTE :: rest) = Some (s, rest).
Proof.
  induction s as [|c r IH]; simpl; [reflexivity|].
  destruct (c =? QUOTE)%N eqn:Eq; simpl.
  - rewrite IH. reflexivity.
  - destruct (c =? BACKSLASH)%N eqn:Eb; simpl.
    + rewrite IH. reflexivity.
    + rewrite Eq, Eb, IH. reflexivity.
Qed.

Lemma parseElems_stringifyElems l fuel :
  l <> [] -> (length l <= fuel)%nat ->
  parseElems fuel (stringifyElems l ++ [RBRACKET]) = Some l.
Proof.
  revert fuel. induction l as [|s r IH]; intros fuel Hne Hf; [congruence|].
  destruct fuel as [|k]; [simpl in Hf; lia|].
  destruct r as [|s' r'].
  - simpl. rewrite <- app_assoc. simpl.
    rewrite parseBody_quoteBody. reflexivity.
  - change (stringifyElems (s :: s' :: r'))
      with (quote s ++ COMMA :: stringifyElems (s' :: r')).
    assert (Hk : (length (s' :: r') <= k)%nat) by (simpl in *; lia).
    specialize (IH k ltac:(discriminate) Hk).
    remember (stringifyElems (s' :: r')) as elems eqn:Ee. clear Ee.
    unfold quote. simpl. rewrite <- !app_assoc. simpl.
    rewrite parseBody_quoteBody. simpl. rewrite IH. reflexivity.
Qed.

Lemma stringifyElems_length l : (length l <= length (stringifyElems l))%nat.
Proof.
  induction l as [|s r IH]; simpl; [lia|].
  destruct r as [|s' r'].
  - unfold quote. simpl. lia.
  - unfold quote. simpl. rewrite !length_app. simpl in *. lia.
Qed.

Lemma parse_stringify l : parse (stringify l) = Some (JArray (map VString l)).
Proof.
  destruct l as [|s r]; [reflexivity|].
  unfold stringify, parse.
  change ((LBRACKET =? LBRACKET)%N) with true. cbv iota.
  pose proof (parseElems_stringifyElems (s :: r)
                (length (stringifyElems (s :: r) ++ [RBRACKET]))) as Hp.
  rewrite Hp.
  - destruct (stringifyElems (s :: r) ++ [RBRACKET]) as [|d [|d' t]] eqn:E;
      try reflexivity.
    exfalso. apply (f_equal length) in E. rewrite length_app in E.
    pose proof (stringifyElems_length (s :: r)). simpl in *. lia.
  - discriminate.
  - rewrite length_app. pose proof (stringifyElems_length (s :: r)). lia.
Qed.

Lemma parse_empty : parse [] = None.
Proof. reflexivity. Qed.
End MiniJSONFacts.

(** ** The updater on concrete rows *)

Example ex_applyTags_first :
  mutationsOf applyTagsMini taggedRow
  = [ TextRemoveAttribute "biketag";
      TextRemoveAttribute "bt-color-0"; TextRemoveAttribute "bt-color-1";
      TextRemoveAttribute "bt-color-2"; TextRemoveAttribute "bt-color-3";
      TextRemoveAttribute "bt-color-4"; TextRemoveAttribute "bt-color-5";
      TextRemoveAttribute "bt-color-6"; TextRemoveAttribute "bt-color-7";
      TextAddAttribute "biketag" 23 28; TextAddAttribute "bt-color-0" 23 28;
      TextAddAttribute "biketag" 29 41; TextAddAttribute "bt-color-3" 29 41;
      SetAttribute "bt-tags"
        (MiniJSON.stringify [js "#that"; js "#that/nested"; js "#this"]);
      SetAttribute "data-bt-tags"
        (MiniJSON.stringify [js "#that"; js "#that/nested"; js "#this"]) ].
Proof. vm_compute. reflexivity. Qed.

(** C3.  [staleRow] is the row the updater itself leaves on the text
    [see #draft], with the text then extended after the tag.  It has no
    trailing tag and carries the persisted tag set under both keys.  The
    updater removes the two attributes and makes no other call: the
    [biketag] and [bt-color-1] markers are still on the text afterwards,
    so the tag set and the markers are not both cleared. *)
Theorem applyTagsToRow_empty_branch_keeps_chips :
  rowAfter applyTagsMini draftRow
  = {| text := js "see #draft";
       attributes := attributes staleRow;
       textAttributes := textAttributes staleRow |} /\
  findTrailingTags (text staleRow) = [] /\
  persistedTags staleRow = Some (MiniJSON.stringify [js "#draft"]) /\
  mutationsOf applyTagsMini staleRow
  = [RemoveAttribute TAGS_ATTR_NEW; RemoveAttribute TAGS_ATTR_OLD] /\
  textAttributes (rowAfter applyTagsMini staleRow)
  = [("biketag", 4, 10); ("bt-color-1", 4, 10)]%Z /\
  ~ tagsAndMarkersCleared (rowAfter applyTagsMini staleRow).
Proof.
  split; [vm_compute; reflexivity|].
  split; [vm_compute; reflexivity|].
  split; [vm_compute; reflexivity|].
  split; [vm_compute; reflexivity|].
  split; [vm_compute; reflexivity|].
  intros (_ & _ & H).
  specialize (H ("biketag", 4, 10)%Z).
  assert (Hin : ("biketag", 4, 10)%Z
                ∈ textAttributes (rowAfter applyTagsMini staleRow)).
  { vm_compute. apply list_elem_of_here. }
  apply H in Hin. vm_compute in Hin. discriminate.
Qed.

Lemma applyTagsToRow_idempotent_witness :
  let row1 := rowAfter applyTagsMini taggedRow in
  mutationsOf applyTagsMini row1 = [] /\ rowAfter applyTagsMini row1 = row1.
Proof.
  exact (proj1 (applyTagsToRow_idempotent
                  MiniJSON.otherToString MiniJSON.parse MiniJSON.stringify
                  taggedRow MiniJSONFacts.parse_stringify
                  MiniJSONFacts.parse_empty)).
Defined.

(** ** The filter *)

Section Filter.
Context {other : Type} `{EqDecision other}.
Variable JSON_parse : jsstring -> option (json other).

Lemma startsWith_spec t p : startsWith t p = true <-> exists rest, t = p ++ rest.
Proof.
  revert t. induction p as [|y p IH]; intros t; simpl.
  - split; eauto.
  - destruct t as [|x t].
    + split; [discriminate | intros [rest E]; discriminate].
    + rewrite andb_true_iff, N.eqb_eq, IH. split.
      * intros [-> [rest ->]]. eauto.
      * intros [rest [= -> ->]]. eauto.
Qed.

Lemma someMatches_strings target (tags : list jsstring) :
  someMatches target (map (@VString other) tags)
  = Some (existsb (fun t => jsEqb t target || startsWith t (target ++ [SLASH]))
                  tags).
Proof.
  induction tags as [|t tags IH]; simpl; [reflexivity|].
  destruct (jsEqb t target || startsWith t (target ++ [SLASH])); simpl;
    [reflexivity | exact IH].
Qed.

Lemma someMatches_matches target (tags : list jsstring) :
  someMatches target (map (@VString other) tags) = Some true
  <-> matches tags target.
Proof.
  rewrite someMatches_strings. unfold matches. split.
  - intros [= Hex]. apply existsb_exists in Hex as (t & Hin & Ht).
    apply list_elem_of_In in Hin.
    apply orb_true_iff in Ht as [Ht|Ht].
    + apply jsEqb_eq in Ht. subst. left. exact Hin.
    + apply startsWith_spec in Ht as [rest ->].
      right. eexists. split; [exact Hin|]. exists rest.
      rewrite <- app_assoc. reflexivity.
  - intros Hm. f_equal. apply existsb_exists.
    destruct Hm as [Hin | (t & Hin & rest & ->)].
    + exists target. split; [apply list_elem_of_In, Hin|].
      rewrite jsEqb_refl. reflexivity.
    + eexists. split; [apply list_elem_of_In, Hin|].
      apply orb_true_iff. right. apply startsWith_spec. exists rest.
      rewrite <- app_assoc. reflexivity.
Qed.

Lemma filterRow_same target row :
  filterRowCommand JSON_parse target row = filterRowSidebar JSON_parse target row.
Proof. reflexivity. Qed.

Lemma forRowsFrom_ext (f g : RowM unit) rows position :
  (forall row, f row = g row) ->
  forRowsFrom position f rows = forRowsFrom position g rows.
Proof.
  intros Hfg. revert position.
  induction rows as [|row rows IH]; intros position; simpl; [reflexivity|].
  rewrite Hfg, IH. reflexivity.
Qed.

(** C5.  The predicate of the filter ([list.some] over the row's derived
    tag set) is true exactly when the target is a member of the set or
    some member starts with the target followed by a slash, and false
    otherwise; the member [#projectx] does not match the target
    [#project]; the command sets the filter attribute to [1] on a row
    exactly when the row's tag set matches; and the sidebar click action
    applies the same predicate: run on the same editor with the same
    target, it leaves the same rows and makes the same calls as the
    command. *)
Theorem filter_predicate_exact_or_descendant
        (target : jsstring) (tags : list jsstring) :
  (someMatches target (map (@VString other) tags) = Some true
   <-> matches tags target) /\
  (someMatches target (map (@VString other) tags) <> Some true
   -> someMatches target (map (@VString other) tags) = Some false) /\
  someMatches (js "#project") [@VString other (js "#projectx")] = Some false /\
  (forall row raw,
      persistedTags row = Some raw -> raw <> [] ->
      JSON_parse raw = Some (JArray (map VString tags)) ->
      (attributes (rowAfter (filterRowCommand JSON_parse target) row)
         !! FILTER_ATTR_NEW = Some (js "1")
       <-> matches tags target)) /\
  (forall ed,
      target <> [] ->
      filterByTagCommand JSON_parse
        {| editor := Some ed; contextTag := Some target |}
      = (true,
         {| editor := (sidebarAction JSON_parse target (Some ed)).1;
            contextTag := Some target |},
         (sidebarAction JSON_parse target (Some ed)).2)).
Proof.
  split; [apply someMatches_matches|].
  split.
  { rewrite someMatches_strings. destruct (existsb _ tags); congruence. }
  split; [reflexivity|].
  split.
  - intros row raw Hraw Hne Hparse.
    rewrite <- someMatches_matches.
    unfold rowAfter, filterRowCommand, mbind at 1, RowM_bind at 1.
    rewrite getRowTagsAttribute_run, Hraw. destruct raw as [|c raw']; [congruence|].
    cbn [truthy default from_option id]. rewrite Hparse.
    rewrite someMatches_strings.
    destruct (existsb _ tags); simpl.
    + rewrite lookup_insert_ne by discriminate.
      rewrite lookup_insert_eq. tauto.
    + rewrite lookup_delete_ne by discriminate.
      rewrite lookup_delete_eq. split; discriminate.
  - intros ed Hne. destruct target as [|c target']; [congruence|].
    unfold filterByTagCommand, sidebarAction.
    cbn [editor contextTag truthy negb default from_option id].
    unfold forRows.
    rewrite (forRowsFrom_ext (filterRowSidebar JSON_parse (c :: target'))
               (filterRowCommand JSON_parse (c :: target')) (outline ed) 0)
      by (intros row; symmetry; apply filterRow_same).
    destruct (forRowsFrom 0 _ (outline ed)) as [rows log].
    reflexivity.
Qed.

(** C9.  When the filter command is invoked without a tag argument and
    no target tag can be resolved, it returns [false], the editor and its
    rows are unchanged and no mutating call has been made. *)
Theorem filterByTagCommand_without_target (context : CommandContext) :
  contextTag context = None ->
  noTargetResolvable context ->
  filterByTagCommand JSON_parse context = (false, context, []).
Proof.
  intros Htag Hno. unfold filterByTagCommand, noTargetResolvable in *.
  destruct (editor context) as [ed|]; [|reflexivity].
  rewrite Htag. simpl.
  destruct (selection ed) as [sel|]; [|reflexivity].
  destruct Hno as [-> ->]. reflexivity.
Qed.

(** ** The global tag index *)

(** C10.  A row whose tag set is stored under [bt-tags] only, with no
    [data-bt-tags] attribute, adds nothing to the global tag index: the
    index of an outline is the index of the outline without that row, and
    the index of that row alone is empty, although [getRowTagsAttribute]
    returns the row's stored tag set. *)
Theorem indexAllTags_reads_legacy_key_only
        (before after : list Row) (row : Row) (value : jsstring) :
  attributes row !! TAGS_ATTR_NEW = Some value ->
  attributes row !! TAGS_ATTR_OLD = None ->
  indexAllTags JSON_parse (before ++ row :: after)
  = indexAllTags JSON_parse (before ++ after) /\
  indexAllTags JSON_parse [row] = [] /\
  (getRowTagsAttribute row).1.1 = Some value.
Proof.
  intros Hnew Hold.
  change TAGS_ATTR_OLD with "data-bt-tags"%string in Hold.
  split; [|split].
  - unfold indexAllTags. rewrite !fold_left_app. simpl.
    rewrite Hold. reflexivity.
  - unfold indexAllTags. simpl. rewrite Hold. reflexivity.
  - unfold getRowTagsAttribute, mbind, RowM_bind, getAttribute.
    rewrite Hnew. reflexivity.
Qed.
End Filter.

Lemma filterByTagCommand_without_target_witness :
  let context :=
    {| editor := Some {| outline := [plainRow; taggedRow];
                         selection := Some (CaretSelection plainRow 14);
                         editorFilter := [] |};
       contextTag := None |} in
  filterByTagCommand MiniJSON.parse context = (false, context, []).
Proof.
  intros context.
  apply (filterByTagCommand_without_target MiniJSON.parse context).
  - reflexivity.
  - vm_compute. split; reflexivity.
Defined.

Example ex_indexAllTags :
  indexAllTags MiniJSON.parse [legacyRow; currentKeyRow]
  = [VString (js "#home")].
Proof. vm_compute. reflexivity. Qed.

Lemma indexAllTags_reads_legacy_key_only_witness :
  indexAllTags MiniJSON.parse ([legacyRow] ++ currentKeyRow :: [])
  = indexAllTags MiniJSON.parse ([legacyRow] ++ []) /\
  indexAllTags MiniJSON.parse [currentKeyRow] = [] /\
  (getRowTagsAttribute currentKeyRow).1.1
  = Some (MiniJSON.stringify [js "#work"]).
Proof.
  apply (indexAllTags_reads_legacy_key_only MiniJSON.parse
           [legacyRow] [] currentKeyRow (MiniJSON.stringify [js "#work"])).
  - vm_compute. reflexivity.
  - vm_compute. reflexivity.
Defined.

Lemma filter_predicate_witness :
  someMatches (js "#that")
    (map (@VString Empty_set) [js "#this"; js "#that"; js "#that/nested"])
  = Some true.
Proof.
  apply (filter_predicate_exact_or_descendant (other := Empty_set)
           MiniJSON.parse (js "#that")
           [js "#this"; js "#that"; js "#that/nested"]).
  left. vm_compute. apply list_elem_of_further, list_elem_of_here.
Defined.

Example ex_filter_unrelated :
  someMatches (js "#that") [@VString Empty_set (js "#this")] = Some false.
Proof. vm_compute. reflexivity. Qed.

(** ** The hierarchy builder *)

Example ex_hierarchy :
  buildTagHierarchy defaultCompare
    [js "#a/b/c"; js "#x"; js "#a/b"; js "#a"]
  = [ Node (js "#a") [Node (js "#a/b") [Node (js "#a/b/c") []]];
      Node (js "#x") [] ].
Proof. vm_compute. reflexivity. Qed.

Example ex_hierarchy_synthesized_parent :
  buildTagHierarchy defaultCompare [js "#a/b"]
  = [ Node (js "#a") [Node (js "#a/b") []] ].
Proof. vm_compute. reflexivity. Qed.

Section HierarchyFacts.

Lemma ensureNode_lookup t m k :
  is_Some (ensureNode t m !! k) <-> k = t \/ is_Some (m !! k).
Proof.
  unfold ensureNode. destruct (m !! t) as [cs|] eqn:E.
  - split; [auto|]. intros [->|H]; [eauto | exact H].
  - destruct (decide (k = t)) as [->|Hne].
    + rewrite lookup_insert_eq. split; eauto.
    + rewrite lookup_insert_ne by congruence. split; [auto|].
      intros [->|H]; [congruence | exact H].
Qed.

Lemma ensureNode_children t m k :
  childrenOf (ensureNode t m) k = childrenOf m k.
Proof.
  unfold ensureNode, childrenOf. destruct (m !! t) as [cs|] eqn:E; [reflexivity|].
  destruct (decide (k = t)) as [->|Hne].
  - rewrite lookup_insert_eq, E. reflexivity.
  - rewrite lookup_insert_ne by congruence. reflexivity.
Qed.

Lemma hierarchyStep_parent st t p :
  parentOf t = Some p ->
  hierarchyStep st t
  = let m := ensureNode p (ensureNode t (nodeMap st)) in
    {| nodeMap :=
         if negb (includes (childrenOf m p) t)
         then <[p := childrenOf m p ++ [t]]> m else m;
       rootNodes :=
         if (indexOf SLASH p =? -1)%Z && negb (includes (rootNodes st) p)
         then rootNodes st ++ [p] else rootNodes st |}.
Proof.
  unfold parentOf, hierarchyStep.
  destruct (0 <? lastIndexOf SLASH t)%Z; [|discriminate].
  intros [= <-]. reflexivity.
Qed.

Lemma hierarchyStep_no_parent st t :
  parentOf t = None ->
  hierarchyStep st t
  = {| nodeMap := ensureNode t (nodeMap st);
       rootNodes :=
         if negb (includes (rootNodes st) t)
         then rootNodes st ++ [t] else rootNodes st |}.
Proof.
  unfold parentOf, hierarchyStep.
  destruct (0 <? lastIndexOf SLASH t)%Z; [discriminate|].
  reflexivity.
Qed.

Lemma NoDup_snoc {A : Type} (l : list A) (x : A) :
  NoDup l -> x ∉ l -> NoDup (l ++ [x]).
Proof.
  intros Hl Hx. apply NoDup_app. split; [exact Hl|]. split.
  - intros y Hy Hyx. apply list_elem_of_singleton in Hyx. subst. auto.
  - apply NoDup_singleton.
Qed.

Lemma push_once_elem_of (l : list jsstring) (x y : jsstring) :
  y ∈ (if negb (includes l x) then l ++ [x] else l) <-> y ∈ l \/ y = x.
Proof.
  unfold includes.
  destruct (bool_decide_reflect (x ∈ l)) as [Hin|Hnin]; simpl.
  - split; [auto|]. intros [H| ->]; [exact H | exact Hin].
  - rewrite elem_of_app, list_elem_of_singleton. tauto.
Qed.

Lemma push_once_NoDup (l : list jsstring) (x : jsstring) :
  NoDup l -> NoDup (if negb (includes l x) then l ++ [x] else l).
Proof.
  intros Hl. unfold includes.
  destruct (bool_decide_reflect (x ∈ l)) as [Hin|Hnin]; simpl.
  - exact Hl.
  - apply NoDup_snoc; assumption.
Qed.

(** The [children] arrays after the child [t] was pushed, once, onto the
    array of [p]. *)
Lemma childrenOf_push m p t k :
  is_Some (m !! p) ->
  childrenOf (if negb (includes (childrenOf m p) t)
              then <[p := childrenOf m p ++ [t]]> m else m) k
  = if decide (k = p)
    then (if negb (includes (childrenOf m p) t)
          then childrenOf m p ++ [t] else childrenOf m p)
    else childrenOf m k.
Proof.
  intros Hp. destruct (negb (includes (childrenOf m p) t)).
  - unfold childrenOf at 1. destruct (decide (k = p)) as [->|Hne].
    + rewrite lookup_insert_eq. reflexivity.
    + rewrite lookup_insert_ne by congruence. reflexivity.
  - destruct (decide (k = p)) as [->|Hne]; reflexivity.
Qed.

Lemma hierarchyInv_step processed st t :
  hierarchyInv processed st ->
  hierarchyInv (processed ++ [t]) (hierarchyStep st t).
Proof.
  intros [Hn Hc Hr Hcn Hrn].
  destruct (parentOf t) as [p|] eqn:Ep.
  - rewrite (hierarchyStep_parent st t p Ep). cbv zeta.
    set (m := ensureNode p (ensureNode t (nodeMap st))).
    assert (Hm : forall k, is_Some (m !! k)
                           <-> k = p \/ k = t \/ is_Some (nodeMap st !! k)).
    { intros k. unfold m. rewrite !ensureNode_lookup. tauto. }
    assert (Hmc : forall k, childrenOf m k = childrenOf (nodeMap st) k).
    { intros k. unfold m. rewrite !ensureNode_children. reflexivity. }
    assert (Hmp : is_Some (m !! p)) by (apply Hm; auto).
    split; simpl.
    + intros k. setoid_rewrite elem_of_app. setoid_rewrite list_elem_of_singleton.
      assert (Hk : is_Some ((if negb (includes (childrenOf m p) t)
                             then <[p:=childrenOf m p ++ [t]]> m else m) !! k)
                   <-> is_Some (m !! k)).
      { destruct (negb _); [|tauto].
        destruct (decide (k = p)) as [->|Hne].
        - rewrite lookup_insert_eq. split; eauto.
        - rewrite lookup_insert_ne by congruence. tauto. }
      rewrite Hk, Hm, Hn. split.
      * intros [->|[->|[H|(c & H1 & H2)]]]; eauto 8.
      * intros [[H| ->]|(c & [H1| ->] & H2)]; eauto 8.
        left. congruence.
    + intros k c. setoid_rewrite elem_of_app. setoid_rewrite list_elem_of_singleton.
      rewrite (childrenOf_push m p t k Hmp).
      destruct (decide (k = p)) as [->|Hne].
      * rewrite push_once_elem_of, Hmc, Hc. split.
        -- intros [[H1 H2]| ->]; auto.
        -- intros [[H| ->] H2]; auto.
      * rewrite Hmc, Hc. split.
        -- intros [H1 H2]; auto.
        -- intros [[H| ->] H2]; [auto | congruence].
    + intros r. setoid_rewrite elem_of_app. setoid_rewrite list_elem_of_singleton.
      assert (Hk : r ∈ (if (indexOf SLASH p =? -1)%Z
                           && negb (includes (rootNodes st) p)
                        then rootNodes st ++ [p] else rootNodes st)
                   <-> r ∈ rootNodes st \/ (r = p /\ indexOf SLASH p = (-1)%Z)).
      { destruct (Z.eqb_spec (indexOf SLASH p) (-1)) as [Hi|Hi]; simpl.
        - rewrite push_once_elem_of. tauto.
        - split; [auto|]. intros [H|[_ H]]; [exact H | congruence]. }
      rewrite Hk, Hr. split.
      * intros [[[H1 H2]|(c & H1 & H2 & H3)]|[-> Hi]]; eauto 10.
      * intros [[[H| ->] H2]|(c & [H1| ->] & H2 & H3)]; eauto 10.
        -- congruence.
        -- right. split; congruence.
    + intros k. rewrite (childrenOf_push m p t k Hmp).
      destruct (decide (k = p)) as [->|Hne].
      * apply push_once_NoDup. rewrite Hmc. apply Hcn.
      * rewrite Hmc. apply Hcn.
    + destruct (indexOf SLASH p =? -1)%Z; simpl; [|exact Hrn].
      apply push_once_NoDup, Hrn.
  - rewrite (hierarchyStep_no_parent st t Ep).
    split; simpl.
    + intros k. setoid_rewrite elem_of_app. setoid_rewrite list_elem_of_singleton.
      rewrite ensureNode_lookup, Hn. split.
      * intros [->|[H|(c & H1 & H2)]]; eauto 8.
      * intros [[H| ->]|(c & [H1| ->] & H2)]; eauto 8. congruence.
    + intros k c. setoid_rewrite elem_of_app. setoid_rewrite list_elem_of_singleton.
      rewrite ensureNode_children, Hc. split.
      * intros [H1 H2]; auto.
      * intros [[H| ->] H2]; [auto | congruence].
    + intros r. setoid_rewrite elem_of_app. setoid_rewrite list_elem_of_singleton.
      rewrite push_once_elem_of, Hr. split.
      * intros [[[H1 H2]|(c & H1 & H2 & H3)]| ->]; eauto 10.
      * intros [[[H| ->] H2]|(c & [H1| ->] & H2 & H3)]; eauto 10. congruence.
    + intros k. rewrite ensureNode_children. apply Hcn.
    + apply push_once_NoDup, Hrn.
Qed.

End HierarchyFacts.

Section HierarchyPaths.

Lemma sortInsert_elem_of {A : Type} (compareFn : A -> A -> Z) x y l :
  y ∈ sortInsert compareFn x l <-> y = x \/ y ∈ l.
Proof.
  induction l as [|z l IH]; simpl.
  - rewrite list_elem_of_singleton, elem_of_nil. tauto.
  - destruct (compareFn x z <=? 0)%Z.
    + rewrite elem_of_cons. tauto.
    + rewrite !elem_of_cons, IH. tauto.
Qed.

Lemma sortBy_elem_of {A : Type} (compareFn : A -> A -> Z) y l :
  y ∈ sortBy compareFn l <-> y ∈ l.
Proof.
  induction l as [|x l IH].
  - reflexivity.
  - change (sortBy compareFn (x :: l))
      with (sortInsert compareFn x (sortBy compareFn l)).
    rewrite sortInsert_elem_of, elem_of_cons, IH. tauto.
Qed.

Lemma hierarchyInv_ext l1 l2 st :
  (forall x, x ∈ l1 <-> x ∈ l2) -> hierarchyInv l1 st -> hierarchyInv l2 st.
Proof.
  intros Hl [Hn Hc Hr Hcn Hrn]. split.
  - intros k. rewrite Hn. setoid_rewrite Hl. reflexivity.
  - intros k c. rewrite Hc, Hl. reflexivity.
  - intros r. rewrite Hr. setoid_rewrite Hl. reflexivity.
  - exact Hcn.
  - exact Hrn.
Qed.

Lemma hierarchyInv_loop l processed st :
  hierarchyInv processed st ->
  hierarchyInv (processed ++ l) (fold_left hierarchyStep l st).
Proof.
  revert processed st. induction l as [|t l IH]; intros processed st Hinv; simpl.
  - rewrite app_nil_r. exact Hinv.
  - replace (processed ++ t :: l) with ((processed ++ [t]) ++ l)
      by (rewrite <- app_assoc; reflexivity).
    apply IH, hierarchyInv_step, Hinv.
Qed.

Lemma hierarchyInv_init : hierarchyInv [] {| nodeMap := ∅; rootNodes := [] |}.
Proof.
  split; simpl.
  - intros k. rewrite lookup_empty. split.
    + intros [x Hx]. discriminate.
    + intros [H|(c & H & _)]; apply elem_of_nil in H; contradiction.
  - intros k c. unfold childrenOf. rewrite lookup_empty. simpl. split.
    + intros H. apply elem_of_nil in H. contradiction.
    + intros [H _]. apply elem_of_nil in H. contradiction.
  - intros r. split.
    + intros H. apply elem_of_nil in H. contradiction.
    + intros [[H _]|(c & H & _)]; apply elem_of_nil in H; contradiction.
  - intros k. unfold childrenOf. rewrite lookup_empty. apply NoDup_nil_2.
  - apply NoDup_nil_2.
Qed.

(** The state [buildTagHierarchy] ends in, described by the input set. *)
Lemma buildState_inv localeCompare tags :
  hierarchyInv tags (buildState localeCompare tags).
Proof.
  unfold buildState.
  apply (hierarchyInv_ext (sortBy (depthCompare localeCompare) tags)).
  - intros x. apply sortBy_elem_of.
  - apply (hierarchyInv_loop _ [] _ hierarchyInv_init).
Qed.

Lemma lastIndexOfFrom_bounds c s i found :
  lastIndexOfFrom c s i found = found
  \/ (i <= lastIndexOfFrom c s i found < i + Z.of_nat (length s))%Z.
Proof.
  revert i found. induction s as [|x r IH]; intros i found; simpl; [auto|].
  destruct (x =? c)%N.
  - destruct (IH (i + 1)%Z i) as [->|H]; right; lia.
  - destruct (IH (i + 1)%Z found) as [->|H]; [auto | right; lia].
Qed.

Lemma parentOf_shorter c p : parentOf c = Some p -> (length p < length c)%nat.
Proof.
  unfold parentOf, lastIndexOf, substring0.
  destruct (Z.ltb_spec 0 (lastIndexOfFrom SLASH c 0 (-1))) as [Hpos|]; [|discriminate].
  intros [= <-]. rewrite length_take.
  destruct (lastIndexOfFrom_bounds SLASH c 0 (-1)) as [E|H]; lia.
Qed.

Lemma no_slash_lastIndexOf s i found :
  (0 <= i)%Z -> indexOfFrom SLASH s i = (-1)%Z ->
  lastIndexOfFrom SLASH s i found = found.
Proof.
  revert i found. induction s as [|x r IH]; intros i found Hi; simpl; [reflexivity|].
  destruct (x =? SLASH)%N; [lia|].
  intros E. apply IH; [lia | exact E].
Qed.

Lemma no_slash_no_parent r : indexOf SLASH r = (-1)%Z -> parentOf r = None.
Proof.
  intros E. unfold parentOf, lastIndexOf.
  rewrite (no_slash_lastIndexOf r 0 (-1)); [reflexivity | lia | exact E].
Qed.

Section State.
Variables (processed : list jsstring) (st : HierarchyState).
Hypothesis Hinv : hierarchyInv processed st.

Lemma root_no_parent r : r ∈ rootNodes st -> parentOf r = None.
Proof.
  intros H. apply (inv_roots _ _ Hinv) in H as [[_ H]|(c & _ & _ & H)].
  - exact H.
  - apply no_slash_no_parent, H.
Qed.

Lemma child_parent p cs c :
  nodeMap st !! p = Some cs -> c ∈ cs -> parentOf c = Some p.
Proof.
  intros Hp Hc.
  assert (Hin : c ∈ childrenOf (nodeMap st) p).
  { unfold childrenOf. rewrite Hp. exact Hc. }
  apply (inv_children _ _ Hinv) in Hin. tauto.
Qed.

(** A node has at most one path from a root. *)
Lemma pathTo_unique path1 path2 t :
  pathTo (nodeMap st) (rootNodes st) path1 t ->
  pathTo (nodeMap st) (rootNodes st) path2 t ->
  path1 = path2.
Proof.
  intros H1. revert path2.
  induction H1 as [r Hr | path p c cs Hp IH Hl Hc]; intros path2 H2.
  - inversion H2 as [r' Hr' | path' p' c' cs' Hp' Hl' Hc']; subst.
    + reflexivity.
    + apply root_no_parent in Hr.
      rewrite (child_parent _ _ _ Hl' Hc') in Hr. discriminate.
  - inversion H2 as [r' Hr' | path' p' c' cs' Hp' Hl' Hc']; subst.
    + apply root_no_parent in Hr'.
      rewrite (child_parent _ _ _ Hl Hc) in Hr'. discriminate.
    + pose proof (child_parent _ _ _ Hl Hc) as E1.
      pose proof (child_parent _ _ _ Hl' Hc') as E2.
      rewrite E1 in E2. injection E2 as <-.
      rewrite (IH _ Hp'). reflexivity.
Qed.

(** When the processed set holds the parent of each of its members, every
    member is reached from a root. *)
Lemma pathTo_exists :
  parentClosed processed ->
  forall n t, (length t < n)%nat -> t ∈ processed ->
              exists path, pathTo (nodeMap st) (rootNodes st) path t.
Proof.
  intros Hclosed. induction n as [|n IH]; intros t Hlen Ht; [lia|].
  destruct (parentOf t) as [p|] eqn:Ep.
  - destruct (IH p) as [path Hpath].
    + apply parentOf_shorter in Ep. lia.
    + apply (Hclosed t p Ht Ep).
    + assert (Hnode : is_Some (nodeMap st !! p)).
      { apply (inv_nodes _ _ Hinv). right. eauto. }
      destruct Hnode as [cs Hcs].
      exists (path ++ [t]). apply (path_child _ _ path p t cs Hpath Hcs).
      assert (Hin : t ∈ childrenOf (nodeMap st) p).
      { apply (inv_children _ _ Hinv). auto. }
      unfold childrenOf in Hin. rewrite Hcs in Hin. exact Hin.
  - exists [t]. apply path_root. apply (inv_roots _ _ Hinv). left. auto.
Qed.
End State.

(** X20.  On a tag set that holds the parent path of each of its members,
    the nodes of the builder are the members of the set, each of them is
    reached from a root by exactly one path, and no node is listed twice
    among the roots or in a [children] array. *)
Theorem buildState_parent_closed localeCompare tags t :
  parentClosed tags ->
  let st := buildState localeCompare tags in
  (is_Some (nodeMap st !! t) <-> t ∈ tags) /\
  (t ∈ tags ->
   exists path,
     pathTo (nodeMap st) (rootNodes st) path t /\
     forall path', pathTo (nodeMap st) (rootNodes st) path' t -> path' = path) /\
  NoDup (rootNodes st) /\
  NoDup (childrenOf (nodeMap st) t).
Proof.
  intros Hclosed st.
  pose proof (buildState_inv localeCompare tags) as Hinv. fold st in Hinv.
  split; [|split; [|split]].
  - rewrite (inv_nodes _ _ Hinv). split; [|auto].
    intros [H|(c & Hc & Hp)]; [exact H | apply (Hclosed c t Hc Hp)].
  - intros Ht.
    destruct (pathTo_exists tags st Hinv Hclosed (S (length t)) t) as [path Hpath];
      [lia | exact Ht |].
    exists path. split; [exact Hpath|].
    intros path' Hpath'. apply (pathTo_unique tags st Hinv _ _ t Hpath' Hpath).
  - apply (inv_roots_once _ _ Hinv).
  - apply (inv_children_once _ _ Hinv).
Qed.

End HierarchyPaths.

Lemma no_roots_unreachable (st : HierarchyState) (t : jsstring) :
  rootNodes st = [] -> ~ reachable st t.
Proof.
  intros Hr [path Hp]. rewrite Hr in Hp.
  induction Hp as [r Hin | path p c cs Hp IH Hl Hc]; [|exact IH].
  apply elem_of_nil in Hin. exact Hin.
Qed.

(** C2.  On the tag set that holds [#a/b/c] alone the builder creates the
    node of [#a/b/c] and the synthesized node of its parent [#a/b], links
    the first under the second, and returns no root: both nodes are
    unreachable from every root and the returned forest is empty. *)
Theorem buildTagHierarchy_orphans_deep_tag
        (localeCompare : jsstring -> jsstring -> Z) :
  let st := buildState localeCompare [js "#a/b/c"] in
  nodeMap st !! js "#a/b/c" = Some [] /\
  nodeMap st !! js "#a/b" = Some [js "#a/b/c"] /\
  rootNodes st = [] /\
  ~ reachable st (js "#a/b/c") /\
  ~ reachable st (js "#a/b") /\
  buildTagHierarchy localeCompare [js "#a/b/c"] = [].
Proof.
  intros st.
  assert (Hr : rootNodes st = []) by (vm_compute; reflexivity).
  split; [vm_compute; reflexivity|].
  split; [vm_compute; reflexivity|].
  split; [exact Hr|].
  split; [apply no_roots_unreachable, Hr|].
  split; [apply no_roots_unreachable, Hr|].
  unfold buildTagHierarchy. fold st. rewrite Hr. reflexivity.
Qed.

(** * Further properties of the extension *)

(** ** The spans of the tokens *)

Section TokenSpans.

Lemma execFrom_shape i rest idx g :
  execFrom i rest = Some (idx, g) ->
  matchTagText g = true /\ (i <= idx)%nat /\
  ((idx = 0%nat /\ g = drop (idx - i) rest)
   \/ (exists c, rest !! (idx - i)%nat = Some c /\ isWhiteSpace c = true /\
                 g = drop (S (idx - i)) rest)).
Proof.
  revert i. induction rest as [|c r IH]; intros i; simpl.
  - unfold matchHere. simpl. rewrite andb_false_r. discriminate.
  - destruct (matchHere (Nat.eqb i 0) (c :: r)) as [g'|] eqn:E.
    + intros [= <- <-]. rewrite Nat.sub_diag. unfold matchHere in E.
      destruct (Nat.eqb i 0 && matchTagText (c :: r)) eqn:E1.
      * injection E as <-. apply andb_true_iff in E1 as [Hi Hm].
        apply Nat.eqb_eq in Hi. split; [exact Hm|]. split; [lia|].
        left. split; [exact Hi | reflexivity].
      * destruct (isWhiteSpace c && matchTagText r) eqn:E2; [|discriminate].
        injection E as <-. apply andb_true_iff in E2 as [Hw Hm].
        split; [exact Hm|]. split; [lia|]. right. exists c. auto.
    + intros H. apply IH in H as (Hm & Hi & H). split; [exact Hm|].
      split; [lia|].
      replace (idx - i)%nat with (S (idx - S i)) by lia.
      destruct H as [[H0 Hg]|(d & Hd & Hw & Hg)]; [lia|].
      right. exists d. auto.
Qed.

(** A match of the pattern in [tail_]: the capture is the end of [tail_],
    it starts at [index] or right after the whitespace at [index]. *)
Lemma reExec_shape tail_ index g :
  reExec tail_ = Some (index, g) ->
  matchTagText g = true /\
  exists pos,
    tail_ = take pos tail_ ++ g /\ (pos + length g = length tail_)%nat /\
    ((pos = index /\ index = 0%nat)
     \/ (pos = S index /\ exists c, tail_ !! index = Some c /\ isWhiteSpace c = true)).
Proof.
  intros H. apply execFrom_shape in H as (Hm & _ & H).
  rewrite Nat.sub_0_r in H. split; [exact Hm|].
  destruct H as [[H0 Hg]|(c & Hc & Hw & Hg)].
  - exists index. subst g. rewrite take_drop.
    split; [reflexivity|]. split; [|auto].
    rewrite length_drop. subst index. lia.
  - exists (S index). subst g. rewrite take_drop.
    split; [reflexivity|]. split; [|eauto].
    rewrite length_drop. apply lookup_lt_Some in Hc. lia.
Qed.

Lemma spansOrdered_lower lo lo' hi tokens :
  (lo' <= lo)%Z -> spansOrdered lo hi tokens -> spansOrdered lo' hi tokens.
Proof. destruct tokens; simpl; intros; [lia | intuition lia]. Qed.

Lemma readsAt_prefix s n pos g :
  (pos + length g <= n)%nat -> readsAt (take n s) pos g -> readsAt s pos g.
Proof.
  unfold readsAt. intros Hle H.
  rewrite skipn_firstn_comm, take_take in H.
  replace (length g `min` (n - pos))%nat with (length g) in H by lia.
  exact H.
Qed.

Lemma trimEndIndex_le s n : (trimEndIndex s n <= n)%nat.
Proof.
  induction n as [|k IH]; simpl; [lia|].
  destruct (s !! k) as [c|]; [|lia].
  destruct (isWhiteSpace c); lia.
Qed.

Lemma scanTail_placed s n tokens :
  (n <= length s)%nat ->
  spansOrdered (Z.of_nat n) (Z.of_nat (length s)) tokens ->
  Forall (tokenPlaced s) tokens ->
  spansOrdered 0 (Z.of_nat (length s)) (scanTail (take n s) tokens) /\
  Forall (tokenPlaced s) (scanTail (take n s) tokens).
Proof.
  remember (take n s) as tail_ eqn:Et. revert n Et.
  funelim (scanTail tail_ tokens); intros n Et Hn Hord Hpl.
  2:{ split; [|exact Hpl]. apply (spansOrdered_lower (Z.of_nat n)); [lia | exact Hord]. }
  clear Heqcall.
  pose proof Hm as Hshape. apply reExec_shape in Hshape as (Hmt & pos & Hcat & Hlen & Hpos).
  assert (Hlt : length tail_ = n) by (subst tail_; rewrite length_take; lia).
  assert (Hg : (0 < length tagText)%nat)
    by (destruct tagText; [discriminate | simpl; lia]).
  assert (Hidx : (index < n)%nat) by (destruct Hpos as [[-> ->]|[-> _]]; lia).
  assert (Htail' : exists m, trimEnd (take index tail_) = take m s /\
                             (m <= index)%nat).
  { unfold trimEnd. subst tail_. rewrite !take_take.
    eexists. split; [reflexivity|]. lia. }
  destruct Htail' as (m & Htail' & Hm').
  match goal with IH : forall s n, _ = _ -> _ |- _ =>
    apply (IH s m Htail'); clear IH end.
  - lia.
  - simpl. unfold tokenOfMatch; simpl.
    split; [destruct (_ && _); lia|]. split; [lia|].
    apply (spansOrdered_lower (Z.of_nat n)); [|exact Hord].
    destruct Hpos as [[-> ->]|[-> _]]; [simpl; lia|].
    destruct (_ && _); lia.
  - constructor; [|exact Hpl].
    unfold tokenPlaced, tokenOfMatch; simpl.
    split; [destruct (_ && _); lia|].
    assert (Hread : readsAt s pos tagText).
    { apply (readsAt_prefix s n); [lia|]. rewrite <- Et.
      unfold readsAt. rewrite Hcat at 1. rewrite drop_app_length'; [apply firstn_all|].
      rewrite length_take. lia. }
    destruct Hpos as [[-> ->]|[-> (c & Hc & Hw)]].
    + left. simpl. exact Hread.
    + assert (Hcs : s !! index = Some c).
      { rewrite Et in Hc. rewrite lookup_take_lt in Hc by lia. exact Hc. }
      rewrite Hc.
      destruct (Nat.ltb_spec 0 index) as [Hpos|Hzero]; simpl.
      * destruct (N.eqb_spec c SPACE) as [->|Hne].
        -- left. replace (Z.to_nat (Z.of_nat index + 1)) with (S index) by lia.
           exact Hread.
        -- right. rewrite Z.add_0_r, Nat2Z.id. split; [exact Hread|].
           exists c. auto.
      * right. rewrite Z.add_0_r, Nat2Z.id. split; [exact Hread|].
        exists c. split; [exact Hcs|]. split; [exact Hw|]. left. lia.
Qed.

End TokenSpans.

Section TokenSpanTheorems.

Lemma findTrailingTags_ordered (s : jsstring) :
  spansOrdered 0 (Z.of_nat (length s)) (findTrailingTags s).
Proof.
  unfold findTrailingTags.
  pose proof (trimEndIndex_le s (length s)) as Hle.
  apply (scanTail_placed s (trimEndIndex s (length s)) [] Hle); simpl.
  - lia.
  - constructor.
Qed.

(** X1.  The spans of the tokens lie inside the text, one after the other and
    without overlap: [0 <= start_1 <= end_1 <= start_2 <= ... <= end_n <=
    s.length]. *)
Theorem findTrailingTags_spans_ordered (s : jsstring) :
  spansOrdered 0 (Z.of_nat (length s)) (findTrailingTags s).
Proof. apply findTrailingTags_ordered. Qed.

Lemma findTrailingTags_tokenPlaced (s : jsstring) (t : TagToken) :
  t ∈ findTrailingTags s -> tokenPlaced s t.
Proof.
  intros Hin. unfold findTrailingTags in Hin.
  pose proof (trimEndIndex_le s (length s)) as Hle.
  destruct (scanTail_placed s (trimEndIndex s (length s)) [] Hle) as [_ H].
  - simpl. lia.
  - constructor.
  - rewrite Forall_forall in H. apply H, Hin.
Qed.

(** X2.  The tag text of a token is read in the row text at [start], or
    one character after [start]; the second happens only when the match
    consumed a whitespace character that stands at index 0 or is not
    U+0020. *)
Theorem findTrailingTags_placed (s : jsstring) (t : TagToken) :
  t ∈ findTrailingTags s -> tokenPlaced s t.
Proof. apply findTrailingTags_tokenPlaced. Qed.

(** X3.  When the only whitespace of the text is U+0020 and the text does not
    begin with it, the span of every token covers exactly the characters
    of its tag, and the character at [start] is the hash sign. *)
Theorem findTrailingTags_exact_spans (s : jsstring) (t : TagToken) :
  plainSpacing s ->
  t ∈ findTrailingTags s ->
  readsAt s (Z.to_nat (start t)) (tag t) /\
  (end_ t - start t)%Z = Z.of_nat (length (tag t)) /\
  s !! Z.to_nat (start t) = Some HASH.
Proof.
  intros [Hsp Hfirst] Hin.
  pose proof (findTrailingTags_span_length s t Hin) as Hlen.
  assert (Hpat : matchTagText (tag t) = true).
  { pose proof (scanTail_tagText (take (trimEndIndex s (length s)) s) []
                  (Forall_nil_2 _)) as H.
    rewrite Forall_forall in H. apply H, Hin. }
  destruct (findTrailingTags_tokenPlaced s t Hin) as [H0 [Hr|[Hr (c & Hc & Hw & Hbad)]]].
  - split; [exact Hr|]. split; [exact Hlen|].
    unfold readsAt in Hr. destruct (tag t) as [|h r]; [discriminate|].
    simpl in Hpat. apply andb_true_iff in Hpat as [Hh _].
    apply N.eqb_eq in Hh. subst h.
    destruct (drop (Z.to_nat (start t)) s) as [|x rest] eqn:Ed; [discriminate|].
    simpl in Hr. injection Hr as -> _.
    rewrite <- (Nat.add_0_r (Z.to_nat (start t))), <- lookup_drop, Ed.
    reflexivity.
  - exfalso. destruct Hbad as [Hz|Hne].
    + rewrite Hz in Hc. simpl in Hc. rewrite (Hfirst c Hc) in Hw. discriminate.
    + apply Hne, Hsp; [|exact Hw]. apply list_elem_of_lookup. eauto.
Qed.

Lemma trimEndIndex_agree s1 s2 n :
  (forall k, (k < n)%nat -> s1 !! k = s2 !! k) ->
  trimEndIndex s1 n = trimEndIndex s2 n.
Proof.
  induction n as [|k IH]; intros H; simpl; [reflexivity|].
  rewrite <- (H k) by lia.
  destruct (s1 !! k) as [c|]; [|reflexivity].
  destruct (isWhiteSpace c); [|reflexivity].
  apply IH. intros j Hj. apply H. lia.
Qed.

Lemma trimEndIndex_app_whitespace s ws :
  Forall (fun c => isWhiteSpace c = true) ws ->
  trimEndIndex (s ++ ws) (length (s ++ ws)) = trimEndIndex s (length s).
Proof.
  induction ws as [|c ws IH] using rev_ind; intros Hws.
  - rewrite app_nil_r. reflexivity.
  - apply Forall_app in Hws as [Hws Hc]. rewrite Forall_singleton in Hc.
    rewrite app_assoc, length_app. simpl.
    replace (length (s ++ ws) + 1)%nat with (S (length (s ++ ws))) by lia.
    simpl. rewrite lookup_app_r by lia. rewrite Nat.sub_diag. simpl. rewrite Hc.
    rewrite <- (IH Hws). apply trimEndIndex_agree.
    intros k Hk. rewrite lookup_app_l by exact Hk. reflexivity.
Qed.

(** X4.  Whitespace after the last tag changes nothing: the text with
    whitespace appended has the same tokens, with the same spans. *)
Theorem findTrailingTags_trailing_whitespace (s ws : jsstring) :
  Forall (fun c => isWhiteSpace c = true) ws ->
  findTrailingTags (s ++ ws) = findTrailingTags s.
Proof.
  intros Hws. unfold findTrailingTags.
  rewrite (trimEndIndex_app_whitespace s ws Hws).
  rewrite take_app_le by apply trimEndIndex_le. reflexivity.
Qed.

End TokenSpanTheorems.

Lemma findTrailingTags_exact_spans_witness :
  let s := js "Do something important #this #that/nested" in
  let t := {| tag := js "#that/nested"; start := 29; end_ := 41 |} in
  readsAt s (Z.to_nat (start t)) (tag t) /\
  (end_ t - start t)%Z = Z.of_nat (length (tag t)) /\
  s !! Z.to_nat (start t) = Some HASH.
Proof.
  intros s t. apply (findTrailingTags_exact_spans s t).
  - split.
    + intros c Hc Hw. apply list_elem_of_In in Hc. vm_compute in Hc.
      repeat (destruct Hc as [<-|Hc]; [first [reflexivity | vm_compute in Hw; discriminate]|]).
      contradiction.
    + intros c [= <-]. reflexivity.
  - vm_compute. apply list_elem_of_further, list_elem_of_here.
Defined.

Lemma findTrailingTags_trailing_whitespace_witness :
  findTrailingTags (js "call Ana #work" ++ js "  ")
  = findTrailingTags (js "call Ana #work").
Proof.
  apply (findTrailingTags_trailing_whitespace (js "call Ana #work") (js "  ")).
  repeat constructor.
Defined.

Lemma lastIndexOfFrom_slash c s i found k :
  lastIndexOfFrom c s i found = k -> (i <= k)%Z ->
  (found < i)%Z ->
  exists r, s = take (Z.to_nat (k - i)) s ++ c :: r.
Proof.
  revert i found. induction s as [|x r IH]; intros i found; simpl.
  - lia.
  - intros E Hk Hf.
    destruct (lastIndexOfFrom_bounds c r (i + 1) (if (x =? c)%N then i else found))
      as [E'|Hb].
    + rewrite E' in E. destruct (N.eqb_spec x c) as [->|Hne]; [|lia].
      subst k. rewrite Z.sub_diag. simpl. eauto.
    + rewrite E in Hb.
      destruct (IH (i + 1)%Z _ E) as [r' Hr']; [lia | destruct (x =? c)%N; lia |].
      replace (Z.to_nat (k - i)) with (S (Z.to_nat (k - (i + 1)))) by lia.
      simpl. exists r'. f_equal. exact Hr'.
Qed.

(** The parent path is followed by a slash in the tag. *)
Lemma parentOf_slash t p : parentOf t = Some p -> exists r, t = p ++ SLASH :: r.
Proof.
  unfold parentOf, lastIndexOf, substring0.
  destruct (Z.ltb_spec 0 (lastIndexOfFrom SLASH t 0 (-1))) as [Hpos|]; [|discriminate].
  intros [= <-].
  destruct (lastIndexOfFrom_slash SLASH t 0 (-1) _ eq_refl) as [r Hr]; [lia | lia |].
  rewrite Z.sub_0_r in Hr. eauto.
Qed.

(** ** The derived tag set of a row *)

Section CandidateSet.

Lemma jsLtb_irrefl a : jsLtb a a = false.
Proof.
  induction a as [|x a IH]; simpl; [reflexivity|].
  rewrite N.ltb_irrefl. exact IH.
Qed.

Lemma jsLtb_trans a b c :
  jsLtb a b = true -> jsLtb b c = true -> jsLtb a c = true.
Proof.
  revert b c. induction a as [|x a IH]; intros [|y b] [|z c]; simpl;
    try discriminate; try reflexivity.
  destruct (N.ltb_spec x y), (N.ltb_spec y x), (N.ltb_spec y z),
    (N.ltb_spec z y), (N.ltb_spec x z), (N.ltb_spec z x);
    try discriminate; try reflexivity; try lia.
  apply IH.
Qed.

Lemma jsLtb_total a b : jsLtb a b = false -> jsLtb b a = false -> a = b.
Proof.
  revert b. induction a as [|x a IH]; intros [|y b]; simpl;
    try discriminate; [reflexivity|].
  destruct (N.ltb_spec x y), (N.ltb_spec y x); try discriminate; try lia.
  intros H1 H2. f_equal; [lia | apply IH; assumption].
Qed.

Lemma sortInsert_Permutation {A : Type} (compareFn : A -> A -> Z) x l :
  Permutation (x :: l) (sortInsert compareFn x l).
Proof.
  induction l as [|y l IH]; simpl; [reflexivity|].
  destruct (compareFn x y <=? 0)%Z; [reflexivity|].
  rewrite <- IH. apply perm_swap.
Qed.

Lemma sortBy_Permutation {A : Type} (compareFn : A -> A -> Z) l :
  Permutation l (sortBy compareFn l).
Proof.
  induction l as [|x l IH]; [reflexivity|].
  change (sortBy compareFn (x :: l))
    with (sortInsert compareFn x (sortBy compareFn l)).
  rewrite <- sortInsert_Permutation. constructor. exact IH.
Qed.

(** A list that [sort()] leaves in place and that has no duplicates is
    strictly ascending in the order of the code units. *)
Lemma inOrder_strict l :
  inOrder defaultCompare l = true -> NoDup l ->
  StronglySorted (fun a b => jsLtb a b = true) l.
Proof.
  induction l as [|x l IH]; intros Hord Hnd; [constructor|].
  apply NoDup_cons in Hnd as [Hx Hnd].
  assert (Hl : inOrder defaultCompare l = true).
  { destruct l; [reflexivity|]. simpl in Hord. apply andb_true_iff in Hord. tauto. }
  specialize (IH Hl Hnd). constructor; [exact IH|].
  destruct l as [|y l']; [constructor|].
  assert (Hxy : jsLtb x y = true).
  { simpl in Hord. apply andb_true_iff in Hord as [Hord _].
    apply Z.leb_le in Hord. unfold defaultCompare in Hord.
    destruct (jsLtb x y) eqn:E1; [reflexivity|].
    destruct (jsLtb y x) eqn:E2; [lia|].
    exfalso. apply Hx. rewrite (jsLtb_total x y E1 E2). apply list_elem_of_here. }
  constructor; [exact Hxy|].
  apply StronglySorted_inv in IH as [_ Hy].
  eapply Forall_impl; [exact Hy|]. simpl. intros z Hz.
  eapply jsLtb_trans; eassumption.
Qed.

Lemma setAdd_elem_of {A : Type} `{EqDecision A} (l : list A) x y :
  y ∈ setAdd l x <-> y ∈ l \/ y = x.
Proof.
  unfold setAdd. destruct (decide (x ∈ l)) as [Hin|Hnin].
  - split; [auto|]. intros [H| ->]; assumption.
  - rewrite elem_of_app, list_elem_of_singleton. reflexivity.
Qed.

Lemma setAdd_NoDup {A : Type} `{EqDecision A} (l : list A) x :
  NoDup l -> NoDup (setAdd l x).
Proof.
  intros Hl. unfold setAdd. destruct (decide (x ∈ l)) as [Hin|Hnin]; [exact Hl|].
  apply NoDup_snoc; assumption.
Qed.

Lemma fold_setAdd_elem_of {A : Type} `{EqDecision A} (xs l : list A) y :
  y ∈ fold_left setAdd xs l <-> y ∈ l \/ y ∈ xs.
Proof.
  revert l. induction xs as [|x xs IH]; intros l; simpl.
  - rewrite elem_of_nil. tauto.
  - rewrite IH, setAdd_elem_of, elem_of_cons. tauto.
Qed.

Lemma fold_setAdd_NoDup {A : Type} `{EqDecision A} (xs l : list A) :
  NoDup l -> NoDup (fold_left setAdd xs l).
Proof.
  revert l. induction xs as [|x xs IH]; intros l Hl; simpl; [exact Hl|].
  apply IH, setAdd_NoDup, Hl.
Qed.

Lemma tagPaths_loop_elem_of tokens (l : list jsstring) y :
  y ∈ fold_left
        (fun tagPaths token =>
           fold_left setAdd (addAncestors (normalizeTag (tag token))) tagPaths)
        tokens l
  <-> y ∈ l \/ exists t, t ∈ tokens /\ y ∈ addAncestors (normalizeTag (tag t)).
Proof.
  revert l. induction tokens as [|t tokens IH]; intros l; simpl.
  - split; [auto|]. intros [H|(t & Ht & _)]; [exact H|].
    apply elem_of_nil in Ht. contradiction.
  - rewrite IH, fold_setAdd_elem_of. split.
    + intros [[H|H]|(t' & Ht' & H)]; [auto | |].
      * right. exists t. split; [apply list_elem_of_here | exact H].
      * right. exists t'. split; [apply list_elem_of_further, Ht' | exact H].
    + intros [H|(t' & Ht' & H)]; [auto|].
      apply elem_of_cons in Ht' as [->|Ht']; [auto|]. right. eauto.
Qed.

Lemma tagPaths_loop_NoDup tokens (l : list jsstring) :
  NoDup l ->
  NoDup (fold_left
           (fun tagPaths token =>
              fold_left setAdd (addAncestors (normalizeTag (tag token))) tagPaths)
           tokens l).
Proof.
  revert l. induction tokens as [|t tokens IH]; intros l Hl; simpl; [exact Hl|].
  apply IH, fold_setAdd_NoDup, Hl.
Qed.

Lemma candidateSet_elem_of s y :
  y ∈ candidateSet s
  <-> exists t, t ∈ findTrailingTags s /\
                (y = tag t \/ y ∈ prefixesBeforeSlash (tag t)).
Proof.
  unfold candidateSet, sort. rewrite <- (sortBy_Permutation defaultCompare).
  unfold tagPathsOf. rewrite tagPaths_loop_elem_of, elem_of_nil.
  split.
  - intros [[]|(t & Ht & Hy)]. exists t. split; [exact Ht|].
    destruct (findTrailingTags_normal s t Ht) as [Hn _]. rewrite Hn in Hy.
    assert (Hpat : exists rest, tag t = HASH :: rest).
    { rewrite <- Hn. apply normalizeTag_hash. }
    destruct Hpat as [rest E]. rewrite E in Hy |- *.
    rewrite addAncestors_hash, elem_of_app, list_elem_of_singleton in Hy. tauto.
  - intros (t & Ht & Hy). right. exists t. split; [exact Ht|].
    destruct (findTrailingTags_normal s t Ht) as [Hn _]. rewrite Hn.
    assert (Hpat : exists rest, tag t = HASH :: rest).
    { rewrite <- Hn. apply normalizeTag_hash. }
    destruct Hpat as [rest E]. rewrite E in Hy |- *.
    rewrite addAncestors_hash, elem_of_app, list_elem_of_singleton. tauto.
Qed.

Lemma candidateSet_NoDup s : NoDup (candidateSet s).
Proof.
  unfold candidateSet, sort. rewrite <- (sortBy_Permutation defaultCompare).
  apply tagPaths_loop_NoDup, NoDup_nil_2.
Qed.

Lemma prefixesBeforeSlash_trans p x u :
  p ∈ prefixesBeforeSlash x -> x ∈ prefixesBeforeSlash u ->
  p ∈ prefixesBeforeSlash u.
Proof.
  rewrite !prefixesBeforeSlash_spec. intros [r1 ->] [r2 ->].
  exists (r1 ++ SLASH :: r2). rewrite <- app_assoc. reflexivity.
Qed.

Lemma candidateSet_closed s x p :
  x ∈ candidateSet s -> p ∈ prefixesBeforeSlash x -> p ∈ candidateSet s.
Proof.
  rewrite !candidateSet_elem_of. intros (t & Ht & [->|Hx]) Hp.
  - eauto.
  - exists t. split; [exact Ht|]. right.
    apply (prefixesBeforeSlash_trans p x (tag t)); assumption.
Qed.

(** X5.  The derived tag set is strictly ascending in the order of the code
    units, so it holds no tag twice; its members are the tags of the
    tokens and their proper prefix paths, nothing else; and it is empty
    exactly when there is no token. *)
Theorem candidateSet_sorted_members (s : jsstring) :
  StronglySorted (fun a b => jsLtb a b = true) (candidateSet s) /\
  (forall y, y ∈ candidateSet s
             <-> exists t, t ∈ findTrailingTags s /\
                           (y = tag t \/ y ∈ prefixesBeforeSlash (tag t))) /\
  (candidateSet s = [] <-> findTrailingTags s = []).
Proof.
  split; [|split].
  - apply inOrder_strict; [|apply candidateSet_NoDup].
    apply sortBy_inOrder, defaultCompare_flip.
  - apply candidateSet_elem_of.
  - split.
    + intros E. destruct (findTrailingTags s) as [|t ts] eqn:Et; [reflexivity|].
      assert (Hin : tag t ∈ candidateSet s).
      { apply candidateSet_elem_of. exists t. rewrite Et.
        split; [apply list_elem_of_here | auto]. }
      rewrite E in Hin. apply elem_of_nil in Hin. contradiction.
    + intros E. unfold candidateSet. rewrite E. reflexivity.
Qed.

(** X6.  The derived tag set holds every ancestor of each of its members: with
    a tag it holds all the proper prefix paths of the tag, and so the
    parent path of every member that has one. *)
Theorem candidateSet_ancestor_closed (s : jsstring) :
  (forall x p, x ∈ candidateSet s -> p ∈ prefixesBeforeSlash x ->
               p ∈ candidateSet s) /\
  parentClosed (candidateSet s).
Proof.
  split; [apply candidateSet_closed|].
  intros t p Ht Hp. apply (candidateSet_closed s t p Ht).
  apply prefixesBeforeSlash_spec. apply parentOf_slash, Hp.
Qed.

End CandidateSet.

(** ** What one run of the updater does to a row *)

Section UpdaterEffects.
Context {other : Type} `{EqDecision other}.
Variable otherToString : other -> jsstring.
Variable JSON_parse : jsstring -> option (json other).
Variable JSON_stringify : list jsstring -> jsstring.

Local Abbreviation applyTags :=
  (applyTagsToRow otherToString JSON_parse JSON_stringify).
Local Abbreviation existingEq := (existingEquals otherToString JSON_parse).

Lemma filter_all {A : Type} (P : A -> Prop) `{forall x, Decision (P x)} l :
  Forall P l -> filter P l = l.
Proof.
  induction 1 as [|x l Hx Hl IH]; [reflexivity|].
  rewrite filter_cons_True by exact Hx. f_equal. exact IH.
Qed.

Lemma filter_none {A : Type} (P : A -> Prop) `{forall x, Decision (P x)} l :
  Forall (fun x => ~ P x) l -> filter P l = [].
Proof.
  induction 1 as [|x l Hx Hl IH]; [reflexivity|].
  rewrite filter_cons_False by exact Hx. exact IH.
Qed.

Lemma stableIndexForTag_range tagText modulo :
  (0 < modulo)%Z -> (0 <= stableIndexForTag tagText modulo < modulo)%Z.
Proof.
  intros Hm. unfold stableIndexForTag.
  apply Z.rem_bound_pos; [apply Z.abs_nonneg | exact Hm].
Qed.

Lemma isTagMarker_false name :
  isTagMarker name = false
  <-> name <> "biketag"%string /\
      name ∉ map (fun i => "bt-color-" +:+ pretty i) (seqZ 0 COLOR_COUNT).
Proof.
  unfold isTagMarker. rewrite orb_false_iff, String.eqb_neq.
  apply and_iff_compat_l. split.
  - intros Hex Hin. apply list_elem_of_In, in_map_iff in Hin as (i & <- & Hi).
    assert (Ht : existsb (fun i0 => String.eqb ("bt-color-" +:+ pretty i)
                                               ("bt-color-" +:+ pretty i0))
                         (seqZ 0 COLOR_COUNT) = true).
    { apply existsb_exists. exists i. split; [exact Hi | apply String.eqb_refl]. }
    congruence.
  - intros Hnin. apply not_true_is_false. intros Hex.
    apply existsb_exists in Hex as (i & Hi & He). apply String.eqb_eq in He.
    apply Hnin. apply list_elem_of_In, in_map_iff. eauto.
Qed.

Lemma isTagMarker_biketag : isTagMarker "biketag" = true.
Proof. reflexivity. Qed.

Lemma isTagMarker_color tagText :
  isTagMarker ("bt-color-" +:+ pretty (stableIndexForTag tagText COLOR_COUNT))
  = true.
Proof.
  destruct (isTagMarker _) eqn:E; [reflexivity|].
  apply isTagMarker_false in E as [_ E]. exfalso. apply E.
  apply list_elem_of_In, in_map_iff. eexists. split; [reflexivity|].
  apply list_elem_of_In, elem_of_seqZ.
  pose proof (stableIndexForTag_range tagText COLOR_COUNT eq_refl). lia.
Qed.

(** The row with other text attributes. *)
Lemma removeEach_run {A : Type} (f : A -> string) (l : list A) row :
  (forEach (fun x => textRemoveAttribute (f x)) l row).1.2
  = withTextAttributes row
      (filter (fun a => a.1.1 ∉ map f l) (textAttributes row)).
Proof.
  revert row. induction l as [|x l IH]; intros row; simpl.
  - unfold withTextAttributes. destruct row as [t a m]. simpl. f_equal.
    symmetry. apply filter_all, Forall_forall. intros a0 _. apply not_elem_of_nil.
  - unfold mbind, RowM_bind. simpl.
    specialize (IH (withTextAttributes row
                      (filter (fun a => a.1.1 <> f x) (textAttributes row)))).
    unfold withTextAttributes in IH at 1.
    destruct (forEach _ l _) as [[u r] lg]. simpl in *. rewrite IH.
    unfold withTextAttributes. simpl. f_equal.
    rewrite list_filter_filter. apply list_filter_iff. intros a.
    rewrite not_elem_of_cons. tauto.
Qed.

Lemma bind_rowAfter {A B : Type} (m : RowM A) (f : A -> RowM B) row :
  ((m ≫= f) row).1.2 = (f (m row).1.1 (m row).1.2).1.2.
Proof.
  unfold mbind, RowM_bind. destruct (m row) as [[x r] l]. simpl.
  destruct (f x r) as [[y r'] l']. reflexivity.
Qed.

Lemma addEach_run tokens row :
  (forEach
     (fun token =>
        let normalized := normalizeTag (tag token) in
        textAddAttribute "biketag" (start token) (end_ token);;
        let colorIndex := stableIndexForTag normalized COLOR_COUNT in
        textAddAttribute ("bt-color-" +:+ pretty colorIndex)
                         (start token) (end_ token))
     tokens row).1.2
  = withTextAttributes row (textAttributes row ++ chipsOf tokens).
Proof.
  revert row. induction tokens as [|t tokens IH]; intros row.
  - unfold withTextAttributes. simpl. rewrite app_nil_r.
    destruct row; reflexivity.
  - cbn [forEach]. rewrite bind_rowAfter. cbv beta. rewrite IH.
    unfold withTextAttributes. cbn [chipsOf flat_map].
    rewrite bind_rowAfter. cbn. rewrite <- !app_assoc. reflexivity.
Qed.

(** The marker part of a run: the old chip markers go, the chips of the
    tokens come, nothing else changes. *)
Lemma rewriteMarkers_run tokens row :
  (rewriteMarkers tokens row).1.2
  = withTextAttributes row
      (filter (fun a => isTagMarker a.1.1 = false) (textAttributes row)
       ++ chipsOf tokens).
Proof.
  unfold rewriteMarkers. rewrite bind_rowAfter. cbv beta.
  rewrite bind_rowAfter. cbv beta.
  rewrite addEach_run, removeEach_run.
  unfold withTextAttributes. cbn [text attributes textAttributes].
  change (textRemoveAttribute "biketag" row).1.2
    with (withTextAttributes row
            (filter (fun a => a.1.1 <> "biketag"%string) (textAttributes row))).
  unfold withTextAttributes. cbn [text attributes textAttributes].
  f_equal. f_equal. rewrite list_filter_filter. apply list_filter_iff.
  intros a. rewrite isTagMarker_false. tauto.
Qed.

Lemma chipsOf_markers tokens :
  Forall (fun a => isTagMarker a.1.1 = true) (chipsOf tokens).
Proof.
  induction tokens as [|t tokens IH]; simpl; [constructor|].
  constructor; [reflexivity|]. constructor; [|exact IH].
  apply isTagMarker_color.
Qed.

Lemma filter_nonmarkers_chips tokens :
  filter (fun a => isTagMarker a.1.1 = false) (chipsOf tokens) = [].
Proof.
  apply filter_none. eapply Forall_impl; [apply chipsOf_markers|].
  simpl. intros a Ha. congruence.
Qed.

(** The row a run leaves when the tokens are not empty and the stored set
    differs from the derived one. *)
Lemma applyTags_changed_row row :
  findTrailingTags (text row) <> [] ->
  truthy (persistedTags row)
  && existingEq (default [] (persistedTags row)) (candidateSet (text row))
  = false ->
  rowAfter applyTags row
  = {| text := text row;
       attributes :=
         <[TAGS_ATTR_OLD := JSON_stringify (candidateSet (text row))]>
           (<[TAGS_ATTR_NEW := JSON_stringify (candidateSet (text row))]>
              (attributes row));
       textAttributes :=
         filter (fun a => isTagMarker a.1.1 = false) (textAttributes row)
         ++ chipsOf (findTrailingTags (text row)) |}.
Proof.
  intros Htok Hgate. unfold rowAfter.
  rewrite (applyTags_tokens _ _ _ row Htok), Hgate.
  unfold mbind, RowM_bind.
  pose proof (rewriteMarkers_run (findTrailingTags (text row)) row) as Hrw.
  destruct (rewriteMarkers (findTrailingTags (text row)) row) as [[u r1] l1].
  simpl in Hrw. subst r1. reflexivity.
Qed.

(** X7.  Whatever the row and whatever JSON does, a run of the updater
    leaves the text of the row as it is, every row attribute other than
    [bt-tags] and [data-bt-tags] as it is, and every text attribute that is
    not a chip marker ([biketag], [bt-color-0] ... [bt-color-7]) in place
    and in order. *)
Theorem applyTagsToRow_confined (row : Row) :
  let row' := rowAfter applyTags row in
  text row' = text row /\
  (forall name, name <> TAGS_ATTR_NEW -> name <> TAGS_ATTR_OLD ->
                attributes row' !! name = attributes row !! name) /\
  filter (fun a => isTagMarker a.1.1 = false) (textAttributes row')
  = filter (fun a => isTagMarker a.1.1 = false) (textAttributes row).
Proof.
  intros row'. subst row'.
  destruct (findTrailingTags (text row)) as [|t ts] eqn:Et.
  - unfold rowAfter. rewrite (applyTags_no_tokens _ _ _ row Et).
    destruct (truthy (persistedTags row)); simpl.
    + split; [reflexivity|]. split; [|reflexivity].
      intros name H1 H2. rewrite !lookup_delete_ne by congruence. reflexivity.
    + auto.
  - assert (Htok : findTrailingTags (text row) <> []) by (rewrite Et; discriminate).
    destruct (truthy (persistedTags row)
              && existingEq (default [] (persistedTags row))
                            (candidateSet (text row))) eqn:Eg.
    + unfold rowAfter. rewrite (applyTags_tokens _ _ _ row Htok), Eg. simpl. auto.
    + rewrite (applyTags_changed_row row Htok Eg). simpl.
      split; [reflexivity|]. split.
      * intros name H1 H2. rewrite !lookup_insert_ne by congruence. reflexivity.
      * rewrite filter_app, filter_nonmarkers_chips, app_nil_r.
        rewrite list_filter_filter. apply list_filter_iff. tauto.
Qed.

(** X8.  On a row with trailing tags whose stored set differs from the
    derived one (or is missing or unreadable), a run stores the JSON text
    of the derived set under both keys, and the chip markers on the text
    are afterwards exactly the two markers of each token, in the order of
    the tokens: no chip of an earlier run is left. *)
Theorem applyTagsToRow_rewrites_chips (row : Row) :
  findTrailingTags (text row) <> [] ->
  truthy (persistedTags row)
  && existingEq (default [] (persistedTags row)) (candidateSet (text row))
  = false ->
  let row' := rowAfter applyTags row in
  attributes row' !! TAGS_ATTR_NEW
  = Some (JSON_stringify (candidateSet (text row))) /\
  attributes row' !! TAGS_ATTR_OLD
  = Some (JSON_stringify (candidateSet (text row))) /\
  filter (fun a => isTagMarker a.1.1 = true) (textAttributes row')
  = chipsOf (findTrailingTags (text row)).
Proof.
  intros Htok Hgate row'. subst row'.
  rewrite (applyTags_changed_row row Htok Hgate). simpl.
  split; [|split].
  - rewrite lookup_insert_ne by discriminate. apply lookup_insert_eq.
  - apply lookup_insert_eq.
  - rewrite filter_app, list_filter_filter.
    rewrite (filter_none _ (textAttributes row)), app_nil_l.
    + apply filter_all, chipsOf_markers.
    + apply Forall_forall. intros a Ha [H1 H2]. congruence.
Qed.

End UpdaterEffects.

(** ** When the updater does nothing *)

Section UpdaterGate.
Context {other : Type} `{EqDecision other}.
Variable otherToString : other -> jsstring.
Variable JSON_parse : jsstring -> option (json other).
Variable JSON_stringify : list jsstring -> jsstring.

Local Abbreviation applyTags :=
  (applyTagsToRow otherToString JSON_parse JSON_stringify).
Local Abbreviation existingEq := (existingEquals otherToString JSON_parse).

Lemma arraysEqualLoop_exact (a : list (jsvalue other)) (b : list jsstring) :
  length a = length b ->
  arraysEqualLoop a b = true <-> a = map VString b.
Proof.
  revert b. induction a as [|x a IH]; intros [|y b]; simpl; try discriminate.
  - intros _. split; reflexivity.
  - intros [= Hlen]. destruct x as [s|o]; simpl.
    + destruct (jsEqb s y) eqn:E; simpl.
      * apply jsEqb_eq in E. subst. rewrite (IH b Hlen). split; congruence.
      * split; [discriminate|]. intros [= -> _]. rewrite jsEqb_refl in E. discriminate.
    + split; discriminate.
Qed.

Lemma arraysEqual_exact (a : list (jsvalue other)) (b : list jsstring) :
  arraysEqual a b = true <-> a = map VString b.
Proof.
  unfold arraysEqual. destruct (Nat.eqb_spec (length a) (length b)) as [Hl|Hl]; simpl.
  - apply arraysEqualLoop_exact, Hl.
  - split; [discriminate|]. intros ->. rewrite length_map in Hl. congruence.
Qed.

Lemma all_strings (elems : list (jsvalue other)) (l : list jsstring) :
  Permutation elems (map VString l) -> exists l', elems = map VString l'.
Proof.
  intros Hp.
  assert (Hall : Forall (fun v => exists s, v = VString s) elems).
  { apply Forall_forall. intros v Hv. rewrite Hp in Hv.
    apply list_elem_of_In, in_map_iff in Hv as (s & <- & _). eauto. }
  clear Hp. induction Hall as [|v elems [s ->] _ [l' ->]].
  - exists []. reflexivity.
  - exists (s :: l'). reflexivity.
Qed.

Lemma VString_inj_list (l1 l2 : list jsstring) :
  map (@VString other) l1 = map VString l2 -> l1 = l2.
Proof.
  revert l2. induction l1 as [|x l1 IH]; intros [|y l2]; simpl;
    try discriminate; [reflexivity|].
  intros [= -> H]. f_equal. apply IH, H.
Qed.

(** The comparison of the updater answers "equal" exactly when JSON reads
    the stored text as an array of strings that sorts to the new set. *)
Lemma existingEquals_exact raw newSet :
  existingEq raw newSet = true
  <-> exists existing,
        JSON_parse raw = Some (JArray (map VString existing)) /\
        sort existing = newSet.
Proof.
  split.
  - unfold existingEquals.
    destruct (JSON_parse raw) as [[elems|]|]; try discriminate.
    intros Heq. apply arraysEqual_exact in Heq.
    destruct (all_strings elems newSet) as [existing ->].
    { rewrite <- Heq. apply sortBy_Permutation. }
    exists existing. split; [reflexivity|].
    rewrite sortBy_VString in Heq. apply VString_inj_list, Heq.
  - intros (existing & Hp & Hs). eapply existingEquals_strings; eassumption.
Qed.

Lemma sort_strict l :
  NoDup l -> StronglySorted (fun a b => jsLtb a b = true) (sort l).
Proof.
  intros Hnd. apply inOrder_strict.
  - apply sortBy_inOrder, defaultCompare_flip.
  - unfold sort. rewrite <- (sortBy_Permutation defaultCompare). exact Hnd.
Qed.

(** Sorting an array gives the derived set exactly when the array is a
    reordering of the derived set. *)
Lemma sort_candidateSet existing s :
  sort existing = candidateSet s <-> Permutation existing (candidateSet s).
Proof.
  split.
  - intros <-. apply sortBy_Permutation.
  - intros Hp.
    apply (StronglySorted_unique_strong (fun a b => jsLtb a b = true)).
    + intros x1 x2 _ _ H1 H2. pose proof (jsLtb_trans _ _ _ H1 H2) as H3.
      rewrite jsLtb_irrefl in H3. discriminate.
    + apply sort_strict. rewrite Hp. apply candidateSet_NoDup.
    + apply inOrder_strict; [|apply candidateSet_NoDup].
      apply sortBy_inOrder, defaultCompare_flip.
    + rewrite <- Hp. symmetry. apply sortBy_Permutation.
Qed.

Lemma gate_storedSetCurrent row :
  truthy (persistedTags row)
  && existingEq (default [] (persistedTags row)) (candidateSet (text row))
  = true
  <-> storedSetCurrent JSON_parse row.
Proof.
  unfold storedSetCurrent. rewrite andb_true_iff, existingEquals_exact. split.
  - intros [Ht (existing & Hp & Hs)].
    destruct (persistedTags row) as [[|c raw]|]; try discriminate.
    exists (c :: raw), existing. simpl in Hp.
    split; [reflexivity|]. split; [discriminate|]. split; [exact Hp|].
    apply sort_candidateSet, Hs.
  - intros (raw & existing & -> & Hne & Hp & Hperm).
    destruct raw as [|c raw]; [congruence|]. split; [reflexivity|].
    exists existing. split; [exact Hp | apply sort_candidateSet, Hperm].
Qed.

Lemma bind_log {A B : Type} (m : RowM A) (f : A -> RowM B) row :
  ((m ≫= f) row).2 = (m row).2 ++ (f (m row).1.1 (m row).1.2).2.
Proof.
  unfold mbind, RowM_bind. destruct (m row) as [[x r] l]. simpl.
  destruct (f x r) as [[y r'] l']. reflexivity.
Qed.

(** X9.  A run of the updater makes no mutating call exactly in two
    cases: the row has no trailing tag and no non-empty stored value; or it
    has trailing tags and its stored value is read by JSON as an array of
    strings that is a reordering of the derived set.  The order in which
    the stored array lists the tags does not matter. *)
Theorem applyTagsToRow_skips_iff (row : Row) :
  mutationsOf applyTags row = []
  <-> (findTrailingTags (text row) = [] /\ truthy (persistedTags row) = false)
      \/ (findTrailingTags (text row) <> [] /\ storedSetCurrent JSON_parse row).
Proof.
  unfold mutationsOf.
  destruct (findTrailingTags (text row)) as [|t ts] eqn:Et.
  - rewrite (applyTags_no_tokens _ _ _ row Et).
    destruct (truthy (persistedTags row)); simpl.
    + split; [discriminate|]. intros [[_ H]|[H _]]; congruence.
    + split; [auto | reflexivity].
  - assert (Htok : findTrailingTags (text row) <> []) by (rewrite Et; discriminate).
    rewrite (applyTags_tokens _ _ _ row Htok).
    rewrite <- gate_storedSetCurrent.
    destruct (truthy (persistedTags row) && _) eqn:Eg.
    + simpl. split; [intros _; right; split; [discriminate | reflexivity] | reflexivity].
    + split.
      * rewrite bind_log. unfold rewriteMarkers. rewrite bind_log. discriminate.
      * intros [[H _]|[_ H]]; discriminate.
Qed.

Lemma applyTags_skip row :
  (findTrailingTags (text row) = [] /\ truthy (persistedTags row) = false)
  \/ (findTrailingTags (text row) <> [] /\ storedSetCurrent JSON_parse row) ->
  applyTags row = (tt, row, []).
Proof.
  intros [[Et Hp]|[Htok Hs]].
  - rewrite (applyTags_no_tokens _ _ _ row Et), Hp. reflexivity.
  - rewrite (applyTags_tokens _ _ _ row Htok).
    apply gate_storedSetCurrent in Hs. rewrite Hs. reflexivity.
Qed.

(** The row a run leaves is a row on which a run does nothing. *)
Lemma applyTags_settled row :
  JSON_roundtrip JSON_parse JSON_stringify -> JSON_rejects_empty JSON_parse ->
  applyTags (rowAfter applyTags row) = (tt, rowAfter applyTags row, []).
Proof.
  intros Hrt Hne. apply applyTags_skip.
  destruct (findTrailingTags (text row)) as [|t ts] eqn:Et.
  - left. unfold rowAfter. rewrite (applyTags_no_tokens _ _ _ row Et).
    destruct (truthy (persistedTags row)) eqn:Ep; simpl.
    + split; [exact Et|]. unfold persistedTags. simpl.
      rewrite lookup_delete_ne by discriminate.
      rewrite !lookup_delete_eq. reflexivity.
    + auto.
  - assert (Htok : findTrailingTags (text row) <> []) by (rewrite Et; discriminate).
    right.
    destruct (truthy (persistedTags row)
              && existingEq (default [] (persistedTags row))
                            (candidateSet (text row))) eqn:Eg.
    + unfold rowAfter. rewrite (applyTags_tokens _ _ _ row Htok), Eg. simpl.
      split; [exact Htok | apply gate_storedSetCurrent, Eg].
    + rewrite (applyTags_changed_row _ _ _ row Htok Eg). simpl.
      split; [exact Htok|]. unfold storedSetCurrent, persistedTags. simpl.
      rewrite lookup_insert_ne by discriminate. rewrite lookup_insert_eq.
      exists (JSON_stringify (candidateSet (text row))), (candidateSet (text row)).
      split; [reflexivity|]. split.
      * intros E. specialize (Hrt (candidateSet (text row))).
        rewrite E in Hrt. congruence.
      * split; [apply Hrt | reflexivity].
Qed.

Lemma forRowsFrom_fixed (body : RowM unit) rows position :
  Forall (fun row => body row = (tt, row, [])) rows ->
  forRowsFrom position body rows = (rows, []).
Proof.
  intros H. revert position.
  induction H as [|row rows Hrow _ IH]; intros position; simpl; [reflexivity|].
  rewrite Hrow, IH. reflexivity.
Qed.

Lemma forRowsFrom_rows (body : RowM unit) rows position :
  (forRowsFrom position body rows).1 = map (rowAfter body) rows.
Proof.
  revert position. induction rows as [|row rows IH]; intros position; simpl;
    [reflexivity|].
  unfold rowAfter at 1. destruct (body row) as [[u r] l].
  specialize (IH (S position)).
  destruct (forRowsFrom (S position) body rows) as [rows' log'].
  simpl in *. rewrite IH. reflexivity.
Qed.

(** X10.  The Apply Tags command returns [false] and does nothing without
    an editor; with an editor it returns [true] and leaves each row as a
    run of the updater on that row alone leaves it; and with a JSON that
    reads back the arrays it writes, running the command a second time
    makes no mutating call and changes nothing. *)
Theorem applyTagsCommand_settles (context : CommandContext) :
  JSON_roundtrip JSON_parse JSON_stringify -> JSON_rejects_empty JSON_parse ->
  let run := applyTagsCommand otherToString JSON_parse JSON_stringify in
  (editor context = None -> run context = (false, context, [])) /\
  (forall ed, editor context = Some ed ->
     (run context).1.1 = true /\
     exists ed', editor (run context).1.2 = Some ed' /\
       outline ed' = map (rowAfter applyTags) (outline ed) /\
       selection ed' = selection ed /\ editorFilter ed' = editorFilter ed) /\
  run (run context).1.2 = ((run context).1.1, (run context).1.2, []).
Proof.
  intros Hrt Hne run. subst run. unfold applyTagsCommand.
  destruct (editor context) as [ed|] eqn:Eed.
  - split; [discriminate|].
    pose proof (forRowsFrom_rows applyTags (outline ed) 0) as Hrows.
    unfold forRows.
    destruct (forRowsFrom 0 applyTags (outline ed)) as [rows log].
    simpl in Hrows. subst rows. cbn [fst snd editor outline].
    split.
    + intros ed0 [= <-]. split; [reflexivity|].
      eexists. split; [reflexivity|]. auto.
    + rewrite forRowsFrom_fixed; [reflexivity|].
      apply Forall_forall. intros r Hr.
      apply list_elem_of_In, in_map_iff in Hr as (row & <- & _).
      apply applyTags_settled; assumption.
  - split; [reflexivity|]. split; [discriminate|].
    simpl. rewrite Eed. reflexivity.
Qed.

End UpdaterGate.

(** ** The filter commands *)

Section FilterCommands.
Context {other : Type} `{EqDecision other}.
Variable JSON_parse : jsstring -> option (json other).

Lemma filterRowCommand_run target row :
  (filterRowCommand JSON_parse target row).1.2
  = filteredRow (rowMatches JSON_parse target row) row.
Proof.
  unfold filterRowCommand. rewrite bind_rowAfter, getRowTagsAttribute_run.
  cbn [fst snd]. fold (rowMatches JSON_parse target row).
  destruct (rowMatches JSON_parse target row); reflexivity.
Qed.

Lemma someMatches_ancestor target p rest (list : list (jsvalue other)) :
  target = p ++ SLASH :: rest ->
  someMatches target list = Some true -> someMatches p list = Some true.
Proof.
  intros ->. induction list as [|[t|o] list IH]; simpl; try discriminate.
  destruct (jsEqb t (p ++ SLASH :: rest)
            || startsWith t ((p ++ SLASH :: rest) ++ [SLASH])) eqn:E.
  - intros _.
    assert (Hp : startsWith t (p ++ [SLASH]) = true).
    { apply startsWith_spec. apply orb_true_iff in E as [E|E].
      - apply jsEqb_eq in E. subst t. exists rest.
        rewrite <- app_assoc. reflexivity.
      - apply startsWith_spec in E as [r ->]. exists (rest ++ [SLASH] ++ r).
        rewrite <- !app_assoc. reflexivity. }
    rewrite Hp, orb_true_r. reflexivity.
  - intros H. destruct (jsEqb t p || startsWith t (p ++ [SLASH]));
      [reflexivity | apply IH, H].
Qed.

(** X11.  Filtering by an ancestor keeps every row that filtering by the
    tag keeps: a row that the filter marks for a target is also marked
    for each proper prefix path of the target, whatever the row stores. *)
Theorem filter_by_ancestor_keeps (row : Row) (target p : jsstring) :
  p ∈ prefixesBeforeSlash target ->
  attributes (rowAfter (filterRowCommand JSON_parse target) row)
    !! FILTER_ATTR_NEW = Some (js "1") ->
  attributes (rowAfter (filterRowCommand JSON_parse p) row)
    !! FILTER_ATTR_NEW = Some (js "1").
Proof.
  intros Hp. apply prefixesBeforeSlash_spec in Hp as [rest Ht].
  unfold rowAfter. rewrite !filterRowCommand_run.
  assert (Hm : rowMatches JSON_parse target row = true ->
               rowMatches JSON_parse p row = true).
  { unfold rowMatches. destruct (truthy (persistedTags row)); [|auto].
    destruct (JSON_parse _) as [[list|]|]; try discriminate.
    destruct (someMatches target list) as [[|]|] eqn:E; try discriminate.
    rewrite (someMatches_ancestor target p rest list Ht E). reflexivity. }
  destruct (rowMatches JSON_parse target row).
  - rewrite (Hm eq_refl). auto.
  - simpl. rewrite lookup_delete_ne by discriminate.
    rewrite lookup_delete_eq. discriminate.
Qed.

Lemma forRows_filter target rows :
  (forRows (filterRowCommand JSON_parse target) rows).1
  = map (fun row => filteredRow (rowMatches JSON_parse target row) row) rows.
Proof.
  unfold forRows. rewrite forRowsFrom_rows. apply map_ext.
  intros row. apply filterRowCommand_run.
Qed.

Lemma forRows_clear rows :
  (forRows removeRowFilterAttribute rows).1 = map (filteredRow false) rows.
Proof. unfold forRows. rewrite forRowsFrom_rows. reflexivity. Qed.

Lemma filteredRow_clear marked row :
  unfiltered row -> filteredRow false (filteredRow marked row) = row.
Proof.
  intros [Hn Ho]. unfold filteredRow, withAttributes. destruct row as [t a m].
  simpl in *. f_equal. apply map_eq. intros k.
  destruct (decide (k = FILTER_ATTR_OLD)) as [->|Hko].
  - rewrite lookup_delete_eq. auto.
  - rewrite lookup_delete_ne by congruence.
    destruct (decide (k = FILTER_ATTR_NEW)) as [->|Hkn].
    + rewrite lookup_delete_eq. auto.
    + rewrite lookup_delete_ne by congruence.
      destruct marked.
      * rewrite !lookup_insert_ne by congruence. reflexivity.
      * rewrite !lookup_delete_ne by congruence. reflexivity.
Qed.

Lemma filterByTagCommand_run (ed : Editor) (target : jsstring) :
  target <> [] ->
  exists log,
    filterByTagCommand JSON_parse
      {| editor := Some ed; contextTag := Some target |}
    = (true,
       {| editor :=
            Some {| outline :=
                      map (fun row =>
                             filteredRow (rowMatches JSON_parse target row) row)
                          (outline ed);
                    selection := selection ed;
                    editorFilter := js "//@bt-filter" |};
          contextTag := Some target |},
       log).
Proof.
  intros Hne. destruct target as [|c target']; [congruence|].
  unfold filterByTagCommand.
  cbn [editor contextTag truthy negb default from_option id].
  pose proof (forRows_filter (c :: target') (outline ed)) as Hrows.
  destruct (forRows _ (outline ed)) as [rows log]. simpl in Hrows. subst rows.
  eexists. reflexivity.
Qed.

(** X12.  With an editor and a tag argument the filter command returns
    [true], sets [editor.filter] to the filter path, and leaves each row
    with its text, its text attributes and every attribute other than the
    two filter keys as they were; the two filter keys are both [1] on the
    rows whose stored tags match the target and both absent on the
    others. *)
Theorem filterByTagCommand_marks_rows (ed : Editor) (target : jsstring) :
  target <> [] ->
  let result :=
    filterByTagCommand JSON_parse
      {| editor := Some ed; contextTag := Some target |} in
  result.1.1 = true /\
  editor result.1.2
  = Some {| outline :=
              map (fun row => filteredRow (rowMatches JSON_parse target row) row)
                  (outline ed);
            selection := selection ed;
            editorFilter := js "//@bt-filter" |} /\
  (forall row,
      let row' := filteredRow (rowMatches JSON_parse target row) row in
      text row' = text row /\ textAttributes row' = textAttributes row /\
      (forall name, name <> FILTER_ATTR_NEW -> name <> FILTER_ATTR_OLD ->
                    attributes row' !! name = attributes row !! name) /\
      attributes row' !! FILTER_ATTR_NEW = attributes row' !! FILTER_ATTR_OLD /\
      (attributes row' !! FILTER_ATTR_NEW = Some (js "1")
       <-> rowMatches JSON_parse target row = true) /\
      (attributes row' !! FILTER_ATTR_NEW = None
       <-> rowMatches JSON_parse target row = false)).
Proof.
  intros Hne result. subst result.
  destruct (filterByTagCommand_run ed target Hne) as [log ->]. cbn [fst snd editor].
  split; [reflexivity|]. split; [reflexivity|].
  intros row. unfold filteredRow, withAttributes. simpl.
  split; [reflexivity|]. split; [reflexivity|].
  destruct (rowMatches JSON_parse target row).
  - split.
    { intros name H1 H2. rewrite !lookup_insert_ne by congruence. reflexivity. }
    rewrite lookup_insert_eq, lookup_insert_ne by discriminate.
    rewrite lookup_insert_eq.
    split; [reflexivity|]. split; split; auto; discriminate.
  - split.
    { intros name H1 H2. rewrite !lookup_delete_ne by congruence. reflexivity. }
    rewrite lookup_delete_eq, lookup_delete_ne by discriminate.
    rewrite lookup_delete_eq.
    split; [reflexivity|]. split; split; auto; discriminate.
Qed.

(** X13.  Clearing the filter undoes filtering: on an outline whose rows
    carry no filter attribute, the filter command followed by the Clear
    Filter command gives back every row as it was and leaves
    [editor.filter] empty.  Without an editor Clear Filter returns [false]
    and does nothing. *)
Theorem clearFilterCommand_undoes_filter (ed : Editor) (target : jsstring) :
  target <> [] ->
  Forall unfiltered (outline ed) ->
  let filtered :=
    filterByTagCommand JSON_parse
      {| editor := Some ed; contextTag := Some target |} in
  let cleared := clearFilterCommand filtered.1.2 in
  cleared.1.1 = true /\
  editor cleared.1.2
  = Some {| outline := outline ed;
            selection := selection ed;
            editorFilter := [] |} /\
  clearFilterCommand {| editor := None; contextTag := Some target |}
  = (false, {| editor := None; contextTag := Some target |}, []).
Proof.
  intros Hne Hun filtered cleared. subst cleared filtered.
  destruct (filterByTagCommand_run ed target Hne) as [flog ->]. cbn [fst snd].
  unfold clearFilterCommand. cbn [editor outline selection].
  pose proof (forRows_clear
                (map (fun row => filteredRow (rowMatches JSON_parse target row) row)
                     (outline ed))) as Hrows.
  destruct (forRows removeRowFilterAttribute _) as [rows log].
  simpl in Hrows. subst rows. cbn [fst snd editor].
  split; [reflexivity|]. split; [|reflexivity].
  f_equal. f_equal. rewrite map_map.
  induction Hun as [|row rows Hrow _ IH]; [reflexivity|].
  simpl. rewrite (filteredRow_clear _ row Hrow), IH. reflexivity.
Qed.

End FilterCommands.

(** ** The tag under the caret *)

Section CaretTag.

Lemma spansOrdered_nonneg lo hi tokens :
  spansOrdered lo hi tokens ->
  Forall (fun t => (start t <= end_ t)%Z) tokens.
Proof.
  revert lo. induction tokens as [|t rest IH]; intros lo H; constructor.
  - simpl in H. tauto.
  - simpl in H. eapply IH. apply H.
Qed.

Lemma tagUnderIndex_find index tokens :
  Forall (fun t => (start t <= end_ t)%Z) tokens ->
  tagUnderIndex index tokens
  = option_map (fun t => normalizeTag (tag t)) (find (covers index) tokens).
Proof.
  induction 1 as [|t rest Ht _ IH]; [reflexivity|].
  cbn [tagUnderIndex find]. unfold covers at 1.
  destruct (Z.leb_spec (start t) index), (Z.ltb_spec index (end_ t)),
    (Z.eqb_spec index (end_ t)), (Z.leb_spec index (end_ t)),
    (Z.ltb_spec 0 index), (Z.leb_spec (start t) (index - 1)),
    (Z.ltb_spec (index - 1) (end_ t));
    cbn [andb orb option_map]; try reflexivity; try exact IH; lia.
Qed.

(** X14.  The tag of a selection is the normalised tag of the first token
    whose span contains the caret index, both ends included; the second
    test of the loop, on the character left of the caret, never decides: a
    block selection, a row without tokens and a caret outside every span
    give no tag. *)
Theorem tagFromSelection_first_covering (selection : Selection) :
  tagFromSelection selection
  = match caretCharIndex selection with
    | None => None
    | Some index =>
        option_map (fun t => normalizeTag (tag t))
          (find (covers index)
                (findTrailingTags (text (selectionRow selection))))
    end.
Proof.
  unfold tagFromSelection.
  destruct (findTrailingTags (text (selectionRow selection))) as [|t rest] eqn:E.
  - simpl. destruct (caretCharIndex selection); reflexivity.
  - cbn [length Nat.eqb]. destruct (caretCharIndex selection) as [index|];
      [|reflexivity].
    apply tagUnderIndex_find. rewrite <- E.
    eapply spansOrdered_nonneg, findTrailingTags_ordered.
Qed.

Lemma spansOrdered_find lo hi tokens t index :
  spansOrdered lo hi tokens ->
  t ∈ tokens ->
  (start t < index <= end_ t)%Z ->
  exists t', find (covers index) tokens = Some t' /\ tag t' = tag t.
Proof.
  revert lo. induction tokens as [|t0 rest IH]; intros lo Hord Hin Hidx.
  - inversion Hin.
  - simpl in Hord. destruct Hord as (Hlo & Hse & Hrest).
    simpl. unfold covers at 1.
    apply elem_of_cons in Hin as [->|Hin].
    + exists t0. split; [|reflexivity].
      replace (start t0 <=? index)%Z with true by (symmetry; apply Z.leb_le; lia).
      replace (index <=? end_ t0)%Z with true by (symmetry; apply Z.leb_le; lia).
      reflexivity.
    + assert (Hlow : (end_ t0 <= start t)%Z).
      { clear IH Hidx. revert Hrest Hin. generalize (end_ t0).
        induction rest as [|t1 rest IH]; intros z Hrest Hin; [inversion Hin|].
        simpl in Hrest. destruct Hrest as (H1 & H2 & H3).
        apply elem_of_cons in Hin as [->|Hin]; [exact H1|].
        specialize (IH _ H3 Hin). lia. }
      replace (index <=? end_ t0)%Z with false
        by (symmetry; apply Z.leb_gt; lia).
      rewrite andb_false_r. eapply IH; eauto.
Qed.

(** X15.  A caret or the head of a text selection that stands inside a tag
    run, after its first position and up to its end, selects that tag:
    the tag text of the token, unchanged by normalisation. *)
Theorem tagFromSelection_inside (selection : Selection) (index : Z)
        (t : TagToken) :
  caretCharIndex selection = Some index ->
  t ∈ findTrailingTags (text (selectionRow selection)) ->
  (start t < index <= end_ t)%Z ->
  tagFromSelection selection = Some (tag t).
Proof.
  intros Hc Hin Hidx. unfold tagFromSelection. rewrite Hc.
  destruct (findTrailingTags (text (selectionRow selection)))
    as [|t0 rest] eqn:E; [inversion Hin|].
  cbn [length Nat.eqb].
  pose proof (findTrailingTags_ordered (text (selectionRow selection))) as Hord.
  rewrite E in Hord.
  rewrite tagUnderIndex_find by (eapply spansOrdered_nonneg, Hord).
  destruct (spansOrdered_find _ _ _ t index Hord Hin Hidx) as (t' & -> & Ht').
  simpl. f_equal.
  assert (Hin' : t ∈ findTrailingTags (text (selectionRow selection)))
    by (rewrite E; exact Hin).
  destruct (findTrailingTags_normal _ _ Hin') as [Hn _].
  rewrite Ht'. exact Hn.
Qed.

End CaretTag.

(** ** The default target of the filter command *)

Section DefaultTarget.
Context {other : Type} `{EqDecision other}.
Variable JSON_parse : jsstring -> option (json other).

Lemma token_tag_truthy s t :
  t ∈ findTrailingTags s ->
  normalizeTag (tag t) = tag t /\ truthy (Some (tag t)) = true.
Proof.
  intros Hin. destruct (findTrailingTags_normal s t Hin) as [Hn _].
  split; [exact Hn|].
  destruct (normalizeTag_hash (tag t)) as [rest Hr].
  rewrite Hn in Hr. rewrite Hr. reflexivity.
Qed.

Lemma find_elem_of {A} (f : A -> bool) (l : list A) (x : A) :
  find f l = Some x -> x ∈ l.
Proof.
  induction l as [|y l IH]; simpl; [discriminate|].
  destruct (f y); [intros [= ->]; left | intros H; right; auto].
Qed.

Lemma filterByTagCommand_target (ed : Editor) (sel : Selection)
      (target : jsstring) :
  selection ed = Some sel ->
  truthy (Some target) = true ->
  orElse (tagFromSelection sel) (lastTrailingTag (selectionRow sel))
  = Some target ->
  (filterByTagCommand JSON_parse
     {| editor := Some ed; contextTag := None |}).1.1 = true /\
  editor (filterByTagCommand JSON_parse
            {| editor := Some ed; contextTag := None |}).1.2
  = editor (filterByTagCommand JSON_parse
              {| editor := Some ed; contextTag := Some target |}).1.2.
Proof.
  intros Hsel Ht Hor. unfold filterByTagCommand.
  cbn [editor contextTag]. rewrite Hsel, Hor.
  destruct target as [|c target']; [discriminate|].
  cbn [truthy negb default from_option id].
  destruct (forRows _ (outline ed)) as [rows log]. split; reflexivity.
Qed.

(** X16.  Run without a tag argument on an editor with a selection, the
    filter command takes its target from the selected row: when the row
    has no trailing tag it returns [false] and changes nothing; otherwise
    it returns [true] and filters exactly as if it had been given the tag
    of one of the row's tokens, which is the last token whenever the
    selection gives no tag of its own. *)
Theorem filterByTagCommand_selection_target (ed : Editor) (sel : Selection) :
  selection ed = Some sel ->
  let tokens := findTrailingTags (text (selectionRow sel)) in
  let context := {| editor := Some ed; contextTag := None |} in
  match last tokens with
  | None => filterByTagCommand JSON_parse context = (false, context, [])
  | Some final =>
      exists t,
        t ∈ tokens /\
        (tagFromSelection sel = None -> t = final) /\
        (filterByTagCommand JSON_parse context).1.1 = true /\
        editor (filterByTagCommand JSON_parse context).1.2
        = editor (filterByTagCommand JSON_parse
                    {| editor := Some ed; contextTag := Some (tag t) |}).1.2
  end.
Proof.
  intros Hsel tokens context. subst tokens context.
  destruct (last (findTrailingTags (text (selectionRow sel))))
    as [final|] eqn:El.
  - assert (Hfin : final ∈ findTrailingTags (text (selectionRow sel))).
    { apply last_Some in El as [l' ->]. apply elem_of_app. right. left. }
    destruct (tagFromSelection sel) as [g|] eqn:Eg.
    + pose proof Eg as Eg0. unfold tagFromSelection in Eg.
      destruct (findTrailingTags (text (selectionRow sel))) as [|t0 rest] eqn:E;
        [inversion Hfin|].
      cbn [length Nat.eqb] in Eg.
      destruct (caretCharIndex sel) as [index|]; [|discriminate].
      pose proof (findTrailingTags_ordered (text (selectionRow sel))) as Hord.
      rewrite E in Hord.
      rewrite tagUnderIndex_find in Eg by (eapply spansOrdered_nonneg, Hord).
      destruct (find (covers index) (t0 :: rest)) as [t|] eqn:Ef;
        [|discriminate].
      apply find_elem_of in Ef. injection Eg as <-.
      assert (Hin : t ∈ findTrailingTags (text (selectionRow sel)))
        by (rewrite E; exact Ef).
      destruct (token_tag_truthy _ _ Hin) as [Hn Htr].
      exists t. split; [exact Ef|]. split; [discriminate|].
      apply (filterByTagCommand_target ed sel (tag t) Hsel Htr).
      unfold orElse. rewrite Eg0, Hn, Htr. reflexivity.
    + destruct (token_tag_truthy _ _ Hfin) as [Hn Htr].
      exists final. split; [exact Hfin|]. split; [reflexivity|].
      apply (filterByTagCommand_target ed sel (tag final) Hsel Htr).
      unfold orElse. rewrite Eg. cbn [truthy]. unfold lastTrailingTag. rewrite El.
      destruct (findTrailingTags (text (selectionRow sel)));
        [inversion Hfin|].
      cbn [length Nat.eqb option_map]. rewrite Hn. reflexivity.
  - apply last_None in El.
    unfold filterByTagCommand. cbn [editor contextTag truthy].
    rewrite Hsel. unfold tagFromSelection, lastTrailingTag. rewrite El.
    reflexivity.
Qed.

End DefaultTarget.

(** ** The tag index *)

Section TagIndex.
Context {other : Type} `{EqDecision other}.
Variable otherToString : other -> jsstring.
Variable JSON_parse : jsstring -> option (json other).
Variable JSON_stringify : list jsstring -> jsstring.

Local Abbreviation applyTags :=
  (applyTagsToRow otherToString JSON_parse JSON_stringify).
Local Abbreviation existingEq := (existingEquals otherToString JSON_parse).

Lemma indexAllTags_loop rows (acc : list (jsvalue other)) :
  let result :=
    fold_left
      (fun tags row =>
         let raw := attributes row !! "data-bt-tags" in
         if truthy raw then
           match JSON_parse (default [] raw) with
           | Some (JArray list) => fold_left setAdd list tags
           | _ => tags
           end
         else tags)
      rows acc in
  (forall v, v ∈ result
             <-> v ∈ acc \/ exists row list,
                   row ∈ rows /\ legacyList JSON_parse row = Some list /\ v ∈ list) /\
  (NoDup acc -> NoDup result).
Proof.
  revert acc. induction rows as [|row rows IH]; intros acc; simpl.
  - split; [|auto]. intros v. split; [auto|].
    intros [Hv|(row & list & Hin & _)]; [exact Hv | inversion Hin].
  - match goal with |- context [fold_left _ rows ?a] =>
      destruct (IH a) as [IHm IHn] end.
    simpl in IHm, IHn. split.
    + intros v. rewrite IHm. clear IHm IHn IH.
      unfold legacyList.
      destruct (truthy (attributes row !! "data-bt-tags")) eqn:Et.
      * destruct (JSON_parse (default [] (attributes row !! "data-bt-tags")))
          as [[list|]|] eqn:Ep.
        -- rewrite fold_setAdd_elem_of. split.
           ++ intros [[Hv|Hv]|(r & l & Hr & Hl & Hv)]; [auto| |].
              ** right. exists row, list. rewrite Et, Ep.
                 split; [left|]. auto.
              ** right. exists r, l. split; [right; exact Hr|]. auto.
           ++ intros [Hv|(r & l & Hr & Hl & Hv)]; [auto|].
              apply elem_of_cons in Hr as [->|Hr].
              ** rewrite Et, Ep in Hl. injection Hl as <-. auto.
              ** right. eauto.
        -- split.
           ++ intros [Hv|(r & l & Hr & Hl & Hv)]; [auto|].
              right. exists r, l. split; [right; exact Hr|]. auto.
           ++ intros [Hv|(r & l & Hr & Hl & Hv)]; [auto|].
              apply elem_of_cons in Hr as [->|Hr].
              ** rewrite Et, Ep in Hl. discriminate.
              ** right. eauto.
        -- split.
           ++ intros [Hv|(r & l & Hr & Hl & Hv)]; [auto|].
              right. exists r, l. split; [right; exact Hr|]. auto.
           ++ intros [Hv|(r & l & Hr & Hl & Hv)]; [auto|].
              apply elem_of_cons in Hr as [->|Hr].
              ** rewrite Et, Ep in Hl. discriminate.
              ** right. eauto.
      * split.
        -- intros [Hv|(r & l & Hr & Hl & Hv)]; [auto|].
           right. exists r, l. split; [right; exact Hr|]. auto.
        -- intros [Hv|(r & l & Hr & Hl & Hv)]; [auto|].
           apply elem_of_cons in Hr as [->|Hr].
           ++ rewrite Et in Hl. discriminate.
           ++ right. eauto.
    + intros Hacc. apply IHn.
      destruct (truthy (attributes row !! "data-bt-tags")); [|exact Hacc].
      destruct (JSON_parse _) as [[list|]|]; try exact Hacc.
      apply fold_setAdd_NoDup, Hacc.
Qed.

Lemma indexAllTags_elem_of rows v :
  v ∈ indexAllTags JSON_parse rows
  <-> exists row list,
      row ∈ rows /\ legacyList JSON_parse row = Some list /\ v ∈ list.
Proof.
  destruct (indexAllTags_loop rows []) as [Hm _]. unfold indexAllTags.
  rewrite Hm, elem_of_nil. tauto.
Qed.

Lemma indexAllTags_NoDup rows : NoDup (indexAllTags JSON_parse rows).
Proof.
  destruct (indexAllTags_loop rows []) as [_ Hn]. apply Hn, NoDup_nil_2.
Qed.

(** X17.  The tag index holds each value once, and a value is in it
    exactly when it is an element of the array that JSON reads from the
    non-empty [data-bt-tags] text of some row; a row whose text is missing,
    empty, not JSON or not an array adds nothing and does not stop the
    loop. *)
Theorem indexAllTags_members (rows : list Row) :
  NoDup (indexAllTags JSON_parse rows) /\
  forall v, v ∈ indexAllTags JSON_parse rows
            <-> exists row list,
                row ∈ rows /\ legacyList JSON_parse row = Some list /\ v ∈ list.
Proof.
  split; [apply indexAllTags_NoDup | apply indexAllTags_elem_of].
Qed.

End TagIndex.

(** ** From the tagged outline to the sidebar hierarchy *)

Section TaggedOutline.
Context {other : Type} `{EqDecision other}.
Variable otherToString : other -> jsstring.
Variable JSON_parse : jsstring -> option (json other).
Variable JSON_stringify : list jsstring -> jsstring.
Variable localeCompare : jsstring -> jsstring -> Z.
Hypothesis JSON_reads_back : JSON_roundtrip JSON_parse JSON_stringify.
Hypothesis JSON_no_empty : JSON_rejects_empty JSON_parse.

Local Abbreviation applyTags :=
  (applyTagsToRow otherToString JSON_parse JSON_stringify).
Local Abbreviation existingEq := (existingEquals otherToString JSON_parse).

Lemma stringified_truthy l : truthy (Some (JSON_stringify l)) = true.
Proof.
  destruct (JSON_stringify l) as [|c r] eqn:E; [|reflexivity].
  pose proof (JSON_reads_back l) as H. rewrite E, JSON_no_empty in H.
  discriminate.
Qed.

Lemma strings_only (l : list (jsvalue other)) :
  (forall v, v ∈ l -> exists g, v = VString g) ->
  exists tags, l = map VString tags.
Proof.
  induction l as [|v l IH]; intros Hall.
  - exists []. reflexivity.
  - destruct (Hall v) as [g ->]; [left|].
    destruct IH as [tags ->]; [intros w Hw; apply Hall; right; exact Hw|].
    exists (g :: tags). reflexivity.
Qed.

Lemma elem_of_map_VString (g : jsstring) (l : list jsstring) :
  @VString other g ∈ map VString l <-> g ∈ l.
Proof.
  split.
  - intros H. apply list_elem_of_In, in_map_iff in H as (g' & [= ->] & Hg).
    apply list_elem_of_In, Hg.
  - intros H. apply list_elem_of_In, in_map. apply list_elem_of_In, H.
Qed.

Lemma applyTags_row_index row :
  keysAgree row ->
  keysAgree (rowAfter applyTags row) /\
  forall v,
    (exists list, legacyList JSON_parse (rowAfter applyTags row) = Some list
                  /\ v ∈ list)
    <-> exists g, v = VString g /\ g ∈ candidateSet (text row).
Proof.
  intros Hk. unfold keysAgree in Hk.
  destruct (findTrailingTags (text row)) as [|t ts] eqn:Et.
  - assert (Hcs : candidateSet (text row) = []).
    { unfold candidateSet. rewrite Et. reflexivity. }
    rewrite Hcs. unfold rowAfter.
    rewrite (applyTags_no_tokens _ _ _ row Et).
    destruct (truthy (persistedTags row)) eqn:Ep; simpl.
    + split.
      * unfold keysAgree, persistedTags. simpl.
        rewrite lookup_delete_ne by discriminate.
        rewrite !lookup_delete_eq. reflexivity.
      * intros v. unfold legacyList. simpl.
        change (String "d" _) with TAGS_ATTR_OLD.
        rewrite lookup_delete_eq. simpl. split.
        -- intros (list & Hl & _). discriminate.
        -- intros (g & _ & Hg). inversion Hg.
    + split; [exact Hk|].
      intros v. unfold legacyList.
      change (String "d" _) with TAGS_ATTR_OLD. rewrite <- Hk, Ep. split.
      * intros (list & Hl & _). discriminate.
      * intros (g & _ & Hg). inversion Hg.
  - assert (Htok : findTrailingTags (text row) <> [])
      by (rewrite Et; discriminate).
    clear Et.
    destruct (truthy (persistedTags row)
              && existingEq (default [] (persistedTags row))
                            (candidateSet (text row))) eqn:Eg.
    + pose proof Eg as Hs.
      apply (gate_storedSetCurrent otherToString) in Hs
        as (raw & existing & Hraw & Hne & Hparse & Hperm).
      unfold rowAfter.
      rewrite (applyTags_skip otherToString JSON_parse JSON_stringify row)
        by (right; split; [exact Htok|];
            exists raw, existing; auto).
      simpl. split; [exact Hk|].
      intros v. unfold legacyList.
      change (String "d" _) with TAGS_ATTR_OLD. rewrite <- Hk, Hraw.
      destruct raw as [|c raw]; [congruence|]. simpl. rewrite Hparse. split.
      * intros (list & [= <-] & Hv).
        apply list_elem_of_In, in_map_iff in Hv as (g & <- & Hg).
        exists g. split; [reflexivity|]. rewrite <- Hperm.
        apply list_elem_of_In, Hg.
      * intros (g & -> & Hg). eexists. split; [reflexivity|].
        apply elem_of_map_VString. rewrite Hperm. exact Hg.
    + rewrite (applyTags_changed_row otherToString JSON_parse JSON_stringify
                 row Htok Eg).
      split.
      * unfold keysAgree, persistedTags. simpl.
        rewrite lookup_insert_ne by discriminate.
        rewrite !lookup_insert_eq. reflexivity.
      * intros v. unfold legacyList. simpl.
        change (String "d" _) with TAGS_ATTR_OLD.
        rewrite lookup_insert_eq.
        rewrite stringified_truthy. simpl. rewrite JSON_reads_back. split.
        -- intros (list & [= <-] & Hv).
           apply list_elem_of_In, in_map_iff in Hv as (g & <- & Hg).
           exists g. split; [reflexivity | apply list_elem_of_In, Hg].
        -- intros (g & -> & Hg). eexists. split; [reflexivity|].
           apply elem_of_map_VString, Hg.
Qed.

Lemma candidateSet_parentClosed s : parentClosed (candidateSet s).
Proof.
  intros t p Ht Hp. apply (candidateSet_closed s t p Ht).
  apply prefixesBeforeSlash_spec. apply parentOf_slash, Hp.
Qed.

(** X18.  After the Apply Tags command has run on an outline in which, for
    each row, the updater and the index read the same stored value, the
    tag index holds strings only, each once: the members of the derived tag
    sets of the row texts.  That set holds the parent path of each of its
    members, so the hierarchy built from it has a node for each tag path
    and each node is reached from a root. *)
Theorem applyTagsCommand_then_index (ed : Editor) (tagArg : option jsstring) :
  Forall keysAgree (outline ed) ->
  exists ed' tags,
    editor (applyTagsCommand otherToString JSON_parse JSON_stringify
              {| editor := Some ed; contextTag := tagArg |}).1.2 = Some ed' /\
    Forall keysAgree (outline ed') /\
    indexAllTags JSON_parse (outline ed') = map VString tags /\
    NoDup tags /\
    (forall g, g ∈ tags
               <-> exists row, row ∈ outline ed /\ g ∈ candidateSet (text row)) /\
    parentClosed tags /\
    (forall g, g ∈ tags ->
               is_Some (nodeMap (buildState localeCompare tags) !! g) /\
               reachable (buildState localeCompare tags) g).
Proof.
  intros Hk. unfold applyTagsCommand. cbn [editor].
  pose proof (forRowsFrom_rows applyTags (outline ed) 0) as Hrows.
  unfold forRows.
  destruct (forRowsFrom 0 applyTags (outline ed)) as [rows log].
  simpl in Hrows. subst rows. cbn [fst snd editor].
  assert (Hmem : forall v,
             v ∈ indexAllTags JSON_parse (map (rowAfter applyTags) (outline ed))
             <-> exists g, v = VString g /\
                   exists row, row ∈ outline ed /\ g ∈ candidateSet (text row)).
  { intros v. rewrite indexAllTags_elem_of. split.
    - intros (r & list & Hr & Hl & Hv).
      apply list_elem_of_In, in_map_iff in Hr as (row & <- & Hrow).
      apply list_elem_of_In in Hrow.
      rewrite Forall_forall in Hk.
      destruct (applyTags_row_index row (Hk row Hrow)) as [_ Hi].
      destruct (proj1 (Hi v)) as (g & -> & Hg); [eauto|].
      exists g. split; [reflexivity|]. eauto.
    - intros (g & -> & row & Hrow & Hg).
      rewrite Forall_forall in Hk.
      destruct (applyTags_row_index row (Hk row Hrow)) as [_ Hi].
      destruct (proj2 (Hi (VString g))) as (list & Hl & Hv); [eauto|].
      exists (rowAfter applyTags row), list.
      split; [|auto].
      apply list_elem_of_In, in_map. apply list_elem_of_In, Hrow. }
  destruct (strings_only
              (indexAllTags JSON_parse (map (rowAfter applyTags) (outline ed))))
    as [tags Htags].
  { intros v Hv. apply Hmem in Hv as (g & -> & _). eauto. }
  assert (Hin : forall g, g ∈ tags
                  <-> exists row, row ∈ outline ed /\ g ∈ candidateSet (text row)).
  { intros g. rewrite <- elem_of_map_VString, <- Htags, Hmem. split.
    - intros (g' & [= <-] & H'). exact H'.
    - intros H'. eauto. }
  assert (Hclosed : parentClosed tags).
  { intros t p Ht Hp. apply Hin in Ht as (row & Hrow & Ht). apply Hin.
    exists row. split; [exact Hrow|].
    apply (candidateSet_parentClosed (text row) t p Ht Hp). }
  eexists. exists tags. split; [reflexivity|]. cbn [outline].
  split; [|split; [exact Htags|split; [|split; [exact Hin|split; [exact Hclosed|]]]]].
  - apply Forall_forall. intros r Hr.
    apply list_elem_of_In, in_map_iff in Hr as (row & <- & Hrow).
    apply list_elem_of_In in Hrow. rewrite Forall_forall in Hk.
    apply (applyTags_row_index row (Hk row Hrow)).
  - pose proof (indexAllTags_NoDup JSON_parse
                  (map (rowAfter applyTags) (outline ed))) as Hnd.
    rewrite Htags in Hnd. apply NoDup_ListNoDup in Hnd.
    apply NoDup_ListNoDup. apply (NoDup_map_inv _ _ Hnd).
  - intros g Hg.
    pose proof (buildState_inv localeCompare tags) as Hinv. split.
    + apply (inv_nodes _ _ Hinv). left. exact Hg.
    + apply (pathTo_exists tags _ Hinv Hclosed (S (length g)) g); [lia | exact Hg].
Qed.

End TaggedOutline.

(** ** The forest the builder returns *)

Section Forest.
Variable localeCompare : jsstring -> jsstring -> Z.

Section Store.
Variables (processed : list jsstring) (st : HierarchyState).
Hypothesis Hinv : hierarchyInv processed st.

Lemma child_is_node p cs c :
  nodeMap st !! p = Some cs -> c ∈ cs ->
  is_Some (nodeMap st !! c) /\ (length p < length c)%nat.
Proof.
  intros Hp Hc.
  assert (Hin : c ∈ childrenOf (nodeMap st) p).
  { unfold childrenOf. rewrite Hp. exact Hc. }
  apply (inv_children _ _ Hinv) in Hin as [Hproc Hpar]. split.
  - apply (inv_nodes _ _ Hinv). left. exact Hproc.
  - apply parentOf_shorter, Hpar.
Qed.

Lemma root_is_node r : r ∈ rootNodes st -> is_Some (nodeMap st !! r).
Proof.
  intros Hr. apply (inv_nodes _ _ Hinv).
  apply (inv_roots _ _ Hinv) in Hr as [[H _]|(c & Hc & Hp & _)]; [left|right]; eauto.
Qed.

Lemma readNode_stable n :
  forall t fuel,
    is_Some (nodeMap st !! t) ->
    (size (nodesNotShorter (nodeMap st) t) <= n)%nat ->
    (n <= fuel)%nat ->
    readNode fuel (nodeMap st) t = readNode n (nodeMap st) t.
Proof.
  induction n as [|n IH]; intros t fuel Ht Hsize Hfuel.
  - exfalso.
    assert (Hin : t ∈ nodesNotShorter (nodeMap st) t).
    { apply elem_of_filter. split; [lia|]. apply elem_of_dom, Ht. }
    assert (Hz : size (nodesNotShorter (nodeMap st) t) = 0%nat) by lia.
    apply size_empty_iff in Hz. rewrite Hz in Hin. set_solver.
  - destruct fuel as [|fuel]; [lia|]. simpl. f_equal.
    apply map_ext_in. intros c Hc. apply list_elem_of_In in Hc.
    destruct Ht as [cs Hcs]. rewrite Hcs in Hc. simpl in Hc.
    destruct (child_is_node t cs c Hcs Hc) as [Hnode Hlen].
    apply IH; [exact Hnode | | lia].
    assert (Hsub : nodesNotShorter (nodeMap st) c ⊂ nodesNotShorter (nodeMap st) t).
    { split.
      - intros k Hk. apply elem_of_filter in Hk as [Hk1 Hk2].
        apply elem_of_filter. split; [lia | exact Hk2].
      - intros Hsub.
        assert (Hin : t ∈ nodesNotShorter (nodeMap st) t).
        { apply elem_of_filter. split; [lia|]. apply elem_of_dom. eauto. }
        apply Hsub in Hin. apply elem_of_filter in Hin as [Hin _]. lia. }
    apply subset_size in Hsub. lia.
Qed.

Lemma readNode_size t extra :
  is_Some (nodeMap st !! t) ->
  readNode (size (nodeMap st) + extra) (nodeMap st) t
  = readNode (size (nodeMap st)) (nodeMap st) t.
Proof.
  intros Ht. apply readNode_stable; [exact Ht | | lia].
  rewrite <- (size_dom (D := gset jsstring) (nodeMap st)).
  apply subseteq_size. intros k Hk. apply elem_of_filter in Hk. tauto.
Qed.

End Store.

(** X19.  For every tag set the builder's store is as follows.  There is a
    node for each tag of the set and for each parent path of a tag of the
    set, and no other.  The [children] array of a node holds exactly the
    tags of the set whose parent path is the node's tag, each once.  The
    roots are the tags of the set without a parent path and the slash-free
    parent paths of tags of the set, each once.  No node has two paths
    from the roots. *)
Theorem buildTagHierarchy_links (tags : list jsstring) :
  let st := buildState localeCompare tags in
  (forall k, is_Some (nodeMap st !! k)
             <-> k ∈ tags \/ exists c, c ∈ tags /\ parentOf c = Some k) /\
  (forall k c, c ∈ childrenOf (nodeMap st) k
               <-> c ∈ tags /\ parentOf c = Some k) /\
  (forall r, r ∈ rootNodes st
             <-> (r ∈ tags /\ parentOf r = None)
                 \/ (exists c, c ∈ tags /\ parentOf c = Some r
                               /\ indexOf SLASH r = (-1)%Z)) /\
  (forall k, NoDup (childrenOf (nodeMap st) k)) /\
  NoDup (rootNodes st) /\
  (forall t path1 path2,
      pathTo (nodeMap st) (rootNodes st) path1 t ->
      pathTo (nodeMap st) (rootNodes st) path2 t -> path1 = path2).
Proof.
  intros st. pose proof (buildState_inv localeCompare tags) as Hinv.
  fold st in Hinv.
  split; [apply (inv_nodes _ _ Hinv)|].
  split; [apply (inv_children _ _ Hinv)|].
  split; [apply (inv_roots _ _ Hinv)|].
  split; [apply (inv_children_once _ _ Hinv)|].
  split; [apply (inv_roots_once _ _ Hinv)|].
  intros t path1 path2. apply (pathTo_unique tags st Hinv).
Qed.

(** X21.  The trees of the returned forest are read out of the store in
    full: the bound the reading uses, the number of nodes, is enough for
    every tag set, since following the [children] links further than that
    gives the same trees. *)
Theorem buildTagHierarchy_read_in_full (tags : list jsstring) (extra : nat) :
  let st := buildState localeCompare tags in
  map (readNode (size (nodeMap st) + extra) (nodeMap st)) (rootNodes st)
  = buildTagHierarchy localeCompare tags.
Proof.
  intros st. unfold buildTagHierarchy. fold st.
  pose proof (buildState_inv localeCompare tags) as Hinv. fold st in Hinv.
  apply map_ext_in. intros r Hr. apply list_elem_of_In in Hr.
  apply (readNode_size tags st Hinv).
  apply (root_is_node tags st Hinv r Hr).
Qed.

End Forest.

(** ** The ids and the names of the sidebar items *)

Section SidebarNames.

Lemma matchSegments_chars inSegment r :
  matchSegments inSegment r = true ->
  Forall (fun c => isTagChar c = true \/ c = SLASH) r.
Proof.
  revert inSegment. induction r as [|c r IH]; intros inSegment; simpl;
    [constructor|].
  destruct (isTagChar c) eqn:Ec.
  - intros H. constructor; [auto | eapply IH, H].
  - destruct (N.eqb_spec c SLASH) as [->|Hne]; [|discriminate].
    intros H. apply andb_true_iff in H as [_ H].
    constructor; [auto | eapply IH, H].
Qed.

Lemma matchTagText_core g :
  matchTagText g = true ->
  exists core, g = HASH :: core /\
               Forall (fun c => isTagChar c = true \/ c = SLASH) core.
Proof.
  destruct g as [|c r]; simpl; [discriminate|].
  intros H. apply andb_true_iff in H as [Hc Hr].
  apply N.eqb_eq in Hc. subst c. exists r. split; [reflexivity|].
  eapply matchSegments_chars, Hr.
Qed.

Lemma isTagChar_isIdChar c : isTagChar c = true -> isIdChar c = true.
Proof.
  unfold isTagChar, isIdChar. intros H.
  apply orb_true_iff in H as [H|H]; rewrite H; [reflexivity|].
  apply orb_true_r.
Qed.

Lemma stripUnsafe_id s :
  Forall (fun c => isIdChar c = true) s -> stripUnsafe s = s.
Proof.
  induction 1 as [|c s Hc _ IH]; [reflexivity|].
  simpl. rewrite Hc. f_equal. exact IH.
Qed.

Lemma slashesToDashes_cons c r :
  slashesToDashes (c :: r)
  = (if (c =? SLASH)%N then [DASH; DASH] else [c]) ++ slashesToDashes r.
Proof. reflexivity. Qed.

Lemma slashesToDashes_idChars core :
  Forall (fun c => isTagChar c = true \/ c = SLASH) core ->
  Forall (fun c => isIdChar c = true) (slashesToDashes core).
Proof.
  induction 1 as [|c s Hc _ IH]; [constructor|].
  rewrite slashesToDashes_cons.
  destruct (N.eqb_spec c SLASH) as [->|Hne]; simpl.
  - repeat (constructor; [reflexivity|]). exact IH.
  - destruct Hc as [Hc|Hc]; [|contradiction].
    constructor; [apply isTagChar_isIdChar, Hc | exact IH].
Qed.

Lemma sanitizeId_tagText g core :
  g = HASH :: core ->
  Forall (fun c => isTagChar c = true \/ c = SLASH) core ->
  sanitizeId g = js "biketags:tag:" ++ slashesToDashes core.
Proof.
  intros -> Hcore. unfold sanitizeId. simpl. do 13 f_equal.
  apply stripUnsafe_id, slashesToDashes_idChars, Hcore.
Qed.

(** X22.  The id of a sidebar item is the prefix [biketags:tag:] followed
    by characters of the class [[a-zA-Z0-9:_-]] only.  For a tag that has
    the form of the tag pattern the id is the prefix followed by the tag
    without its hash sign, each slash written as two dashes and every other
    character kept. *)
Theorem sanitizeId_form (tag : jsstring) :
  (exists body, sanitizeId tag = js "biketags:tag:" ++ body /\
                Forall (fun c => isIdChar c = true) body) /\
  (matchTagText tag = true ->
   sanitizeId tag = js "biketags:tag:" ++ slashesToDashes (drop 1 tag)).
Proof.
  split.
  - eexists. split; [reflexivity|].
    unfold stripUnsafe. apply Forall_forall. intros c Hc.
    apply list_elem_of_In, in_map_iff in Hc as (x & <- & _).
    destruct (isIdChar x) eqn:E; [exact E | reflexivity].
  - intros Hm. destruct (matchTagText_core tag Hm) as (core & -> & Hcore).
    apply (sanitizeId_tagText _ core eq_refl Hcore).
Qed.

Lemma slashesToDashes_inj s1 s2 :
  DASH ∉ s1 -> DASH ∉ s2 ->
  slashesToDashes s1 = slashesToDashes s2 -> s1 = s2.
Proof.
  revert s2. induction s1 as [|c1 r1 IH]; intros [|c2 r2] H1 H2;
    rewrite ?slashesToDashes_cons.
  - reflexivity.
  - destruct (c2 =? SLASH)%N; discriminate.
  - destruct (c1 =? SLASH)%N; discriminate.
  - apply not_elem_of_cons in H1 as [Hc1 Hr1].
    apply not_elem_of_cons in H2 as [Hc2 Hr2].
    destruct (N.eqb_spec c1 SLASH) as [->|N1],
             (N.eqb_spec c2 SLASH) as [->|N2]; simpl.
    + intros [= E]. f_equal. apply IH; assumption.
    + intros [= E _]. congruence.
    + intros [= E _]. congruence.
    + intros [= -> E]. f_equal. apply IH; assumption.
Qed.

(** X23.  Two tags of the form of the tag pattern in which no dash occurs
    have the same sidebar id only when they are the same tag. *)
Theorem sanitizeId_injective_without_dash (g1 g2 : jsstring) :
  matchTagText g1 = true -> matchTagText g2 = true ->
  DASH ∉ g1 -> DASH ∉ g2 ->
  sanitizeId g1 = sanitizeId g2 -> g1 = g2.
Proof.
  intros M1 M2 D1 D2.
  destruct (matchTagText_core g1 M1) as (c1 & -> & H1).
  destruct (matchTagText_core g2 M2) as (c2 & -> & H2).
  rewrite (sanitizeId_tagText _ c1 eq_refl H1),
          (sanitizeId_tagText _ c2 eq_refl H2).
  intros E. apply app_inv_head in E. f_equal.
  apply not_elem_of_cons in D1 as [_ D1].
  apply not_elem_of_cons in D2 as [_ D2].
  apply slashesToDashes_inj; assumption.
Qed.

Lemma slashesToDashes_app a b :
  slashesToDashes (a ++ b) = slashesToDashes a ++ slashesToDashes b.
Proof. unfold slashesToDashes. apply flat_map_app. Qed.

(** X24.  A slash and two dashes are written the same way in the id: the
    tag [#a/b] and the tag [#a--b] get the same sidebar id, for all [a]
    and [b]. *)
Theorem sanitizeId_slash_as_two_dashes (a b : jsstring) :
  sanitizeId (HASH :: a ++ SLASH :: b)
  = sanitizeId (HASH :: a ++ DASH :: DASH :: b).
Proof.
  unfold sanitizeId. simpl. do 13 f_equal.
  rewrite !slashesToDashes_app. reflexivity.
Qed.

Lemma split_last_part s :
  exists prefix short,
    last (split SLASH s) = Some short /\
    s = prefix ++ short /\
    (SLASH ∉ short) /\
    (length (split SLASH s) = 1%nat -> prefix = []) /\
    (prefix = [] \/ exists p, prefix = p ++ [SLASH]).
Proof.
  induction s as [|c r IH].
  - exists [], []. simpl. split; [reflexivity|]. split; [reflexivity|].
    split; [apply not_elem_of_nil|]. auto.
  - destruct IH as (prefix & short & Hl & Hs & Hn & H1 & Hp). simpl.
    destruct (N.eqb_spec c SLASH) as [->|Hne].
    + exists (SLASH :: prefix), short.
      destruct (split SLASH r) as [|p ps] eqn:E; [discriminate|].
      split; [exact Hl|]. split; [simpl; f_equal; exact Hs|].
      split; [exact Hn|]. split; [simpl; discriminate|].
      right. destruct Hp as [->|[p' ->]].
      * exists []. reflexivity.
      * exists (SLASH :: p'). reflexivity.
    + destruct (split SLASH r) as [|p ps] eqn:E; [discriminate|].
      destruct ps as [|p2 ps].
      * simpl in Hl. injection Hl as <-.
        rewrite (H1 eq_refl) in Hs. simpl in Hs. subst r.
        exists [], (c :: p). split; [reflexivity|]. split; [reflexivity|].
        split; [|auto].
        apply not_elem_of_cons. split; [congruence | exact Hn].
      * exists (c :: prefix), short.
        split; [exact Hl|]. split; [simpl; f_equal; exact Hs|].
        split; [exact Hn|]. split; [simpl; discriminate|].
        right. destruct Hp as [->|[p' ->]].
        -- exfalso. simpl in Hs. subst r.
           clear -E Hn. revert p p2 ps E.
           induction short as [|x s IH]; intros p p2 ps E; simpl in E;
             [discriminate|].
           apply not_elem_of_cons in Hn as [Hx Hs].
           destruct (N.eqb_spec x SLASH) as [->|_]; [congruence|].
           destruct (split SLASH s) as [|q qs] eqn:E'; [discriminate|].
           injection E as _ E. subst qs. eapply IH; eauto.
        -- exists (c :: p'). reflexivity.
Qed.

(** X25.  At level 0 the name shown is the tag.  At a deeper level it is
    two spaces for each level followed by the short name, which is the part
    of the tag after its last slash: the tag is the short name alone, or a
    path ending in a slash followed by the short name, and the short name
    holds no slash. *)
Theorem getTagDisplayName_short_name (tag : jsstring) (level : nat) :
  getTagDisplayName tag 0 = tag /\
  (level <> 0%nat ->
   exists prefix short,
     getTagDisplayName tag level = replicate (2 * level) SPACE ++ short /\
     tag = prefix ++ short /\
     (SLASH ∉ short) /\
     (prefix = [] \/ exists p, prefix = p ++ [SLASH])).
Proof.
  split; [reflexivity|]. intros Hl.
  destruct (split_last_part tag) as (prefix & short & Hlast & Ht & Hn & _ & Hp).
  exists prefix, short. split; [|auto].
  unfold getTagDisplayName. rewrite Hlast.
  destruct level as [|level]; [congruence|]. cbn [Nat.eqb default from_option id].
  f_equal. clear. generalize (S level) as n.
  induction n as [|n IH]; [reflexivity|].
  replace (2 * S n)%nat with (S (S (2 * n))) by lia.
  simpl. f_equal. f_equal. simpl in IH. exact IH.
Qed.

End SidebarNames.

(** ** The selection observer *)

Section Observer.







End Observer.

(** ** The once-guard *)

Section Guard.
Context {Window : Type} `{EqDecision Window}.

Lemma occurrences_app (w : Window) l1 l2 :
  occurrences w (l1 ++ l2) = (occurrences w l1 + occurrences w l2)%nat.
Proof. unfold occurrences. rewrite filter_app, length_app. reflexivity. Qed.

Lemma occurrences_cons (w x : Window) l :
  occurrences w (x :: l)
  = ((if decide (x = w) then 1 else 0) + occurrences w l)%nat.
Proof.
  unfold occurrences. destruct (decide (x = w)) as [E|E].
  - rewrite filter_cons_True by exact E. reflexivity.
  - rewrite filter_cons_False by exact E. reflexivity.
Qed.

(** X27.  However the setup requests arrive, [setupTagsSidebar] runs for a
    window at most once through the guard: once if the window was not in
    the guard's set and some guarded request names it, never otherwise;
    each run of the rebuild command on a frontmost window adds one run,
    whatever the guard holds.  The guard's set grows by the windows of the
    guarded requests. *)
Theorem setupTagsSidebar_runs (requests : list (SetupRequest Window))
        (initialized : list Window) (w : Window) :
  let result := handleSetupRequests initialized requests in
  (w ∈ result.1 <-> w ∈ initialized \/ w ∈ requestsOnce requests) /\
  occurrences w result.2
  = ((if decide (w ∈ initialized) then 0
      else if decide (w ∈ requestsOnce requests) then 1 else 0)
     + occurrences w (requestsRebuild requests))%nat.
Proof.
  revert initialized.
  induction requests as [|request rest IH]; intros initialized; simpl.
  - split.
    + split; [auto | intros [H|H]; [exact H | inversion H]].
    + destruct (decide (w ∈ initialized)); reflexivity.
  - destruct request as [w'|[w'|]]; simpl.
    + unfold setupTagsSidebarOnce, setAdd.
      destruct (decide (w' ∈ initialized)) as [Hin|Hnin].
      * specialize (IH initialized).
        destruct (handleSetupRequests initialized rest) as [init' calls].
        simpl in *. destruct IH as [IHm IHc]. split.
        -- rewrite IHm, elem_of_cons. split; [tauto|].
           intros [H|[->|H]]; auto.
        -- rewrite IHc. f_equal.
           destruct (decide (w ∈ initialized)) as [|Hw]; [reflexivity|].
           assert (Hne : w <> w') by congruence.
           destruct (decide (w ∈ requestsOnce rest)) as [H1|H1].
           ++ rewrite decide_True by (right; exact H1). reflexivity.
           ++ rewrite decide_False; [reflexivity|].
              intros H2. apply elem_of_cons in H2 as [H2|H2]; auto.
      * specialize (IH (initialized ++ [w'])).
        destruct (handleSetupRequests (initialized ++ [w']) rest)
          as [init' calls].
        simpl in *. destruct IH as [IHm IHc]. split.
        -- rewrite IHm, elem_of_app, list_elem_of_singleton, elem_of_cons.
           tauto.
        -- rewrite occurrences_cons, IHc, Nat.add_assoc. f_equal.
           destruct (decide (w' = w)) as [->|Hne].
           ++ rewrite decide_True by (apply elem_of_app; right; left).
              rewrite decide_False by exact Hnin.
              rewrite decide_True by left. reflexivity.
           ++ destruct (decide (w ∈ initialized)) as [Hw|Hw].
              ** rewrite decide_True by (apply elem_of_app; left; exact Hw).
                 reflexivity.
              ** rewrite decide_False.
                 2:{ intros H2. apply elem_of_app in H2 as [H2|H2]; [auto|].
                     apply list_elem_of_singleton in H2. congruence. }
                 destruct (decide (w ∈ requestsOnce rest)) as [H1|H1].
                 --- rewrite decide_True by (right; exact H1). reflexivity.
                 --- rewrite decide_False; [reflexivity|].
                     intros H2. apply elem_of_cons in H2 as [H2|H2];
                       [congruence | auto].
    + specialize (IH initialized).
      destruct (handleSetupRequests initialized rest) as [init' calls].
      simpl in *. destruct IH as [IHm IHc]. split; [exact IHm|].
      rewrite !occurrences_cons, IHc. lia.
    + specialize (IH initialized).
      destruct (handleSetupRequests initialized rest) as [init' calls].
      simpl in *. exact IH.
Qed.

End Guard.

(** ** The sidebar items of the hierarchy *)

Section SidebarItems.
Context {Sidebar Handle : Type}.
Variable addItem : Sidebar -> SidebarItem -> Sidebar * option Handle.

Lemma tree_induction (P : TagHierarchyNode -> Prop) :
  (forall t cs, Forall P cs -> P (Node t cs)) -> forall n, P n.
Proof.
  intros H. fix IH 1. intros [t cs]. apply H.
  induction cs as [|c cs IHcs]; constructor; [apply IH | exact IHcs].
Qed.

Lemma orderedCalls_app c1 c2 :
  orderedCalls (c1 ++ c2) = orderedCalls c1 ++ orderedCalls c2.
Proof. unfold orderedCalls. apply filter_app. Qed.

Lemma addOneItem_ordered tagId displayName prevId target sb :
  let ordered := {| itemId := tagId; itemText := displayName;
                    itemAfterId := Some prevId; itemTarget := target |} in
  orderedCalls (addOneItem addItem tagId displayName prevId target sb).2
  = [ordered] /\
  (length (addOneItem addItem tagId displayName prevId target sb).1.1 <= 1)%nat /\
  addOneItem acceptAll tagId displayName prevId target tt
  = ([ordered], tt, [ordered]).
Proof.
  unfold addOneItem.
  destruct (addItem sb _) as [s1 [h|]]; simpl.
  - split; [reflexivity|]. split; [lia | reflexivity].
  - destruct (addItem s1 _) as [s2 [h|]]; simpl;
      (split; [reflexivity|]; split; [lia | reflexivity]).
Qed.

Lemma forNodes_sameRequests afterId level nodes :
  Forall (fun n => forall afterId level previous sb u,
              sameRequests (addTagNode addItem afterId level previous n sb)
                           (addTagNode acceptAll afterId level previous n u))
         nodes ->
  forall previous sb u,
    sameRequests (forNodes (addTagNode addItem afterId level) previous nodes sb)
                 (forNodes (addTagNode acceptAll afterId level) previous nodes u).
Proof.
  induction 1 as [|n rest Hn _ IH]; intros previous sb u.
  - split; [reflexivity | simpl; lia].
  - cbn [forNodes].
    specialize (Hn afterId level previous sb u).
    destruct (addTagNode addItem afterId level previous n sb) as [[h1 s1] c1].
    destruct (addTagNode acceptAll afterId level previous n u) as [[i1 u1] d1].
    specialize (IH (Some (nodeTag n)) s1 u1).
    destruct (forNodes (addTagNode addItem afterId level) _ rest s1)
      as [[h2 s2] c2].
    destruct (forNodes (addTagNode acceptAll afterId level) _ rest u1)
      as [[i2 u2] d2].
    destruct Hn as [Hn1 Hn2], IH as [IH1 IH2]. simpl in *.
    split; simpl.
    + rewrite orderedCalls_app, Hn1, IH1. reflexivity.
    + rewrite !length_app. lia.
Qed.

Lemma addTagNode_sameRequests n :
  forall afterId level previous sb u,
    sameRequests (addTagNode addItem afterId level previous n sb)
                 (addTagNode acceptAll afterId level previous n u).
Proof.
  induction n as [t cs IH] using tree_induction.
  intros afterId level previous sb u. destruct u. cbn [addTagNode]. cbv zeta.
  match goal with
  | |- context [addOneItem addItem ?a ?b ?c ?d sb] =>
      destruct (addOneItem_ordered a b c d sb) as (Ho & Hl & Hi);
      rewrite Hi;
      destruct (addOneItem addItem a b c d sb) as [[h s1] c0]
  end.
  pose proof (forNodes_sameRequests (Some (sanitizeId t)) (S level) cs IH
                None s1 tt) as Hc.
  destruct (forNodes (addTagNode addItem _ _) None cs s1) as [[h2 s2] c2].
  destruct (forNodes (addTagNode acceptAll _ _) None cs tt) as [[i2 u2] d2].
  destruct Hc as [Hc1 Hc2]. simpl in *. split; simpl.
  - rewrite orderedCalls_app, Ho, Hc1. reflexivity.
  - rewrite length_app. lia.
Qed.

End SidebarItems.

Section IdealSidebar.

Lemma forNodes_ideal afterId level nodes :
  Forall (fun n => forall afterId level previous u,
              idealItems level (preorderNames level n)
                         (addTagNode acceptAll afterId level previous n u))
         nodes ->
  forall previous u,
    idealItems level (flat_map (preorderNames level) nodes)
               (forNodes (addTagNode acceptAll afterId level) previous nodes u).
Proof.
  induction 1 as [|n rest Hn _ IH]; intros previous u.
  - split; [reflexivity|]. split; [reflexivity | constructor].
  - cbn [forNodes flat_map].
    specialize (Hn afterId level previous u).
    destruct (addTagNode acceptAll afterId level previous n u) as [[i1 u1] d1].
    specialize (IH (Some (nodeTag n)) u1).
    destruct (forNodes (addTagNode acceptAll afterId level) _ rest u1)
      as [[i2 u2] d2].
    destruct Hn as (Hn1 & Hn2 & Hn3), IH as (IH1 & IH2 & IH3). simpl in *.
    split; [|split]; simpl.
    + rewrite Hn1, IH1. reflexivity.
    + rewrite map_app, Hn2, IH2. reflexivity.
    + apply Forall_app. split; assumption.
Qed.

Lemma addTagNode_ideal n :
  forall afterId level previous u,
    idealItems level (preorderNames level n)
               (addTagNode acceptAll afterId level previous n u).
Proof.
  induction n as [t cs IH] using tree_induction.
  intros afterId level previous u. destruct u.
  cbn [addTagNode preorderNames]. cbv zeta.
  unfold addOneItem at 1. cbn [acceptAll].
  pose proof (forNodes_ideal (Some (sanitizeId t)) (S level) cs IH None tt) as Hc.
  destruct (forNodes (addTagNode acceptAll _ _) None cs tt) as [[i2 u2] d2].
  destruct Hc as (Hc1 & Hc2 & Hc3). simpl in *.
  split; [|split]; simpl.
  - rewrite Hc1. reflexivity.
  - rewrite Hc2. reflexivity.
  - constructor; [|exact Hc3]. simpl. split; [reflexivity | eauto].
Qed.

End IdealSidebar.

(** X28.  Whatever the sidebar of the host does, [addTagHierarchyToSidebar]
    asks for the same items with an ordering: the items it adds to a
    sidebar that takes every item.  These are one item for each node of the
    forest, each node before its children and the children in order; the
    item of a node has the sanitized tag as its id, filters by the node's
    tag, and shows the name the tag has at the depth of the node.  No more
    handles are returned than there are nodes. *)
Theorem addTagHierarchyToSidebar_items
        {Sidebar Handle : Type}
        (addItem : Sidebar -> SidebarItem -> Sidebar * option Handle)
        (nodes : list TagHierarchyNode) (afterId : option jsstring)
        (level : nat) (sidebar : Sidebar) :
  let result := addTagHierarchyToSidebar addItem nodes afterId level sidebar in
  let ideal := (addTagHierarchyToSidebar acceptAll nodes afterId level tt).1.1 in
  orderedCalls result.2 = ideal /\
  (length result.1.1 <= length ideal)%nat /\
  map (fun item => (itemTarget item, itemText item)) ideal
  = flat_map (preorderNames level) nodes /\
  Forall (fun item => itemId item = sanitizeId (itemTarget item)
                      /\ is_Some (itemAfterId item)) ideal.
Proof.
  intros result ideal. subst result ideal. unfold addTagHierarchyToSidebar.
  assert (Hs : sameRequests
                 (forNodes (addTagNode addItem afterId level) None nodes sidebar)
                 (forNodes (addTagNode acceptAll afterId level) None nodes tt)).
  { apply forNodes_sameRequests. apply Forall_forall. intros n _.
    apply addTagNode_sameRequests. }
  assert (Hi : idealItems level (flat_map (preorderNames level) nodes)
                 (forNodes (addTagNode acceptAll afterId level) None nodes tt)).
  { apply forNodes_ideal. apply Forall_forall. intros n _.
    apply addTagNode_ideal. }
  destruct Hs as [Hs1 Hs2], Hi as (_ & Hi2 & Hi3). auto.
Qed.

(** ** The theorems at concrete rows and editors *)

Lemma findTrailingTags_placed_witness :
  tokenPlaced (js "Do something important #this #that/nested")
              {| tag := js "#this"; start := 23; end_ := 28 |}.
Proof.
  apply (findTrailingTags_placed
           (js "Do something important #this #that/nested")
           {| tag := js "#this"; start := 23; end_ := 28 |}).
  vm_compute. apply list_elem_of_here.
Defined.

Lemma applyTagsToRow_rewrites_chips_witness :
  let row' := rowAfter applyTagsMini taggedRow in
  attributes row' !! TAGS_ATTR_NEW
  = Some (MiniJSON.stringify (candidateSet (text taggedRow))) /\
  attributes row' !! TAGS_ATTR_OLD
  = Some (MiniJSON.stringify (candidateSet (text taggedRow))) /\
  filter (fun a => isTagMarker a.1.1 = true) (textAttributes row')
  = chipsOf (findTrailingTags (text taggedRow)).
Proof.
  apply (applyTagsToRow_rewrites_chips
           MiniJSON.otherToString MiniJSON.parse MiniJSON.stringify taggedRow).
  - vm_compute. discriminate.
  - vm_compute. reflexivity.
Defined.

Lemma applyTagsCommand_settles_witness :
  let run :=
    applyTagsCommand MiniJSON.otherToString MiniJSON.parse MiniJSON.stringify in
  let context := {| editor := Some exampleEditor; contextTag := None |} in
  run (run context).1.2 = ((run context).1.1, (run context).1.2, []).
Proof.
  exact (proj2 (proj2 (applyTagsCommand_settles
                         MiniJSON.otherToString MiniJSON.parse
                         MiniJSON.stringify
                         {| editor := Some exampleEditor; contextTag := None |}
                         MiniJSONFacts.parse_stringify
                         MiniJSONFacts.parse_empty))).
Defined.

Lemma filter_by_ancestor_keeps_witness :
  attributes (rowAfter (filterRowCommand MiniJSON.parse (js "#work")) storedRow)
    !! FILTER_ATTR_NEW = Some (js "1").
Proof.
  apply (filter_by_ancestor_keeps MiniJSON.parse storedRow
           (js "#work/home") (js "#work")).
  - vm_compute. apply list_elem_of_here.
  - vm_compute. reflexivity.
Defined.

Lemma filterByTagCommand_marks_rows_witness :
  (filterByTagCommand MiniJSON.parse
     {| editor := Some exampleEditor; contextTag := Some (js "#work") |}).1.1
  = true.
Proof.
  assert (Hne : js "#work" <> []) by discriminate.
  exact (proj1 (filterByTagCommand_marks_rows
                  MiniJSON.parse exampleEditor (js "#work") Hne)).
Defined.

Lemma clearFilterCommand_undoes_filter_witness :
  editor (clearFilterCommand
            (filterByTagCommand MiniJSON.parse
               {| editor := Some exampleEditor;
                  contextTag := Some (js "#work") |}).1.2).1.2
  = Some {| outline := outline exampleEditor;
            selection := selection exampleEditor;
            editorFilter := [] |}.
Proof.
  assert (Hne : js "#work" <> []) by discriminate.
  assert (Hun : Forall unfiltered (outline exampleEditor)).
  { repeat (constructor; [split; reflexivity|]). constructor. }
  exact (proj1 (proj2 (clearFilterCommand_undoes_filter
                         MiniJSON.parse exampleEditor (js "#work") Hne Hun))).
Defined.

Lemma tagFromSelection_inside_witness :
  tagFromSelection (CaretSelection taggedRow 30) = Some (js "#that/nested").
Proof.
  apply (tagFromSelection_inside (CaretSelection taggedRow 30) 30
           {| tag := js "#that/nested"; start := 29; end_ := 41 |}).
  - reflexivity.
  - vm_compute. apply list_elem_of_further, list_elem_of_here.
  - cbn. lia.
Defined.

Lemma filterByTagCommand_selection_target_witness :
  (filterByTagCommand MiniJSON.parse
     {| editor := Some exampleEditor; contextTag := None |}).1.1 = true.
Proof.
  pose proof (filterByTagCommand_selection_target
                MiniJSON.parse exampleEditor (CaretSelection taggedRow 30)
                eq_refl) as H.
  cbv zeta in H.
  assert (E : last (findTrailingTags
                      (text (selectionRow (CaretSelection taggedRow 30))))
              = Some {| tag := js "#that/nested"; start := 29; end_ := 41 |})
    by (vm_compute; reflexivity).
  rewrite E in H. destruct H as (t & _ & _ & H & _). exact H.
Defined.

Lemma applyTagsCommand_then_index_witness :
  exists ed' tags,
    editor (applyTagsCommand MiniJSON.otherToString MiniJSON.parse
              MiniJSON.stringify
              {| editor := Some exampleEditor; contextTag := None |}).1.2
    = Some ed' /\
    indexAllTags MiniJSON.parse (outline ed') = map VString tags /\
    parentClosed tags /\
    forall g, g ∈ tags ->
              reachable (buildState (fun _ _ => 0%Z) tags) g.
Proof.
  assert (Hk : Forall keysAgree (outline exampleEditor)).
  { repeat (constructor; [reflexivity|]). constructor. }
  destruct (applyTagsCommand_then_index
              MiniJSON.otherToString MiniJSON.parse MiniJSON.stringify
              (fun _ _ => 0%Z)
              MiniJSONFacts.parse_stringify MiniJSONFacts.parse_empty
              exampleEditor None Hk)
    as (ed' & tags & H1 & _ & H3 & _ & _ & H6 & H7).
  exists ed', tags. split; [exact H1|]. split; [exact H3|].
  split; [exact H6|]. intros g Hg. apply (H7 g Hg).
Defined.

Lemma buildState_parent_closed_witness :
  let st := buildState (fun _ _ => 0%Z) [js "#a"; js "#a/b"] in
  exists path, pathTo (nodeMap st) (rootNodes st) path (js "#a/b").
Proof.
  assert (Hc : parentClosed [js "#a"; js "#a/b"]).
  { intros t p Hin Hp.
    apply elem_of_cons in Hin as [->|Hin]; [vm_compute in Hp; discriminate|].
    apply elem_of_cons in Hin as [->|Hin]; [|inversion Hin].
    vm_compute in Hp. injection Hp as <-. apply list_elem_of_here. }
  destruct (buildState_parent_closed (fun _ _ => 0%Z)
              [js "#a"; js "#a/b"] (js "#a/b") Hc) as (_ & H & _).
  destruct H as (path & Hpath & _);
    [apply list_elem_of_further, list_elem_of_here|].
  exists path. exact Hpath.
Defined.

Lemma sanitizeId_injective_without_dash_witness :
  js "#project/web" = js "#project/web".
Proof.
  apply (sanitizeId_injective_without_dash (js "#project/web") (js "#project/web")).
  - reflexivity.
  - reflexivity.
  - apply (bool_decide_unpack _). vm_compute. exact I.
  - apply (bool_decide_unpack _). vm_compute. exact I.
  - reflexivity.
Defined.


(** ** The normalizer on raw tags *)

Section RawTags.

Lemma hasDoubleSlash_tail c r :
  hasDoubleSlash (c :: r) = false -> hasDoubleSlash r = false.
Proof.
  destruct r as [|d r']; [reflexivity|].
  cbn [hasDoubleSlash]. intros H. apply orb_false_iff in H. tauto.
Qed.











Lemma hasDoubleSlash_dropSlashes r :
  hasDoubleSlash r = false -> hasDoubleSlash (dropSlashes r) = false.
Proof.
  induction r as [|c r IH]; [reflexivity|].
  intros H. cbn [dropSlashes].
  destruct (c =? SLASH)%N; [|exact H].
  apply IH, (hasDoubleSlash_tail c r H).
Qed.

Lemma hasDoubleSlash_afterSlashRun s :
  hasDoubleSlash s = false -> hasDoubleSlash (afterSlashRun s) = false.
Proof.
  induction s as [|c r IH]; [reflexivity|].
  intros H. pose proof (hasDoubleSlash_tail c r H) as Hr.
  cbn [afterSlashRun]. destruct (c =? SLASH)%N.
  - apply hasDoubleSlash_dropSlashes, Hr.
  - apply IH, Hr.
Qed.

(** The tags [normalizeTag] is called with are the tag texts of the
    tokens: none of them holds two slashes in a row. *)
Lemma findTrailingTags_single_slashes s token :
  token ∈ findTrailingTags s ->
  hasDoubleSlash (afterSlashRun (tag token)) = false.
Proof.
  intros Hin. apply hasDoubleSlash_afterSlashRun.
  apply (findTrailingTags_normal s token Hin).
Qed.

End RawTags.

